(** * The download orchestrator of [src/downloadManager.ts]

    A shallow embedding of [runDownloadTask] and of the functions it is built
    from: the request model with [inferFilename], the retry engine
    [downloadWithRetry], the worker pool [processNext], the progress
    publisher [updateProgress] and the final partition into successes and
    failures.

    The orchestrator is asynchronous JavaScript: one thread of control,
    suspended only at [await].  The embedding cuts every async function at
    its suspension points and gives one pure function per uninterrupted
    stretch of code; an execution is a sequence of [event]s, each of which
    resumes one suspended worker, in any order and with any outcome of the
    transfer it awaited.  Request records are JavaScript objects that are
    shared by reference between the [requests] array, the [queue] and the
    workers, and copied for the observer: they live in a [store] and are
    named by their address.  The observer may overwrite the records it was
    handed at any time; a write it makes while it is being called touches
    no live record and so amounts to a write right after the step that
    called it.

    The development also covers what surrounds the orchestrator: one
    transfer ([downloadFile] with its two ways of saving), the reading of
    the URLs in the view ([readUrls] of [src/downloadAppView.ts]) and the
    entry points of the application ([startTask] and the handlers of the
    start and retry buttons of [DownloadApp]). *)

From Stdlib Require Import ZArith Lia Ascii String DecimalString DecimalNat.
From stdpp Require Import base tactics option list strings numbers.

(** ** Request model *)

Inductive FileStatus := pending | downloading | success | failed.

Record DownloadRequest := mkRequest {
  id : string;
  url : string;
  filename : string;
  status : FileStatus;
  attempts : Z;
  error : option string
}.

#[export] Instance FileStatus_eq_dec : EqDecision FileStatus.
Proof. solve_decision. Defined.

#[export] Instance DownloadRequest_eq_dec : EqDecision DownloadRequest.
Proof. solve_decision. Defined.

#[export] Instance DownloadRequest_inhabited : Inhabited DownloadRequest :=
  populate (mkRequest EmptyString EmptyString EmptyString pending 0 None).

Definition set_status (s : FileStatus) (r : DownloadRequest) : DownloadRequest :=
  mkRequest (id r) (url r) (filename r) s (attempts r) (error r).

Definition set_attempts (n : Z) (r : DownloadRequest) : DownloadRequest :=
  mkRequest (id r) (url r) (filename r) (status r) n (error r).

Definition set_error (e : option string) (r : DownloadRequest) : DownloadRequest :=
  mkRequest (id r) (url r) (filename r) (status r) (attempts r) e.

(** [NormalizedOptions].  Numbers are integers; [onProgress] records whether
    an observer callback was supplied.  [directory] is only handed through to
    the transfer primitive. *)
Record NormalizedOptions := mkOptions {
  concurrency : Z;
  maxRetries : Z;
  retryDelayMs : Z;
  directory : option string;
  onProgress : bool
}.

(** ** What a transfer attempt can do

    [downloadFile] (fetch, then persist) is the injected I/O primitive.  Its
    promise either resolves or rejects with a thrown value, which is an
    [Error] object carrying a message or any other value, of which the code
    only uses [String(error)]. *)

Inductive thrown :=
  | ErrorObject (message : string)
  | NonError (rendered : string).

Inductive outcome :=
  | Resolved
  | Rejected (e : thrown).

(** [error instanceof Error ? error.message : String(error)] *)
Definition describe (e : thrown) : string :=
  match e with
  | ErrorObject m => m
  | NonError s => s
  end.

(** [lastError instanceof Error ? lastError.message : 'Unknown download error'],
    where [lastError] starts as [null]. *)
Definition lastError_message (lastError : option thrown) : string :=
  match lastError with
  | Some (ErrorObject m) => m
  | _ => "Unknown download error"%string
  end.

(** [a ?? b] on an optional string. *)
Definition nullish (a : option string) (b : string) : string :=
  match a with
  | Some s => s
  | None => b
  end.

(** ** Numbers

    The numbers of the options are integers that a double holds.  The code
    counts with them ([attempt], [attempts], [active]), which is exact as
    long as the counts stay below [2^53], as they are taken to; and in one
    place, the backoff of line 254, it computes a value that need not be
    finite. *)
Inductive number :=
  | Integer (z : Z)
  | PosInfinity
  | NegInfinity
  | NaN.

(** [Math.pow(2, n)] for an integer [n >= 0]: a double holds [2^n] up to
    [n = 1023], beyond that the result is [Infinity]. *)
Definition pow2 (n : Z) : number :=
  if (n <? 1024)%Z then Integer (2 ^ n) else PosInfinity.

(** [r * p] in doubles, for an integer [r] and a [p] as [Math.pow(2, n)]
    yields it.  The product of a double and a power of two is exact unless
    it overflows, at [2^1024]; [0 * Infinity] is [NaN]. *)
Definition times (r : Z) (p : number) : number :=
  match p with
  | Integer q =>
      if (Z.abs (r * q) <? 2 ^ 1024)%Z then Integer (r * q)
      else if (0 <? r * q)%Z then PosInfinity else NegInfinity
  | PosInfinity =>
      if (r =? 0)%Z then NaN else if (0 <? r)%Z then PosInfinity else NegInfinity
  | NegInfinity =>
      if (r =? 0)%Z then NaN else if (0 <? r)%Z then NegInfinity else PosInfinity
  | NaN => NaN
  end.

Arguments pow2 : simpl never.
Arguments times : simpl never.

(** ** Retry engine: [downloadWithRetry]

    The locals of one activation, and the code between its suspension
    points.  Every piece takes the request record as it is in the store when
    the piece runs and returns the record as it leaves it, together with
    where the activation is suspended next ([None]: it has returned). *)

Record locals := mkLocals {
  attempt : Z;
  lastError : option thrown
}.

Definition fresh_locals : locals := mkLocals 0 None.

(** Lines 259-262, after the loop. *)
Definition after_loop (lc : locals) (r : DownloadRequest) : DownloadRequest :=
  let r1 := set_status failed r in
  set_error (Some (nullish (error r1) (lastError_message (lastError lc)))) r1.

(** Lines 240-243: the loop test, and on entry [request.attempts += 1] and
    the call of [downloadFile], at whose [await] the activation suspends. *)
Definition loop_head (o : NormalizedOptions) (lc : locals) (r : DownloadRequest)
  : DownloadRequest * option locals :=
  if (attempt lc <=? maxRetries o)%Z
  then (set_attempts (attempts r + 1)%Z r, Some lc)
  else (after_loop lc r, None).

(** Line 254: [retryDelayMs * Math.pow(2, attempt - 1)], where [attempt] has
    just been incremented and so is at least 1. *)
Definition backoff_ms (o : NormalizedOptions) (a : Z) : number :=
  times (retryDelayMs o) (pow2 (a - 1)).
Arguments backoff_ms : simpl never.

(** Lines 244-256: the continuation of [await downloadFile(...)].  On
    rejection the [catch] block runs; unless it breaks out of the loop it
    suspends in [sleep(backoff)], and the result carries [backoff]. *)
Definition after_downloadFile (o : NormalizedOptions) (res : outcome)
    (lc : locals) (r : DownloadRequest)
  : DownloadRequest * option (locals * number) :=
  match res with
  | Resolved => (set_error None (set_status success r), None)
  | Rejected e =>
      let r1 := set_error (Some (describe e)) r in
      let lc1 := mkLocals (attempt lc + 1)%Z (Some e) in
      if (attempt lc1 >? maxRetries o)%Z
      then (after_loop lc1 r1, None)
      else (r1, Some (lc1, backoff_ms o (attempt lc1)))
  end.

(** What one activation does to the outside, in order: the transfer attempts
    with their outcomes and the waits. *)
Inductive action :=
  | Transfer (res : outcome)
  | Sleep (ms : number).

(** One whole activation run on its own against the outcomes of its
    successive transfer attempts.  It returns the request at exit, what the
    activation did, and the outcomes it did not consume; [None] when an
    attempt is started whose promise never settles. *)
Fixpoint retry_loop (o : NormalizedOptions) (outs : list outcome)
    (lc : locals) (r : DownloadRequest)
  : option (DownloadRequest * list action * list outcome) :=
  match outs with
  | [] => None
  | res :: outs' =>
      match after_downloadFile o res lc r with
      | (r1, None) => Some (r1, [Transfer res], outs')
      | (r1, Some (lc1, ms)) =>
          match loop_head o lc1 r1 with
          | (r2, None) => Some (r2, [Transfer res; Sleep ms], outs')
          | (r2, Some lc2) =>
              match retry_loop o outs' lc2 r2 with
              | Some (r3, acts, rest) => Some (r3, Transfer res :: Sleep ms :: acts, rest)
              | None => None
              end
          end
      end
  end.

Definition downloadWithRetry (o : NormalizedOptions) (outs : list outcome)
    (r : DownloadRequest)
  : option (DownloadRequest * list action * list outcome) :=
  match loop_head o fresh_locals r with
  | (r1, None) => Some (r1, [], outs)
  | (r1, Some lc) => retry_loop o outs lc r1
  end.

(** ** Filename inference: [inferFilename]

    [new URL(url)] is the platform's parser, not code of this repository: it
    is taken as a parameter that yields the [pathname] of the parsed URL, or
    nothing when the constructor throws.  [createTaskId] draws a random
    token; the token of the k-th call is an input as well.  So is the
    message of the [RangeError] with which the engine refuses to make an
    array of more than [2^32 - 1] elements. *)

Record platform := mkPlatform {
  parseURL : string -> option string;
  createTaskId : nat -> string;
  invalidArrayLength : string
}.

(** [s.split(sep)] for a one-character separator. *)
Fixpoint split (sep : ascii) (s : string) : list string :=
  match s with
  | EmptyString => [EmptyString]
  | String c s' =>
      if Ascii.eqb c sep then EmptyString :: split sep s'
      else match split sep s' with
           | seg :: segs => String c seg :: segs
           | [] => [String c EmptyString]
           end
  end.

(** [Boolean(s)] on a string: it is truthy unless empty. *)
Definition truthy (s : string) : bool :=
  match s with
  | EmptyString => false
  | String _ _ => true
  end.

(** [s.includes(c)] for a one-character needle. *)
Fixpoint includes (c : ascii) (s : string) : bool :=
  match s with
  | EmptyString => false
  | String c' s' => Ascii.eqb c' c || includes c s'
  end.

(** The decimal rendering of a number inside a template literal. *)
Definition decimal (n : nat) : string :=
  NilEmpty.string_of_uint (Nat.to_uint n).

Definition placeholder (index : nat) : string :=
  ("download-" ++ decimal (index + 1) ++ ".jpg")%string.

Definition inferFilename (P : platform) (u : string) (index : nat) : string :=
  match parseURL P u with
  | Some pathname =>
      match list.last (List.filter truthy (split "/" pathname)) with
      | Some l => if truthy l && includes "." l then l else placeholder index
      | None => placeholder index
      end
  | None => placeholder index
  end.

(** The record built for the URL at [index] (lines 183-189). *)
Definition newRequest (P : platform) (index : nat) (u : string) : DownloadRequest :=
  mkRequest (createTaskId P index) u (inferFilename P u index) pending 0 None.

(** ** Progress snapshots and the batch result *)

(** An address in the store of request records. *)
Abbreviation loc := nat (only parsing).

Inductive ProgressStatus := idle | running | completed.

Module Progress.
Record DownloadProgressSnapshot := mkSnapshot {
  total : nat;
  completed : nat;
  successes : nat;
  failures : nat;
  entries : list loc;
  status : ProgressStatus
}.
End Progress.

Module Result.
Record DownloadResult := mkResult {
  successes : list loc;
  failures : list loc
}.
End Result.

(** One call of the observer: the snapshot object it was handed, whose
    [entries] are addresses of records, and the field values those records
    had at the moment of the call. *)
Record delivery := mkDelivery {
  snapshot : Progress.DownloadProgressSnapshot;
  seen : list DownloadRequest
}.

(** ** The state of one batch *)

(** Where a worker (one activation chain of [processNext]) is suspended. *)
Inductive worker :=
  | AwaitingDownloadFile (item : loc) (lc : locals)
  | AwaitingSleep (item : loc) (lc : locals) (ms : number)
  | AwaitingRetry (item : loc)
  | Finished.

(** The state of a batch between two events.  [store] holds the request
    records by address; [requests] is the array of line 183 and [queue] the
    array of line 193, both arrays of addresses; [active] is the counter of
    line 194; [unlaunched] counts the workers [Array.from] has yet to
    create and [workers] lists the created ones in order.  [delivered] logs
    the calls of the observer and [dispatched] the calls of
    [downloadWithRetry], oldest first. *)
Record state := mkState {
  store : list DownloadRequest;
  requests : list loc;
  queue : list loc;
  active : Z;
  unlaunched : nat;
  workers : list worker;
  delivered : list delivery;
  dispatched : list loc
}.

Definition deref (st : state) (l : loc) : DownloadRequest := store st !!! l.

Definition write (l : loc) (r : DownloadRequest) (st : state) : state :=
  mkState (<[l := r]> (store st)) (requests st) (queue st) (active st)
          (unlaunched st) (workers st) (delivered st) (dispatched st).

Definition set_queue (q : list loc) (st : state) : state :=
  mkState (store st) (requests st) q (active st)
          (unlaunched st) (workers st) (delivered st) (dispatched st).

Definition set_active (a : Z) (st : state) : state :=
  mkState (store st) (requests st) (queue st) a
          (unlaunched st) (workers st) (delivered st) (dispatched st).

Definition set_unlaunched (n : nat) (st : state) : state :=
  mkState (store st) (requests st) (queue st) (active st)
          n (workers st) (delivered st) (dispatched st).

Definition set_workers (ws : list worker) (st : state) : state :=
  mkState (store st) (requests st) (queue st) (active st)
          (unlaunched st) ws (delivered st) (dispatched st).

Definition log_dispatch (l : loc) (st : state) : state :=
  mkState (store st) (requests st) (queue st) (active st)
          (unlaunched st) (workers st) (delivered st) (dispatched st ++ [l]).

(** The field values of the live request records, in the order of [requests]. *)
Definition live (st : state) : list DownloadRequest := map (deref st) (requests st).

Definition has_status (s : FileStatus) (r : DownloadRequest) : Prop :=
  status r = s.

#[export] Instance has_status_dec s r : Decision (has_status s r).
Proof. unfold has_status. apply _. Defined.

(** ** Progress publisher: [updateProgress]

    Without an observer nothing happens.  Otherwise [requests.map(entry =>
    ({...entry}))] allocates one new record per request, holding the field
    values of the live one, and the observer is called with the snapshot. *)
Definition updateProgress (ps : ProgressStatus) (o : NormalizedOptions) (st : state) : state :=
  if onProgress o then
    let n_successes := length (filter (has_status success) (live st)) in
    let n_failures := length (filter (has_status failed) (live st)) in
    let copies := live st in
    let snap := Progress.mkSnapshot (length (requests st)) (n_successes + n_failures)
                  n_successes n_failures
                  (seq (length (store st)) (length copies)) ps in
    mkState (store st ++ copies) (requests st) (queue st) (active st)
            (unlaunched st) (workers st)
            (delivered st ++ [mkDelivery snap copies]) (dispatched st)
  else st.

(** ** Worker pool: [processNext] *)

(** One call of [processNext], up to its first suspension: it runs through
    the call of [downloadWithRetry] until that suspends or returns.  The
    test of line 204 cannot fail, the queue holds objects only. *)
Definition processNext (o : NormalizedOptions) (st : state) : state * worker :=
  match queue st with
  | [] => (st, Finished)
  | item :: rest =>
      let st1 := set_queue rest st in
      let st2 := set_active (active st1 + 1)%Z st1 in
      let st3 := write item (set_status downloading (deref st2 item)) st2 in
      let st4 := updateProgress running o st3 in
      let st5 := log_dispatch item st4 in
      let '(r, k) := loop_head o fresh_locals (deref st5 item) in
      (write item r st5,
       match k with
       | Some lc => AwaitingDownloadFile item lc
       | None => AwaitingRetry item
       end)
  end.

(** The continuation of [await downloadWithRetry(...)] in [processNext]:
    the second snapshot, then the [finally] block with the recursive call. *)
Definition after_downloadWithRetry (o : NormalizedOptions) (st : state) : state * worker :=
  let st1 := updateProgress running o st in
  let st2 := set_active (active st1 - 1)%Z st1 in
  match queue st2 with
  | [] => (st2, Finished)
  | _ :: _ => processNext o st2
  end.

(** ** Executions *)

(** The addresses the observer holds: the entries of every snapshot it got. *)
Definition observer_locs (st : state) : list loc :=
  concat (map (fun d => Progress.entries (snapshot d)) (delivered st)).

(** What can happen next.  [Launch]: [Array.from] creates the next worker,
    which runs to its first suspension.  [Settle w res]: the transfer that
    worker [w] awaits settles.  [Wake w]: the timer that [w] awaits fires.
    [Resume w]: [processNext] of [w] continues after [downloadWithRetry]
    returned.  [ObserverWrite l r]: the observer overwrites the fields of a
    record it was handed. *)
Inductive event :=
  | Launch
  | Settle (w : nat) (res : outcome)
  | Wake (w : nat)
  | Resume (w : nat)
  | ObserverWrite (l : loc) (r : DownloadRequest).

Definition set_worker (w : nat) (wk : worker) (st : state) : state :=
  set_workers (<[w := wk]> (workers st)) st.

Definition launched (st : state) : bool := bool_decide (unlaunched st = 0%nat).

(** [step o ev st] is the state after [ev], or [None] when [ev] cannot
    happen in [st].  Workers are created back to back by [Array.from], so no
    continuation runs before the last one is created. *)
Definition step (o : NormalizedOptions) (ev : event) (st : state) : option state :=
  match ev with
  | Launch =>
      match unlaunched st with
      | O => None
      | S n =>
          let '(st1, wk) := processNext o (set_unlaunched n st) in
          Some (set_workers (workers st1 ++ [wk]) st1)
      end
  | Settle w res =>
      match workers st !! w with
      | Some (AwaitingDownloadFile item lc) =>
          if launched st then
            let '(r, k) := after_downloadFile o res lc (deref st item) in
            let st1 := write item r st in
            Some match k with
                 | Some (lc1, ms) =>
                     set_worker w (AwaitingSleep item lc1 ms) st1
                 | None => set_worker w (AwaitingRetry item) st1
                 end
          else None
      | _ => None
      end
  | Wake w =>
      match workers st !! w with
      | Some (AwaitingSleep item lc ms) =>
          if launched st then
            let '(r, k) := loop_head o lc (deref st item) in
            let st1 := write item r st in
            Some match k with
                 | Some lc1 => set_worker w (AwaitingDownloadFile item lc1) st1
                 | None => set_worker w (AwaitingRetry item) st1
                 end
          else None
      | _ => None
      end
  | Resume w =>
      match workers st !! w with
      | Some (AwaitingRetry item) =>
          if launched st then
            let '(st1, wk) := after_downloadWithRetry o st in
            Some (set_worker w wk st1)
          else None
      | _ => None
      end
  | ObserverWrite l r =>
      if bool_decide (l ∈ observer_locs st) then Some (write l r st) else None
  end.

(** ** The orchestrator: [runDownloadTask] *)

(** [Array.from({ length: n }, ...)] of line 221 makes an array of [n]
    elements, of none when [n] is negative.  When [n] exceeds [2^32 - 1] it
    throws a [RangeError] before it makes any element. *)
Definition array_length (n : Z) : option nat :=
  if (n <? 2 ^ 32)%Z then Some (Z.to_nat n) else None.

(** The size of the pool: the number of workers [Array.from] creates. *)
Definition pool_size (o : NormalizedOptions) : nat :=
  default 0 (array_length (concurrency o)).

(** Lines 183-194, and the number of workers line 221 will create: the
    request records, the idle snapshot, the queue. *)
Definition start (P : platform) (o : NormalizedOptions) (urls : list string) : state :=
  let records := imap (newRequest P) urls in
  let reqs := seq 0 (length records) in
  let st := mkState records reqs [] 0%Z 0 [] [] [] in
  let st1 := updateProgress idle o st in
  set_unlaunched (pool_size o) (set_queue (requests st1) st1).

Definition is_finished (wk : worker) : bool :=
  match wk with
  | Finished => true
  | _ => false
  end.

(** [Promise.all(workers)] is fulfilled. *)
Definition joined (st : state) : bool :=
  launched st && forallb is_finished (workers st).

(** Lines 224-229. *)
Definition finish (o : NormalizedOptions) (st : state) : state * Result.DownloadResult :=
  let st1 := updateProgress completed o st in
  (st1,
   Result.mkResult
     (filter (fun l => has_status success (deref st1 l)) (requests st1))
     (filter (fun l => has_status failed (deref st1 l)) (requests st1))).

(** The states an execution can go through. *)
Inductive reachable (P : platform) (o : NormalizedOptions) (urls : list string)
  : state -> Prop :=
  | reachable_start : reachable P o urls (start P o urls)
  | reachable_step st ev st' :
      reachable P o urls st -> step o ev st = Some st' ->
      reachable P o urls st'.

(** The caller's options, every one optional, and the merge with
    [defaultOptions] (line 182). *)
Module Task.
Record DownloadTaskOptions := mkTaskOptions {
  concurrency : option Z;
  maxRetries : option Z;
  retryDelayMs : option Z;
  directory : option string;
  onProgress : bool
}.
End Task.

Definition defaultOptions : NormalizedOptions := mkOptions 3 3 500 None false.

Definition mergeOptions (options : Task.DownloadTaskOptions) : NormalizedOptions :=
  mkOptions
    (default (concurrency defaultOptions) (Task.concurrency options))
    (default (maxRetries defaultOptions) (Task.maxRetries options))
    (default (retryDelayMs defaultOptions) (Task.retryDelayMs options))
    (Task.directory options)
    (Task.onProgress options).

(** The environment of a batch decides what happens next: which suspended
    worker continues, with which outcome if it awaits a transfer, and when
    the observer writes to a record it was handed. *)
Inductive choice :=
  | Advance (w : nat) (res : outcome)
  | Scribble (l : loc) (r : DownloadRequest).

Definition resume_event (st : state) (w : nat) (res : outcome) : option event :=
  match workers st !! w with
  | Some (AwaitingDownloadFile _ _) => Some (Settle w res)
  | Some (AwaitingSleep _ _ _) => Some (Wake w)
  | Some (AwaitingRetry _) => Some (Resume w)
  | _ => None
  end.

(** The event for a choice.  While [Array.from] is creating workers nothing
    else runs; a choice that names a worker which is not suspended falls on
    the first suspended one. *)
Definition choose (st : state) (c : choice) : option event :=
  match c with
  | Advance w res =>
      if launched st then
        match resume_event st w res with
        | Some ev => Some ev
        | None =>
            match list_find (fun wk => is_finished wk = false) (workers st) with
            | Some (w', _) => resume_event st w' res
            | None => None
            end
        end
      else Some Launch
  | Scribble l r => Some (ObserverWrite l r)
  end.

(** Run until [Promise.all] is fulfilled.  [None]: the schedule ends while
    some promise is still pending.  A write of the observer to an address it
    does not hold is skipped. *)
Fixpoint run (o : NormalizedOptions) (sched : list choice) (st : state) : option state :=
  if joined st then Some st
  else
    match sched with
    | [] => None
    | c :: sched' =>
        match choose st c with
        | Some ev =>
            match step o ev st with
            | Some st' => run o sched' st'
            | None =>
                match c with
                | Scribble _ _ => run o sched' st
                | Advance _ _ => None
                end
            end
        | None => None
        end
    end.

Definition blank : state := mkState [] [] [] 0 0 [] [] [].

(** How a call of [runDownloadTask] ends, with the state of the batch at
    that point: it returns its result; or its promise is rejected with what
    was thrown, which only line 221 can do; or its promise is still pending
    when the schedule ends. *)
Inductive ending :=
  | Returns (st : state) (res : Result.DownloadResult)
  | Throws (st : state) (e : thrown)
  | Pends.

Definition runDownloadTask_ending (P : platform) (urls : list string)
    (options : Task.DownloadTaskOptions) (sched : list choice) : ending :=
  match urls with
  | [] => Returns blank (Result.mkResult [] [])
  | _ :: _ =>
      let o := mergeOptions options in
      let st0 := start P o urls in
      match array_length (concurrency o) with
      | None => Throws st0 (ErrorObject (invalidArrayLength P))
      | Some _ =>
          match run o sched st0 with
          | Some st => Returns (fst (finish o st)) (snd (finish o st))
          | None => Pends
          end
      end
  end.

(** What the promise of [runDownloadTask] is fulfilled with, and the state
    of the batch then; [None] when it is not fulfilled. *)
Definition runDownloadTask (P : platform) (urls : list string)
    (options : Task.DownloadTaskOptions) (sched : list choice)
  : option (state * Result.DownloadResult) :=
  match runDownloadTask_ending P urls options sched with
  | Returns st res => Some (st, res)
  | Throws _ _ | Pends => None
  end.

(** ** Notions the properties are stated with *)



(** The same with the waits as line 254 computes them. *)
Fixpoint engine_trace (o : NormalizedOptions) (k : nat) (es : list thrown) : list action :=
  match es with
  | [] => []
  | e :: es' =>
      Transfer (Rejected e)
        :: (if (Z.of_nat k <=? maxRetries o)%Z
            then [Sleep (backoff_ms o (Z.of_nat k))] else [])
        ++ engine_trace o (S k) es'
  end.


Definition is_transfer (a : action) : bool :=
  match a with
  | Transfer _ => true
  | Sleep _ => false
  end.

(** The number of transfer attempts in a trace. *)
Definition transfers (acts : list action) : nat :=
  length (List.filter is_transfer acts).

(** [s] consists of slashes only. *)
Fixpoint all_slashes (s : string) : bool :=
  match s with
  | EmptyString => true
  | String c s' => Ascii.eqb c "/" && all_slashes s'
  end.

(** [s] is the last non-empty path segment of [pathname]: a non-empty run
    of characters without a slash that starts the path or follows a slash,
    and after which the path has nothing but slashes. *)
Definition last_segment (pathname s : string) : Prop :=
  truthy s = true ∧ includes "/" s = false ∧
  ∃ pre post,
    pathname = (pre ++ s ++ post)%string ∧ all_slashes post = true ∧
    (pre = EmptyString ∨ ∃ pre', pre = (pre' ++ "/")%string).

(** ** Invariants of an execution *)

(** The request a worker holds. *)
Definition worker_item (wk : worker) : option loc :=
  match wk with
  | AwaitingDownloadFile item _ | AwaitingSleep item _ _ | AwaitingRetry item => Some item
  | Finished => None
  end.

(** The request a worker holds inside [downloadWithRetry]. *)
Definition busy_item (wk : worker) : option loc :=
  match wk with
  | AwaitingDownloadFile item _ | AwaitingSleep item _ _ => Some item
  | AwaitingRetry _ | Finished => None
  end.

(** A request record that has left the retry engine. *)
Definition settled (o : NormalizedOptions) (r : DownloadRequest) : Prop :=
  match status r with
  | success => error r = None ∧ (1 <= attempts r <= maxRetries o + 1)%Z
  | failed => is_Some (error r) ∧ attempts r = Z.max 0 (maxRetries o + 1)
  | pending | downloading => False
  end.

(** What holds of a suspended worker and the request it holds. *)
Definition worker_ok (o : NormalizedOptions) (st : state) (wk : worker) : Prop :=
  match wk with
  | AwaitingDownloadFile item lc =>
      item < length (dispatched st) ∧ status (deref st item) = downloading ∧
      (0 <= attempt lc <= maxRetries o)%Z ∧
      attempts (deref st item) = (attempt lc + 1)%Z
  | AwaitingSleep item lc ms =>
      item < length (dispatched st) ∧ status (deref st item) = downloading ∧
      (1 <= attempt lc <= maxRetries o)%Z ∧
      attempts (deref st item) = attempt lc ∧
      ms = backoff_ms o (attempt lc) ∧
      (∃ e, lastError lc = Some e ∧ error (deref st item) = Some (describe e))
  | AwaitingRetry item =>
      item < length (dispatched st) ∧ settled o (deref st item)
  | Finished => queue st = []
  end.

(** What holds of the live record at address [l], made for the URL [u]. *)
Definition record_ok (P : platform) (o : NormalizedOptions) (st : state)
    (l : loc) (u : string) : Prop :=
  let r := deref st l in
  id r = createTaskId P l ∧ url r = u ∧ filename r = inferFilename P u l ∧
  match status r with
  | pending => length (dispatched st) <= l ∧ attempts r = 0%Z ∧ error r = None
  | downloading =>
      l < length (dispatched st) ∧
      ∃ w wk, workers st !! w = Some wk ∧ busy_item wk = Some l
  | success | failed => l < length (dispatched st) ∧ settled o r
  end.

(** What holds of a call of the observer in a batch of [n] requests. *)
Definition delivery_ok (n : nat) (d : delivery) : Prop :=
  let s := snapshot d in
  Progress.total s = n ∧
  Progress.completed s = Progress.successes s + Progress.failures s ∧
  Progress.completed s <= Progress.total s ∧
  length (Progress.entries s) = n ∧
  length (seen d) = n ∧
  Progress.successes s = length (filter (has_status success) (seen d)) ∧
  Progress.failures s = length (filter (has_status failed) (seen d)).

(** The number of requests in the downloading phase among [rs]. *)
Definition downloading_count (rs : list DownloadRequest) : nat :=
  length (filter (has_status downloading) rs).

Record invariant (P : platform) (o : NormalizedOptions) (urls : list string)
    (st : state) : Prop := mkInvariant {
  inv_requests : requests st = seq 0 (length urls);
  inv_store : length urls <= length (store st);
  inv_dispatched : dispatched st = seq 0 (length (dispatched st));
  inv_queue :
    queue st = seq (length (dispatched st)) (length urls - length (dispatched st));
  inv_dispatched_le : length (dispatched st) <= length urls;
  inv_pool : length (workers st) + unlaunched st <= pool_size o;
  inv_workers : ∀ w wk, workers st !! w = Some wk → worker_ok o st wk;
  inv_distinct : ∀ w w' wk wk' item,
    workers st !! w = Some wk → workers st !! w' = Some wk' →
    worker_item wk = Some item → worker_item wk' = Some item → w = w';
  inv_records : ∀ l u, urls !! l = Some u → record_ok P o st l u;
  inv_observer : ∀ l, l ∈ observer_locs st → length urls <= l < length (store st);
  inv_delivered : Forall (delivery_ok (length urls)) (delivered st);
  inv_seen : Forall (fun d => downloading_count (seen d) <= pool_size o) (delivered st)
}.


(** A snapshot of a batch of [n] requests whose counters agree. *)
Definition consistent (n : nat) (s : Progress.DownloadProgressSnapshot) : Prop :=
  Progress.completed s = Progress.successes s + Progress.failures s ∧
  Progress.completed s <= Progress.total s ∧
  Progress.total s = n.

(** The events of the batch itself, as opposed to those of the observer. *)
Definition orchestrator_event (ev : event) : Prop :=
  match ev with
  | ObserverWrite _ _ => False
  | _ => True
  end.

(** ** How much is left to do

    A bound on the number of events a batch can still go through, used to
    show that it completes.  After its [a]-th failure a request has
    [maxRetries - a] retries left, each a wait and a transfer. *)

Definition retries_left (o : NormalizedOptions) (a : Z) : nat :=
  2 * Z.to_nat (maxRetries o - a).

Definition worker_cost (o : NormalizedOptions) (wk : worker) : nat :=
  match wk with
  | AwaitingDownloadFile _ lc => retries_left o (attempt lc) + 2
  | AwaitingSleep _ lc _ => retries_left o (attempt lc) + 3
  | AwaitingRetry _ => 1
  | Finished => 0
  end.

Definition item_cost (o : NormalizedOptions) : nat := retries_left o 0 + 3.

Definition work (o : NormalizedOptions) (st : state) : nat :=
  unlaunched st + sum_list (worker_cost o <$> workers st)
  + length (queue st) * item_cost o.

Definition is_advance (c : choice) : bool :=
  match c with
  | Advance _ _ => true
  | Scribble _ _ => false
  end.

(** The number of times a schedule lets the batch continue. *)
Definition advances (sched : list choice) : nat :=
  length (List.filter is_advance sched).

(** ** What the orchestrator can see

    Two states of a batch of [n] requests look the same to the orchestrator
    when they differ at most in records that only the observer holds. *)
Definition same_view (n : nat) (st1 st2 : state) : Prop :=
  requests st1 = seq 0 n ∧ n <= length (store st1) ∧
  requests st2 = requests st1 ∧ queue st2 = queue st1 ∧ active st2 = active st1 ∧
  unlaunched st2 = unlaunched st1 ∧ workers st2 = workers st1 ∧
  delivered st2 = delivered st1 ∧ dispatched st2 = dispatched st1 ∧
  length (store st2) = length (store st1) ∧ live st2 = live st1.

(** A schedule without the writes of the observer. *)
Definition strip (sched : list choice) : list choice := List.filter is_advance sched.

(** ** Sample inputs *)

Definition sample_options : NormalizedOptions := mkOptions 2 2 100 None true.

Definition sample_request : DownloadRequest :=
  mkRequest "task-1" "https://x/y.png" "y.png" downloading 0 None.

Definition http404 : thrown := ErrorObject "HTTP 404".


(** A platform whose parser knows the two URLs of the example. *)
Definition sample_platform : platform :=
  mkPlatform
    (fun u =>
       if String.eqb u "https://a/b/c.png" then Some "/b/c.png"%string
       else if String.eqb u "https://a/b/" then Some "/b/"%string
       else None)
    (fun k => ("task-" ++ decimal k)%string)
    "Invalid array length".

Definition sample_task : Task.DownloadTaskOptions :=
  Task.mkTaskOptions (Some 2%Z) (Some 2%Z) (Some 100%Z) None true.

Definition sample_urls : list string := ["https://a/b/c.png"; "https://a/b/"]%string.

(** Options that ask for more workers than an array can have elements. *)
Definition oversized_task : Task.DownloadTaskOptions :=
  Task.mkTaskOptions (Some (2 ^ 32)%Z) (Some 2%Z) (Some 100%Z) None true.

(** A schedule in which the observer overwrites two records it was handed,
    one from the idle snapshot and one from a later snapshot. *)
Definition sample_schedule : list choice :=
  [Scribble 2 sample_request; Advance 0 Resolved; Advance 0 Resolved;
   Scribble 5 sample_request; Advance 0 Resolved; Advance 0 (Rejected http404);
   Advance 1 (Rejected http404); Advance 1 Resolved; Advance 1 Resolved;
   Advance 1 Resolved].

(** ** Proof tactics *)

(** Unfold the field updates of request records. *)
Ltac unfold_setters :=
  unfold set_status, set_error, set_attempts in *; cbn [id url filename status attempts error] in *.

(** Unfold the field updates of states. *)
Ltac simpl_state :=
  unfold deref, log_dispatch, write, set_worker, set_workers, set_unlaunched,
    set_active, set_queue in *;
  cbn [store requests queue active unlaunched workers delivered dispatched] in *.

(** ** Notions for the course of a batch *)

(** A request record that is in a final state. *)
Definition terminal (r : DownloadRequest) : Prop :=
  status r = success ∨ status r = failed.

(** [rs'] shows the records [rs] at a later time: there are as many, and a
    record that was in a final state is as it was. *)
Definition extends (rs rs' : list DownloadRequest) : Prop :=
  length rs = length rs' ∧
  ∀ i r, rs !! i = Some r → terminal r → rs' !! i = Some r.

(** The records [rs] are those of the input URLs, in order: the record at
    index [i] has the identity that lines 183-189 gave the request of the
    [i]-th URL. *)
Definition identified (P : platform) (urls : list string)
    (rs : list DownloadRequest) : Prop :=
  ∀ i u, urls !! i = Some u →
    ∃ r, rs !! i = Some r ∧ id r = createTaskId P i ∧ url r = u ∧
         filename r = inferFilename P u i.

(** The calls [ds] of the observer, oldest first, are in the order of time,
    and [rs], the records now, is later than all of them. *)
Definition history (ds : list delivery) (rs : list DownloadRequest) : Prop :=
  Forall (fun d => extends (seen d) rs) ds ∧
  ∀ i j di dj, i <= j → ds !! i = Some di → ds !! j = Some dj →
    extends (seen di) (seen dj).

(** The state after the events [evs], in order. *)
Fixpoint replay (o : NormalizedOptions) (evs : list event) (st : state) : option state :=
  match evs with
  | [] => Some st
  | ev :: evs' =>
      match step o ev st with
      | Some st' => replay o evs' st'
      | None => None
      end
  end.

(** The number of workers that hold a request. *)
Definition held (st : state) : nat := length (omap worker_item (workers st)).

(** The [status] fields of the snapshots delivered so far, oldest first. *)
Definition statuses (st : state) : list ProgressStatus :=
  map (fun d => Progress.status (snapshot d)) (delivered st).

(** The bookkeeping of a batch of [n] requests: the counter [active], and
    how many snapshots were built. *)
Record ledger (o : NormalizedOptions) (n : nat) (st : state) : Prop := mkLedger {
  ledger_active : active st = Z.of_nat (held st);
  ledger_calls :
    if onProgress o
    then length (delivered st) + held st = 1 + 2 * length (dispatched st) ∧
         ∃ k, statuses st = idle :: repeat running k
    else delivered st = [] ∧ length (store st) = n
}.

(** The counters of the later call [d'] are not below those of [d]. *)
Definition counters_le (d d' : delivery) : Prop :=
  Progress.successes (snapshot d) <= Progress.successes (snapshot d') ∧
  Progress.failures (snapshot d) <= Progress.failures (snapshot d') ∧
  Progress.completed (snapshot d) <= Progress.completed (snapshot d').

(** No counter ever goes down along the calls [ds], oldest first. *)
Definition nondecreasing (ds : list delivery) : Prop :=
  ∀ i j di dj, i <= j → ds !! i = Some di → ds !! j = Some dj → counters_le di dj.

(** Events for the samples: both workers are created, the first transfer
    succeeds and its worker goes on to find the queue empty. *)
Definition sample_events : list event :=
  [Launch; Launch; Settle 0 Resolved; Resume 0].

(** Later events: the second transfer fails, is retried, succeeds. *)
Definition sample_later_events : list event :=
  [Settle 1 (Rejected http404); Wake 1; Settle 1 Resolved; Resume 1].

(** A request that was given up without any transfer attempt. *)
Definition never_tried (r : DownloadRequest) : Prop :=
  status r = failed ∧ attempts r = 0%Z ∧ error r = Some "Unknown download error"%string.

(** A worker that awaits a transfer or the timer of a retry. *)
Definition in_retry_engine (wk : worker) : bool :=
  match wk with
  | AwaitingDownloadFile _ _ | AwaitingSleep _ _ _ => true
  | AwaitingRetry _ | Finished => false
  end.

(** ** One transfer: [downloadFile]

    [fetch], the response and the File System Access handles are the
    platform's.  A call of [downloadFile] is run against an [exchange]: how
    each promise of the platform settles if the call gets to it.  The result
    is the list of platform calls made, in order, and how the promise of the
    [async] function settles. *)

(** How a promise settles. *)
Inductive promise (A : Type) :=
  | Fulfilled (a : A)
  | Thrown (e : thrown).
Arguments Fulfilled {A} a.
Arguments Thrown {A} e.

(** What the code uses of a [Response]; the body is the text it holds. *)
Module Http.
Record Response := mkResponse {
  ok : bool;
  status : nat;
  blob : promise string
}.
End Http.

(** How the promises of one call of [downloadFile] settle: that of
    [fetch(url)], and those of [getFileHandle], [createWritable], [write]
    and [close] on the directory. *)
Module Env.
Record exchange := mkExchange {
  fetch : promise Http.Response;
  getFileHandle : promise unit;
  createWritable : promise unit;
  write : promise unit;
  close : promise unit
}.
End Env.

(** The calls of the platform.  [BrowserSave] stands for the body of
    [triggerBrowserSave]: an object URL for the blob, an anchor with that
    [href] and the [download] name, clicked and removed. *)
Inductive io :=
  | Fetch (u : string)
  | ReadBlob
  | GetFileHandle (dir name : string)
  | CreateWritable
  | WriteBlob (b : string)
  | CloseWritable
  | BrowserSave (name : string) (b : string).

#[export] Instance io_eq_dec : EqDecision io.
Proof. solve_decision. Defined.

(** An [async] function run to its end: the calls it made and how its
    promise settles. *)
Record Async (A : Type) := mkAsync {
  trace : list io;
  result : A + thrown
}.
Arguments mkAsync {A} trace result.
Arguments trace {A} a.
Arguments result {A} a.

(** [throw e] *)
Definition throw {A} (e : thrown) : Async A := mkAsync [] (inr e).

(** A synchronous stretch that makes the call [c]. *)
Definition perform (c : io) : Async unit := mkAsync [c] (inl tt).

(** [await p], where [p] is the promise the call [c] returned. *)
Definition await {A} (c : io) (p : promise A) : Async A :=
  mkAsync [c] match p with
              | Fulfilled a => inl a
              | Thrown e => inr e
              end.

(** Sequencing inside an [async] function: a thrown value ends it. *)
Definition andThen {A B} (m : Async A) (k : A → Async B) : Async B :=
  match result m with
  | inl a => mkAsync (trace m ++ trace (k a)) (result (k a))
  | inr e => mkAsync (trace m) (inr e)
  end.

Notation "'let!' x ':=' m 'in' k" := (andThen m (fun x => k))
  (at level 10, x name, m at level 100, k at level 200).

(** Lines 105-114. *)
Definition saveBlobToDirectory (E : Env.exchange) (dir name : string) (b : string)
  : Async unit :=
  let! fileHandle := await (GetFileHandle dir name) (Env.getFileHandle E) in
  let! writable := await CreateWritable (Env.createWritable E) in
  let! _ := await (WriteBlob b) (Env.write E) in
  await CloseWritable (Env.close E).

(** Lines 119-128. *)
Definition triggerBrowserSave (name : string) (b : string) : Async unit :=
  perform (BrowserSave name b).

(** Lines 133-148. *)
Definition downloadFile (E : Env.exchange) (u name : string) (dir : option string)
  : Async unit :=
  let! response := await (Fetch u) (Env.fetch E) in
  if negb (Http.ok response)
  then throw (ErrorObject ("HTTP " ++ decimal (Http.status response)))
  else
    let! b := await ReadBlob (Http.blob response) in
    match dir with
    | Some d => saveBlobToDirectory E d name b
    | None => triggerBrowserSave name b
    end.

(** How the promise of [downloadFile] settles, as [downloadWithRetry] sees it. *)
Definition settle (m : Async unit) : outcome :=
  match result m with
  | inl _ => Resolved
  | inr e => Rejected e
  end.

(** The transfer attempts of one request, one exchange per attempt:
    [downloadFile(request.url, request.filename, directory)] of line 243.
    The retry engine never changes the [url] and the [filename] of the
    request, so they are those of the request it was handed. *)
Definition attempt_of (o : NormalizedOptions) (r : DownloadRequest) (E : Env.exchange)
  : Async unit :=
  downloadFile E (url r) (filename r) (directory o).

Definition attempt_outcomes (o : NormalizedOptions) (r : DownloadRequest)
    (Es : list Env.exchange) : list outcome :=
  map (fun E => settle (attempt_of o r E)) Es.

(** The calls with which a blob [b] is saved under [name]. *)
Definition saved (dir : option string) (name b : string) : list io :=
  match dir with
  | Some d => [GetFileHandle d name; CreateWritable; WriteBlob b; CloseWritable]
  | None => [BrowserSave name b]
  end.

(** An exchange in which the server answers with an error status. *)
Definition http_error (s : nat) : Env.exchange :=
  Env.mkExchange (Fulfilled (Http.mkResponse false s (Fulfilled EmptyString)))
    (Fulfilled tt) (Fulfilled tt) (Fulfilled tt) (Fulfilled tt).

(** An exchange in which everything goes well. *)
Definition http_ok (b : string) : Env.exchange :=
  Env.mkExchange (Fulfilled (Http.mkResponse true 200 (Fulfilled b)))
    (Fulfilled tt) (Fulfilled tt) (Fulfilled tt) (Fulfilled tt).

(** ** The view: [readUrls] of [src/downloadAppView.ts]

    [String.prototype.trim] removes the white space and the line
    terminators at both ends.  Which characters those are is the
    platform's matter: the class is a parameter. *)

Definition newline : ascii := "010"%char.

Section View.
Variable white : ascii → bool.

Fixpoint trimStart (s : string) : string :=
  match s with
  | EmptyString => EmptyString
  | String c s' => if white c then trimStart s' else s
  end.

Fixpoint trimEnd (s : string) : string :=
  match s with
  | EmptyString => EmptyString
  | String c s' =>
      match trimEnd s' with
      | EmptyString => if white c then EmptyString else String c EmptyString
      | t => String c t
      end
  end.

(** [line.trim()] *)
Definition trim (s : string) : string := trimEnd (trimStart s).

(** Lines 49-54: [value.split('\n').map(line => line.trim()).filter(Boolean)]. *)
Definition readUrls (value : string) : list string :=
  List.filter truthy (map trim (split newline value)).

End View.

(** [lines.join(sep)] *)
Fixpoint join (sep : ascii) (lines : list string) : string :=
  match lines with
  | [] => EmptyString
  | [s] => s
  | s :: rest => (s ++ String sep (join sep rest))%string
  end.

Definition first_char (s : string) : option ascii :=
  match s with
  | EmptyString => None
  | String c _ => Some c
  end.

Fixpoint last_char (s : string) : option ascii :=
  match s with
  | EmptyString => None
  | String c EmptyString => Some c
  | String _ s' => last_char s'
  end.

(** A URL as [readUrls] yields them: not empty, no white space at either
    end, all on one line. *)
Definition clean (white : ascii → bool) (u : string) : Prop :=
  truthy u = true ∧ includes newline u = false ∧
  (∀ c, first_char u = Some c → white c = false) ∧
  (∀ c, last_char u = Some c → white c = false).

(** The white space of ASCII. *)
Definition ascii_white (c : ascii) : bool :=
  bool_decide (nat_of_ascii c ∈ [9; 10; 11; 12; 13; 32]).

(** ** The application: [DownloadApp]

    The class that drives [runDownloadTask] from the page, listed after
    the orchestrator in [src/downloadManager.ts].  The view is the
    interface of [DownloadAppView]: the application is modelled with the
    calls it makes on its view, oldest first. *)

Module Ui.
Record UiConfig := mkUiConfig {
  concurrency : Z;
  maxRetries : Z;
  retryDelayMs : Z
}.
End Ui.

Inductive view_call :=
  | RenderMessage (text : string)
  | RenderProgress (snap : option delivery)
  | SetRunningState (running hasRetryableFiles : bool).

Module App.
Record AppState := mkAppState {
  directoryHandle : option string;
  progress : option delivery;
  failedUrls : list string;
  isRunning : bool;
  message : string
}.

Record DownloadApp := mkDownloadApp {
  state : AppState;
  view : list view_call
}.
End App.

Definition set_message (m : string) (a : App.DownloadApp) : App.DownloadApp :=
  let s := App.state a in
  App.mkDownloadApp
    (App.mkAppState (App.directoryHandle s) (App.progress s) (App.failedUrls s)
       (App.isRunning s) m)
    (App.view a).

Definition set_failedUrls (f : list string) (a : App.DownloadApp) : App.DownloadApp :=
  let s := App.state a in
  App.mkDownloadApp
    (App.mkAppState (App.directoryHandle s) (App.progress s) f
       (App.isRunning s) (App.message s))
    (App.view a).

Definition set_progress (p : option delivery) (a : App.DownloadApp) : App.DownloadApp :=
  let s := App.state a in
  App.mkDownloadApp
    (App.mkAppState (App.directoryHandle s) p (App.failedUrls s)
       (App.isRunning s) (App.message s))
    (App.view a).

Definition call_view (c : view_call) (a : App.DownloadApp) : App.DownloadApp :=
  App.mkDownloadApp (App.state a) (App.view a ++ [c]).

(** [renderMessage()] *)
Definition renderMessage (a : App.DownloadApp) : App.DownloadApp :=
  call_view (RenderMessage (App.message (App.state a))) a.

(** [renderProgress(snapshot)] *)
Definition renderProgress (snap : option delivery) (a : App.DownloadApp)
  : App.DownloadApp :=
  call_view (RenderProgress snap) a.

(** [failedUrls.length > 0] *)
Definition hasRetryableFiles (a : App.DownloadApp) : bool :=
  match App.failedUrls (App.state a) with
  | [] => false
  | _ :: _ => true
  end.

(** [setRunningState(running)] *)
Definition setRunningState (running : bool) (a : App.DownloadApp) : App.DownloadApp :=
  let s := App.state a in
  let a1 := App.mkDownloadApp
              (App.mkAppState (App.directoryHandle s) (App.progress s)
                 (App.failedUrls s) running (App.message s))
              (App.view a) in
  call_view (SetRunningState running (hasRetryableFiles a1)) a1.

(** The observer that [startTask] passes as [onProgress]. *)
Definition onSnapshot (a : App.DownloadApp) (snap : delivery) : App.DownloadApp :=
  renderProgress (Some snap) (set_progress (Some snap) a).

(** The options that [startTask] passes to [runDownloadTask]. *)
Definition taskOptions (cfg : Ui.UiConfig) (a : App.DownloadApp)
  : Task.DownloadTaskOptions :=
  Task.mkTaskOptions (Some (Ui.concurrency cfg)) (Some (Ui.maxRetries cfg))
    (Some (Ui.retryDelayMs cfg)) (App.directoryHandle (App.state a)) true.

Definition need_url_text : string := "请至少输入一个有效的 URL".

Definition downloading_text : string := "正在下载...".

Definition done_text (n_successes n_failures : nat) : string :=
  ("下载完成：成功 " ++ decimal n_successes ++ " 个，失败 " ++ decimal n_failures ++ " 个")%string.

(** [error instanceof Error ? `任务失败：${error.message}` : '任务执行失败'] *)
Definition failure_text (e : thrown) : string :=
  match e with
  | ErrorObject m => ("任务失败：" ++ m)%string
  | NonError _ => "任务执行失败"%string
  end.

(** [startTask(urls)], run to its end; [cfg] is what [readConfig()] reads
    off the page and [sched] what the environment of the batch does.  The
    observer only reads the snapshots it is handed, so the writes of an
    observer are taken out of the schedule.  [None]: the batch is still
    pending.  When the promise of [runDownloadTask] is rejected the [catch]
    block of lines 426-429 runs, after the observer has been called with
    the snapshots delivered until then; the [finally] block runs either
    way. *)
Definition startTask (P : platform) (cfg : Ui.UiConfig) (sched : list choice)
    (urls : list string) (a : App.DownloadApp) : option App.DownloadApp :=
  match urls with
  | [] => Some (renderMessage (set_message need_url_text a))
  | _ :: _ =>
      let a1 := setRunningState true a in
      let a2 := renderMessage (set_message downloading_text a1) in
      let a3 := renderProgress None (set_progress None (set_failedUrls [] a2)) in
      match runDownloadTask_ending P urls (taskOptions cfg a3) (strip sched) with
      | Pends => None
      | Returns st res =>
          let a4 := fold_left onSnapshot (delivered st) a3 in
          let a5 := set_failedUrls
                      (map (fun item => url (deref st item)) (Result.failures res)) a4 in
          let a6 := renderMessage
                      (set_message
                         (done_text (length (Result.successes res))
                            (length (Result.failures res))) a5) in
          Some (setRunningState false a6)
      | Throws st e =>
          let a4 := fold_left onSnapshot (delivered st) a3 in
          let a5 := renderMessage (set_message (failure_text e) a4) in
          Some (setRunningState false a5)
      end
  end.

(** The handler of the retry button (lines 327-330). *)
Definition onRetryFailed (P : platform) (cfg : Ui.UiConfig) (sched : list choice)
    (a : App.DownloadApp) : option App.DownloadApp :=
  match App.failedUrls (App.state a) with
  | [] => Some a
  | _ :: _ => startTask P cfg sched (App.failedUrls (App.state a)) a
  end.

(** [parseUrls()], for a view whose text area holds [value]. *)
Definition parseUrls (white : ascii → bool) (value : string) : list string :=
  readUrls white value.

(** The handler of the start button (lines 323-326). *)
Definition onStart (white : ascii → bool) (P : platform) (cfg : Ui.UiConfig)
    (sched : list choice) (value : string) (a : App.DownloadApp)
  : option App.DownloadApp :=
  startTask P cfg sched (parseUrls white value) a.

(** The application after [init()]. *)
Definition sample_app : App.DownloadApp :=
  App.mkDownloadApp (App.mkAppState None None [] false EmptyString) [RenderProgress None].

Definition sample_config : Ui.UiConfig := Ui.mkUiConfig 2 2 100.

(** A page that asks for more workers than an array can have elements. *)
Definition oversized_config : Ui.UiConfig := Ui.mkUiConfig (2 ^ 32) 2 100.

(** A schedule for the two sample URLs in which the first transfer
    succeeds and the second URL is refused three times. *)
Definition sample_failing_schedule : list choice :=
  [Advance 0 Resolved; Advance 0 Resolved; Advance 0 Resolved;
   Advance 1 (Rejected http404); Advance 1 Resolved; Advance 1 (Rejected http404);
   Advance 1 Resolved; Advance 1 (Rejected http404); Advance 0 Resolved;
   Advance 1 Resolved].

(** ** Proof tactics for transfers *)

(** Run [downloadFile] on an exchange whose fields are known. *)
Ltac run_downloadFile :=
  unfold downloadFile, saveBlobToDirectory, triggerBrowserSave, andThen, await,
    perform, throw, settle in *;
  cbn [trace result negb app Http.ok Http.status Http.blob Env.fetch
       Env.getFileHandle Env.createWritable Env.write Env.close saved] in *.

(** Take a membership in a list of known calls apart. *)
Ltac in_trace :=
  repeat match goal with
         | H : _ ∈ _ :: _ |- _ => apply elem_of_cons in H as [H|H]
         | H : _ ∈ [] |- _ => by apply elem_of_nil in H
         end.

(** * Properties *)

(** ** The retry engine *)

Section RetryEngine.
Variable o : NormalizedOptions.

Lemma after_loop_error lc r m :
  error r = Some m → after_loop lc r = set_status failed r.
Proof. destruct r; simpl; intros ->; reflexivity. Qed.

Lemma after_loop_fallback lc r :
  error r = None →
  after_loop lc r = set_error (Some (lastError_message (lastError lc))) (set_status failed r).
Proof. destruct r; simpl; intros ->; reflexivity. Qed.

Lemma loop_head_enter lc r :
  (attempt lc <= maxRetries o)%Z →
  loop_head o lc r = (set_attempts (attempts r + 1)%Z r, Some lc).
Proof.
  intros H. unfold loop_head.
  destruct (Z.leb_spec (attempt lc) (maxRetries o)); [reflexivity | lia].
Qed.

Lemma loop_head_exit lc r :
  (maxRetries o < attempt lc)%Z →
  loop_head o lc r = (after_loop lc r, None).
Proof.
  intros H. unfold loop_head.
  destruct (Z.leb_spec (attempt lc) (maxRetries o)); [lia | reflexivity].
Qed.

Lemma after_downloadFile_retry e lc r :
  (attempt lc < maxRetries o)%Z →
  after_downloadFile o (Rejected e) lc r =
    (set_error (Some (describe e)) r,
     Some (mkLocals (attempt lc + 1)%Z (Some e),
           backoff_ms o (attempt lc + 1))).
Proof.
  intros H. unfold after_downloadFile. simpl.
  by destruct (Z.gtb_spec (attempt lc + 1) (maxRetries o)); [lia |].
Qed.

Lemma after_downloadFile_give_up e lc r :
  (maxRetries o <= attempt lc)%Z →
  after_downloadFile o (Rejected e) lc r =
    (set_status failed (set_error (Some (describe e)) r), None).
Proof.
  intros H. unfold after_downloadFile. simpl.
  destruct (Z.gtb_spec (attempt lc + 1) (maxRetries o)); [| lia].
  by rewrite (after_loop_error _ _ (describe e)).
Qed.

Lemma exit_eq i u f s (a a' : Z) (e e' : option string)
    (t t' : list action) (rest : list outcome) :
  a = a' → e = e' → t = t' →
  Some (mkRequest i u f s a e, t, rest) = Some (mkRequest i u f s a' e', t', rest).
Proof. by intros -> -> ->. Qed.

Lemma retry_loop_cons e es tl lc r :
  retry_loop o (map Rejected (e :: es) ++ tl) lc r =
    match after_downloadFile o (Rejected e) lc r with
    | (r1, None) => Some (r1, [Transfer (Rejected e)], map Rejected es ++ tl)
    | (r1, Some (lc1, ms)) =>
        match loop_head o lc1 r1 with
        | (r2, None) =>
            Some (r2, [Transfer (Rejected e); Sleep ms], map Rejected es ++ tl)
        | (r2, Some lc2) =>
            match retry_loop o (map Rejected es ++ tl) lc2 r2 with
            | Some (r3, acts, rest) =>
                Some (r3, Transfer (Rejected e) :: Sleep ms :: acts, rest)
            | None => None
            end
        end
    end.
Proof. reflexivity. Qed.

(** All remaining attempts are rejected, up to the last allowed one. *)
Lemma retry_loop_rejected es : ∀ k lc r rest,
  es ≠ [] →
  attempt lc = (Z.of_nat k - 1)%Z →
  (Z.of_nat k + Z.of_nat (length es) = maxRetries o + 2)%Z →
  retry_loop o (map Rejected es ++ rest) lc r =
    Some (mkRequest (id r) (url r) (filename r) failed
            (attempts r + Z.of_nat (length es) - 1)%Z (describe <$> list.last es),
          engine_trace o k es, rest).
Proof.
  induction es as [|e es IH]; intros k lc r rest Hne Hlc Hk; [done|].
  destruct es as [|e' es].
  - rewrite retry_loop_cons. cbn [length] in Hk.
    rewrite after_downloadFile_give_up by lia.
    cbn [engine_trace].
    destruct (Z.leb_spec (Z.of_nat k) (maxRetries o)); [lia|].
    destruct r; unfold_setters. apply exit_eq; [simpl; lia | done | done].
  - rewrite retry_loop_cons.
    rewrite after_downloadFile_retry by (simpl in Hk; lia).
    rewrite loop_head_enter by (simpl in *; lia).
    rewrite (IH (S k)); [| done | simpl; lia | simpl in *; lia].
    cbn [engine_trace].
    destruct (Z.leb_spec (Z.of_nat k) (maxRetries o)); [| simpl in Hk; lia].
    rewrite Hlc. replace (Z.of_nat k - 1 + 1)%Z with (Z.of_nat k) by lia.
    destruct r; unfold_setters.
    apply exit_eq; [simpl length; lia | done | done].
Qed.

(** Some attempts are rejected, then one resolves. *)
Lemma retry_loop_resolved es : ∀ k lc r rest,
  attempt lc = (Z.of_nat k - 1)%Z →
  (Z.of_nat k + Z.of_nat (length es) <= maxRetries o + 1)%Z →
  retry_loop o (map Rejected es ++ Resolved :: rest) lc r =
    Some (mkRequest (id r) (url r) (filename r) success
            (attempts r + Z.of_nat (length es))%Z None,
          engine_trace o k es ++ [Transfer Resolved], rest).
Proof.
  induction es as [|e es IH]; intros k lc r rest Hlc Hk.
  - destruct r; unfold_setters. apply exit_eq; [simpl; lia | done | done].
  - rewrite retry_loop_cons.
    rewrite after_downloadFile_retry by (simpl in Hk; lia).
    rewrite loop_head_enter by (simpl in *; lia).
    rewrite (IH (S k)); [| simpl; lia | simpl in *; lia].
    cbn [engine_trace].
    destruct (Z.leb_spec (Z.of_nat k) (maxRetries o)); [| simpl in Hk; lia].
    rewrite Hlc. replace (Z.of_nat k - 1 + 1)%Z with (Z.of_nat k) by lia.
    destruct r; unfold_setters.
    apply exit_eq; [simpl length; lia | done | done].
Qed.



Lemma transfers_cons_transfer res acts :
  transfers (Transfer res :: acts) = S (transfers acts).
Proof. reflexivity. Qed.

Lemma transfers_nil : transfers [] = 0%nat.
Proof. reflexivity. Qed.

Lemma transfers_cons_sleep ms acts : transfers (Sleep ms :: acts) = transfers acts.
Proof. reflexivity. Qed.

Lemma last_transfer acts res :
  list.last acts = Some (Transfer res) → (1 <= transfers acts)%nat.
Proof.
  induction acts as [|a acts IH]; [done|]. intros H.
  destruct a; [rewrite transfers_cons_transfer; lia|].
  rewrite transfers_cons_sleep. apply IH.
  destruct acts; [done|]. exact H.
Qed.

(** However the attempts turn out, an activation that returns has either
    given up after the last allowed attempt or seen an attempt resolve. *)
Lemma retry_loop_exit outs : ∀ lc r r' acts rest,
  retry_loop o outs lc r = Some (r', acts, rest) →
  (attempt lc <= maxRetries o)%Z →
  attempts r' = (attempts r + Z.of_nat (transfers acts) - 1)%Z ∧
  ((status r' = failed ∧
    (attempt lc + Z.of_nat (transfers acts) = maxRetries o + 1)%Z ∧
    ∃ e, list.last acts = Some (Transfer (Rejected e)) ∧ error r' = Some (describe e))
   ∨ (status r' = success ∧ error r' = None ∧
      list.last acts = Some (Transfer Resolved) ∧
      (attempt lc + Z.of_nat (transfers acts) <= maxRetries o + 1)%Z)).
Proof.
  induction outs as [|res outs IH]; intros lc r r' acts rest Hrun Hle; [done|].
  cbn [retry_loop] in Hrun. destruct res as [|e].
  - simpl in Hrun. injection Hrun as <- <- <-.
    unfold_setters. rewrite transfers_cons_transfer, transfers_nil. split; [lia|].
    right. repeat split; first [done | lia].
  - destruct (decide (attempt lc < maxRetries o)%Z) as [Hlt|Hge].
    + rewrite after_downloadFile_retry in Hrun by done.
      rewrite loop_head_enter in Hrun by (simpl; lia).
      destruct (retry_loop o outs _ _) as [[[r3 acts3] rest3]|] eqn:Hrec; [|done].
      injection Hrun as <- <- <-.
      apply IH in Hrec; [| simpl; lia].
      destruct Hrec as [Ha Hcases]. unfold_setters. cbn [attempt] in Hcases.
      rewrite transfers_cons_transfer, transfers_cons_sleep.
      split; [lia|].
      destruct Hcases as [(Hs & Hm & e' & Hl & He)|(Hs & He & Hl & Hm)].
      * left. split; [done|]. split; [lia|]. exists e'. split; [|done].
        destruct acts3; [done|]. done.
      * right. split; [done|]. split; [done|]. split; [|lia].
        destruct acts3; [done|]. done.
    + rewrite after_downloadFile_give_up in Hrun by lia.
      injection Hrun as <- <- <-. unfold_setters.
      rewrite transfers_cons_transfer, transfers_nil. split; [lia|].
      left. split; [done|]. split; [lia|]. by exists e.
Qed.

Lemma downloadWithRetry_enter outs r :
  (0 <= maxRetries o)%Z →
  downloadWithRetry o outs r =
    retry_loop o outs fresh_locals (set_attempts (attempts r + 1)%Z r).
Proof.
  intros HM. unfold downloadWithRetry. by rewrite loop_head_enter.
Qed.

(** With no attempt allowed the activation gives up at once, and only then
    does the generic message appear. *)
Lemma downloadWithRetry_no_attempt outs r :
  (maxRetries o < 0)%Z → error r = None →
  downloadWithRetry o outs r =
    Some (set_error (Some "Unknown download error"%string) (set_status failed r), [], outs).
Proof.
  intros HM He. unfold downloadWithRetry.
  rewrite loop_head_exit by done. by rewrite after_loop_fallback.
Qed.

(** C2: with [maxRetries >= 0], a request handed to the retry engine with
    no attempt made yet leaves it as follows.  If all [maxRetries + 1]
    attempts are rejected it is [failed] with [attempts = maxRetries + 1].
    If the k-th attempt resolves after k-1 rejections, 1 <= k <=
    [maxRetries + 1], it is [success] with [attempts = k] and no [error].
    And whenever the engine returns, [attempts] is the number of transfer
    attempts it made, a [failed] exit has [attempts = maxRetries + 1], and a
    [success] exit has no [error] and a resolved last attempt. *)
Theorem downloadWithRetry_attempts r :
  (0 <= maxRetries o)%Z → attempts r = 0%Z →
  (∀ es rest, Z.of_nat (length es) = (maxRetries o + 1)%Z →
     ∃ r' acts, downloadWithRetry o (map Rejected es ++ rest) r = Some (r', acts, rest) ∧
       status r' = failed ∧ attempts r' = (maxRetries o + 1)%Z) ∧
  (∀ (k : Z) es rest, (1 <= k <= maxRetries o + 1)%Z → Z.of_nat (length es) = (k - 1)%Z →
     ∃ r' acts, downloadWithRetry o (map Rejected es ++ Resolved :: rest) r = Some (r', acts, rest) ∧
       status r' = success ∧ attempts r' = k ∧ error r' = None) ∧
  (∀ outs r' acts rest, downloadWithRetry o outs r = Some (r', acts, rest) →
     attempts r' = Z.of_nat (transfers acts) ∧
     (status r' = failed → attempts r' = (maxRetries o + 1)%Z) ∧
     (status r' = success →
        error r' = None ∧ list.last acts = Some (Transfer Resolved) ∧
        (1 <= attempts r' <= maxRetries o + 1)%Z)).
Proof.
  intros HM H0. split; [|split].
  - intros es rest Hlen. rewrite downloadWithRetry_enter by done.
    rewrite (retry_loop_rejected es 1%nat); [| by destruct es; [simpl in Hlen; lia|] | done | lia].
    eexists _, _. split; [reflexivity|]. unfold_setters. split; [done|]. lia.
  - intros k es rest Hk Hlen. rewrite downloadWithRetry_enter by done.
    rewrite (retry_loop_resolved es 1%nat); [| done | lia].
    eexists _, _. split; [reflexivity|]. unfold_setters. split; [done|]. split; [lia|done].
  - intros outs r' acts rest Hrun. rewrite downloadWithRetry_enter in Hrun by done.
    apply retry_loop_exit in Hrun; [| simpl; lia].
    destruct Hrun as [Ha Hcases]. unfold_setters. cbn [attempt fresh_locals] in Hcases.
    split; [lia|].
    assert (1 <= transfers acts)%nat.
    { destruct Hcases as [(_ & _ & e & Hl & _)|(_ & _ & Hl & _)];
        by eapply last_transfer. }
    destruct Hcases as [(Hs & Hm & _)|(Hs & He & Hl & Hm)].
    + split; [intros _; lia|]. rewrite Hs. done.
    + split; [rewrite Hs; done|]. intros _. repeat split; first [done | lia].
Qed.


(** C10: with [maxRetries >= 0], a request that fails for good leaves the
    engine with [error] set to the message of the error of its last
    attempt, the one numbered [maxRetries + 1].  The [catch] block has stored
    that message before the loop is left, so that the exit record is the
    stored one marked [failed] and the generic message is not used. *)
Theorem downloadWithRetry_error r :
  (0 <= maxRetries o)%Z →
  (∀ es e rest, Z.of_nat (length es) = maxRetries o →
     ∃ r' acts, downloadWithRetry o (map Rejected (es ++ [e]) ++ rest) r = Some (r', acts, rest) ∧
       status r' = failed ∧ error r' = Some (describe e)) ∧
  (∀ outs r' acts rest, downloadWithRetry o outs r = Some (r', acts, rest) →
     status r' = failed →
     ∃ e, list.last acts = Some (Transfer (Rejected e)) ∧ error r' = Some (describe e)) ∧
  (∀ e lc r0, (maxRetries o <= attempt lc)%Z →
     after_downloadFile o (Rejected e) lc r0 =
       (set_status failed (set_error (Some (describe e)) r0), None)).
Proof.
  intros HM. split; [|split].
  - intros es e rest Hlen. rewrite downloadWithRetry_enter by done.
    rewrite (retry_loop_rejected (es ++ [e]) 1%nat);
      [| by destruct es | done | rewrite length_app; simpl; lia].
    eexists _, _. split; [reflexivity|]. cbn [status error].
    by rewrite last_snoc.
  - intros outs r' acts rest Hrun Hs.
    rewrite downloadWithRetry_enter in Hrun by done.
    apply retry_loop_exit in Hrun; [| simpl; lia].
    destruct Hrun as [_ [(_ & _ & e & Hl & He)|(Hs' & _)]]; [by exists e | congruence].
  - intros e lc r0 Hle. by apply after_downloadFile_give_up.
Qed.

End RetryEngine.

Lemma downloadWithRetry_attempts_witness :
  ∃ r' acts,
    downloadWithRetry sample_options (map Rejected [http404; http404; http404] ++ [])
      sample_request = Some (r', acts, []) ∧
    status r' = failed ∧ attempts r' = 3%Z.
Proof.
  apply (proj1 (downloadWithRetry_attempts sample_options sample_request
                  ltac:(simpl; lia) eq_refl)).
  reflexivity.
Defined.



Lemma downloadWithRetry_error_witness :
  ∃ r' acts,
    downloadWithRetry sample_options
      (map Rejected ([NonError "offline"; http404] ++ [http404]) ++ [])
      sample_request = Some (r', acts, []) ∧
    status r' = failed ∧ error r' = Some "HTTP 404"%string.
Proof.
  apply (proj1 (downloadWithRetry_error sample_options sample_request
                  ltac:(simpl; lia))).
  reflexivity.
Defined.

(** ** Filename inference *)

Lemma string_app_nil_l (b : string) : (EmptyString ++ b)%string = b.
Proof. reflexivity. Qed.

Lemma string_app_cons c (a b : string) :
  (String c a ++ b)%string = String c (a ++ b)%string.
Proof. reflexivity. Qed.

Lemma string_app_assoc (a b c : string) :
  ((a ++ b) ++ c)%string = (a ++ (b ++ c))%string.
Proof.
  induction a as [|x a IH]; [done|].
  by rewrite !string_app_cons, IH.
Qed.

Lemma string_app_nil_r (a : string) : (a ++ EmptyString)%string = a.
Proof.
  induction a as [|x a IH]; [done|].
  by rewrite string_app_cons, IH.
Qed.

Lemma split_not_nil sep s : split sep s ≠ [].
Proof.
  destruct s as [|c s]; simpl; [done|].
  destruct (Ascii.eqb c sep); [done|]. by destruct (split sep s).
Qed.

Lemma split_app_sep sep a b :
  split sep (a ++ String sep b) = split sep a ++ split sep b.
Proof.
  induction a as [|c a IH].
  - rewrite string_app_nil_l. simpl. by rewrite Ascii.eqb_refl.
  - rewrite string_app_cons. simpl.
    destruct (Ascii.eqb c sep); [by rewrite IH|].
    rewrite IH. pose proof (split_not_nil sep a).
    by destruct (split sep a).
Qed.

Lemma split_no_sep sep s : includes sep s = false → split sep s = [s].
Proof.
  induction s as [|c s IH]; simpl; [done|].
  intros [Hc Hs]%orb_false_iff. rewrite Hc. by rewrite IH.
Qed.

Lemma split_all_slashes s :
  all_slashes s = true → List.filter truthy (split "/" s) = [].
Proof.
  induction s as [|c s IH]; simpl; [done|].
  intros [Hc Hs]%andb_true_iff. rewrite Hc. simpl. by apply IH.
Qed.

Lemma last_segment_found pathname s :
  last_segment pathname s →
  list.last (List.filter truthy (split "/" pathname)) = Some s.
Proof.
  intros (Hs & Hns & pre & post & -> & Hpost & Hpre).
  assert (list.last (List.filter truthy (split "/" (pre ++ s))) = Some s) as Hcore.
  { destruct Hpre as [->|[pre' ->]].
    - rewrite string_app_nil_l, split_no_sep by done. simpl. by rewrite Hs.
    - rewrite string_app_assoc, string_app_cons, string_app_nil_l.
      rewrite split_app_sep, filter_app.
      rewrite (split_no_sep "/" s) by done. simpl. rewrite Hs. apply last_snoc. }
  destruct post as [|c post].
  - by rewrite string_app_nil_r.
  - simpl in Hpost. apply andb_true_iff in Hpost as [Hc%Ascii.eqb_eq Hpost]. subst c.
    rewrite <- string_app_assoc, split_app_sep, filter_app.
    rewrite (split_all_slashes post) by done. by rewrite app_nil_r.
Qed.

(** C7: the filename inferred for a URL at 0-based [index].  It is the last
    non-empty segment of the parsed URL's path when that segment contains a
    dot; it is [download-(index+1).jpg] when that segment has no dot, when
    the path has no non-empty segment, and when the URL does not parse.  For
    a parser that reads the path [/b/c.png] off [https://a/b/c.png] the name
    is [c.png], and for one that reads [/b/] off [https://a/b/] the name at
    index 2 is [download-3.jpg]. *)
Theorem inferFilename_spec P u index :
  (∀ p s, parseURL P u = Some p → last_segment p s → includes "." s = true →
     inferFilename P u index = s) ∧
  (∀ p s, parseURL P u = Some p → last_segment p s → includes "." s = false →
     inferFilename P u index = ("download-" ++ decimal (index + 1) ++ ".jpg")%string) ∧
  (∀ p, parseURL P u = Some p → all_slashes p = true →
     inferFilename P u index = ("download-" ++ decimal (index + 1) ++ ".jpg")%string) ∧
  (parseURL P u = None →
     inferFilename P u index = ("download-" ++ decimal (index + 1) ++ ".jpg")%string) ∧
  (parseURL P "https://a/b/c.png" = Some "/b/c.png"%string →
     inferFilename P "https://a/b/c.png" index = "c.png"%string) ∧
  (parseURL P "https://a/b/" = Some "/b/"%string →
     inferFilename P "https://a/b/" 2 = "download-3.jpg"%string).
Proof.
  unfold inferFilename. repeat split.
  - intros p s -> Hseg Hdot. rewrite (last_segment_found p s Hseg).
    destruct Hseg as [-> _]. by rewrite Hdot.
  - intros p s -> Hseg Hdot. rewrite (last_segment_found p s Hseg).
    destruct Hseg as [-> _]. by rewrite Hdot.
  - intros p -> Hp. by rewrite split_all_slashes.
  - by intros ->.
  - by intros ->.
  - by intros ->.
Qed.

Lemma inferFilename_spec_witness :
  inferFilename sample_platform "https://a/b/c.png" 0 = "c.png"%string ∧
  inferFilename sample_platform "https://a/b/" 2 = "download-3.jpg"%string ∧
  inferFilename sample_platform "not a url" 6 = "download-7.jpg"%string.
Proof.
  split; [|split].
  - apply (proj1 (inferFilename_spec sample_platform "https://a/b/c.png" 0)
             "/b/c.png"%string "c.png"%string); [reflexivity | | reflexivity].
    split; [reflexivity|]. split; [reflexivity|].
    exists "/b/"%string, EmptyString. split; [reflexivity|]. split; [reflexivity|].
    right. by exists "/b"%string.
  - apply (inferFilename_spec sample_platform "https://a/b/" 2). reflexivity.
  - apply (inferFilename_spec sample_platform "not a url" 6). reflexivity.
Defined.

(** ** The progress publisher *)

Lemma filter_status_le (rs : list DownloadRequest) :
  length (filter (has_status success) rs) + length (filter (has_status failed) rs)
    <= length rs.
Proof.
  induction rs as [|r rs IH]; [done|].
  rewrite !filter_cons.
  repeat case_decide; unfold has_status in *; simpl; try lia; congruence.
Qed.

Lemma length_live st : length (live st) = length (requests st).
Proof. unfold live. by rewrite length_map. Qed.

Lemma state_eta st :
  st = mkState (store st ++ []) (requests st) (queue st) (active st) (unlaunched st)
         (workers st) (delivered st ++ []) (dispatched st).
Proof. destruct st; simpl. by rewrite !app_nil_r. Qed.

(** All that [updateProgress] does: it may allocate and may call the
    observer once, with a snapshot whose entries are newly allocated. *)
Lemma updateProgress_spec ps o st :
  ∃ ext news,
    updateProgress ps o st =
      mkState (store st ++ ext) (requests st) (queue st) (active st) (unlaunched st)
        (workers st) (delivered st ++ news) (dispatched st) ∧
    Forall (delivery_ok (length (requests st))) news ∧
    (∀ l, l ∈ concat (map (fun d => Progress.entries (snapshot d)) news) →
          length (store st) <= l < length (store st ++ ext)) ∧
    Forall (fun d => seen d = live st) news ∧
    (onProgress o = false → news = []) ∧
    (onProgress o = true → ∃ snap,
        news = [mkDelivery snap (live st)] ∧ Progress.status snap = ps ∧
        Progress.entries snap = seq (length (store st)) (length (requests st)) ∧
        ext = live st).
Proof.
  unfold updateProgress. destruct (onProgress o).
  - eexists (live st), [_]. split; [reflexivity|]. split; [|split; [|split; [|split]]].
    + apply Forall_singleton. unfold delivery_ok. simpl.
      rewrite !length_seq, !length_live. repeat split; try done.
      pose proof (filter_status_le (live st)). rewrite length_live in *. lia.
    + intros l. simpl. rewrite app_nil_r, elem_of_seq, length_app. lia.
    + by apply Forall_singleton.
    + done.
    + intros _. eexists. split; [reflexivity|]. simpl. by rewrite length_live.
  - exists [], []. split; [apply state_eta|]. split; [done|]. split; [|split; [|split]].
    + simpl. intros l Hl. by apply elem_of_nil in Hl.
    + done.
    + done.
    + done.
Qed.

(** ** The worker pool *)

Lemma processNext_nil o st : queue st = [] → processNext o st = (st, Finished).
Proof. unfold processNext. by intros ->. Qed.

(** All that a call of [processNext] does when the queue is not empty. *)
Lemma processNext_cons o st item rest :
  queue st = item :: rest → item < length (store st) →
  ∃ ext news,
    processNext o st =
      (mkState
         (<[item := fst (loop_head o fresh_locals (set_status downloading (deref st item)))]>
            (store st) ++ ext)
         (requests st) rest (active st + 1)%Z (unlaunched st) (workers st)
         (delivered st ++ news) (dispatched st ++ [item]),
       match snd (loop_head o fresh_locals (set_status downloading (deref st item))) with
       | Some lc => AwaitingDownloadFile item lc
       | None => AwaitingRetry item
       end) ∧
    Forall (delivery_ok (length (requests st))) news ∧
    (∀ l, l ∈ concat (map (fun d => Progress.entries (snapshot d)) news) →
          length (store st) <= l < length (store st) + length ext) ∧
    Forall (fun d => seen d = live (write item (set_status downloading (deref st item)) st))
      news.
Proof.
  intros Hq Hitem. unfold processNext. rewrite Hq.
  set (st3 := write item _ _).
  destruct (updateProgress_spec running o st3)
    as (ext & news & -> & Hnews & Hlocs & Hseen & _).
  exists ext, news. split; [|split; [|split]].
  - subst st3. simpl_state.
    rewrite lookup_total_app_l by (by rewrite length_insert).
    rewrite list_lookup_total_insert_eq by done.
    destruct (loop_head o fresh_locals (set_status downloading (store st !!! item)))
      as [r k].
    cbn [fst snd].
    rewrite insert_app_l by (by rewrite length_insert).
    by rewrite list_insert_insert_eq.
  - exact Hnews.
  - intros l Hl. apply Hlocs in Hl. subst st3. simpl_state.
    rewrite length_app, length_insert in Hl. lia.
  - exact Hseen.
Qed.

Lemma processNext_workers o st : workers (fst (processNext o st)) = workers st.
Proof.
  unfold processNext, updateProgress. destruct (queue st); [done|].
  simpl_state. destruct (onProgress o); simpl_state; by destruct (loop_head _ _ _).
Qed.

Lemma processNext_unlaunched o st : unlaunched (fst (processNext o st)) = unlaunched st.
Proof.
  unfold processNext, updateProgress. destruct (queue st); [done|].
  simpl_state. destruct (onProgress o); simpl_state; by destruct (loop_head _ _ _).
Qed.

(** ** The size of the pool *)

Lemma updateProgress_workers ps o st : workers (updateProgress ps o st) = workers st.
Proof. unfold updateProgress. by destruct (onProgress o). Qed.

Lemma updateProgress_unlaunched ps o st :
  unlaunched (updateProgress ps o st) = unlaunched st.
Proof. unfold updateProgress. by destruct (onProgress o). Qed.

Lemma after_downloadWithRetry_workers o st :
  workers (fst (after_downloadWithRetry o st)) = workers st.
Proof.
  unfold after_downloadWithRetry.
  set (st2 := set_active _ _).
  assert (workers st2 = workers st) as <- by apply updateProgress_workers.
  destruct (queue st2); [done|]. apply processNext_workers.
Qed.

Lemma after_downloadWithRetry_unlaunched o st :
  unlaunched (fst (after_downloadWithRetry o st)) = unlaunched st.
Proof.
  unfold after_downloadWithRetry.
  set (st2 := set_active _ _).
  assert (unlaunched st2 = unlaunched st) as <- by apply updateProgress_unlaunched.
  destruct (queue st2); [done|]. apply processNext_unlaunched.
Qed.

Lemma pool_step o ev st st' :
  step o ev st = Some st' →
  length (workers st') + unlaunched st' = length (workers st) + unlaunched st.
Proof.
  intros Hstep. destruct ev as [|w res|w|w|l r]; cbn [step] in Hstep.
  - destruct (unlaunched st) as [|n] eqn:Hn; [done|].
    pose proof (processNext_workers o (set_unlaunched n st)) as Hws.
    pose proof (processNext_unlaunched o (set_unlaunched n st)) as Hun.
    destruct (processNext o (set_unlaunched n st)) as [st1 wk].
    injection Hstep as <-. simpl_state. cbn [fst] in *.
    rewrite length_app, Hws, Hun. simpl. lia.
  - destruct (workers st !! w) as [[item lc| | |]|]; try done.
    destruct (launched st); [|done].
    destruct (after_downloadFile _ _ _ _) as [r [[lc1 ms]|]];
      injection Hstep as <-; simpl_state; by rewrite length_insert.
  - destruct (workers st !! w) as [[|item lc ms| |]|]; try done.
    destruct (launched st); [|done].
    destruct (loop_head _ _ _) as [r [lc1|]];
      injection Hstep as <-; simpl_state; by rewrite length_insert.
  - destruct (workers st !! w) as [[| |item|]|]; try done.
    destruct (launched st); [|done].
    pose proof (after_downloadWithRetry_workers o st) as Hws.
    pose proof (after_downloadWithRetry_unlaunched o st) as Hun.
    destruct (after_downloadWithRetry o st) as [st1 wk].
    injection Hstep as <-. simpl_state. cbn [fst] in *.
    by rewrite length_insert, Hws, Hun.
  - case_bool_decide; [|done]. by injection Hstep as <-.
Qed.

Lemma start_pool P o urls :
  workers (start P o urls) = [] ∧ unlaunched (start P o urls) = pool_size o.
Proof. unfold start. simpl_state. by rewrite updateProgress_workers. Qed.

Lemma pool_size_small o :
  (concurrency o < 2 ^ 32)%Z → pool_size o = Z.to_nat (concurrency o).
Proof.
  intros Hc. unfold pool_size, array_length.
  by destruct (Z.ltb_spec (concurrency o) (2 ^ 32)); [|lia].
Qed.

Lemma pool_size_large o : (2 ^ 32 <= concurrency o)%Z → pool_size o = 0.
Proof.
  intros Hc. unfold pool_size, array_length.
  by destruct (Z.ltb_spec (concurrency o) (2 ^ 32)); [lia|].
Qed.

Lemma pool_size_pos o : (1 <= concurrency o < 2 ^ 32)%Z → 0 < pool_size o.
Proof. intros Hc. rewrite pool_size_small by lia. lia. Qed.

Lemma pool_size_le o : (0 <= concurrency o)%Z → (Z.of_nat (pool_size o) <= concurrency o)%Z.
Proof.
  intros Hc. unfold pool_size, array_length.
  destruct (Z.ltb_spec (concurrency o) (2 ^ 32)); simpl; lia.
Qed.

(** A call that returns has made its pool and run it to the end. *)
Lemma runDownloadTask_Some P urls options sched st res :
  urls ≠ [] → runDownloadTask P urls options sched = Some (st, res) →
  (concurrency (mergeOptions options) < 2 ^ 32)%Z ∧
  ∃ st0, run (mergeOptions options) sched (start P (mergeOptions options) urls) = Some st0 ∧
    st = fst (finish (mergeOptions options) st0) ∧
    res = snd (finish (mergeOptions options) st0).
Proof.
  intros Hne Hrun. unfold runDownloadTask, runDownloadTask_ending in Hrun.
  destruct urls as [|u0 urls0]; [done|]. cbv zeta in Hrun.
  unfold array_length in Hrun.
  destruct (Z.ltb_spec (concurrency (mergeOptions options)) (2 ^ 32)); [|done].
  split; [done|].
  destruct (run _ sched _) as [st0|]; [|done].
  exists st0. by injection Hrun as <- <-.
Qed.

(** With a pool that can be made, the call returns when its run ends. *)
Lemma runDownloadTask_run P urls options sched st0 :
  urls ≠ [] → (concurrency (mergeOptions options) < 2 ^ 32)%Z →
  run (mergeOptions options) sched (start P (mergeOptions options) urls) = Some st0 →
  runDownloadTask P urls options sched =
    Some (fst (finish (mergeOptions options) st0), snd (finish (mergeOptions options) st0)).
Proof.
  intros Hne Hc Hrun. unfold runDownloadTask, runDownloadTask_ending.
  destruct urls as [|u0 urls0]; [done|]. cbv zeta.
  unfold array_length.
  destruct (Z.ltb_spec (concurrency (mergeOptions options)) (2 ^ 32)); [|lia].
  by rewrite Hrun.
Qed.

Lemma reachable_pool P o urls st :
  reachable P o urls st →
  length (workers st) + unlaunched st = pool_size o.
Proof.
  induction 1 as [|st ev st' _ IH Hstep].
  - by destruct (start_pool P o urls) as [-> ->].
  - apply pool_step in Hstep. lia.
Qed.

(** ** Frame properties of the store *)

Lemma store_other (s : list DownloadRequest) x r ext l :
  l < length s → l ≠ x → (<[x := r]> s ++ ext) !!! l = s !!! l.
Proof.
  intros Hl Hne. rewrite lookup_total_app_l by (by rewrite length_insert).
  by rewrite list_lookup_total_insert_ne.
Qed.

Lemma store_same (s : list DownloadRequest) x r ext :
  x < length s → (<[x := r]> s ++ ext) !!! x = r.
Proof.
  intros Hx. rewrite lookup_total_app_l by (by rewrite length_insert).
  by rewrite list_lookup_total_insert_eq.
Qed.

Lemma store_grow (s : list DownloadRequest) ext l :
  l < length s → (s ++ ext) !!! l = s !!! l.
Proof. intros Hl. by rewrite lookup_total_app_l. Qed.

Lemma worker_ok_frame o st st' wk :
  worker_ok o st wk →
  (∀ item, worker_item wk = Some item →
     item < length (dispatched st) → deref st' item = deref st item) →
  length (dispatched st) <= length (dispatched st') →
  (queue st = [] → queue st' = []) →
  worker_ok o st' wk.
Proof.
  intros Hok Hsame Hd Hq. destruct wk as [item lc|item lc ms|item|]; simpl in *.
  - destruct Hok as (Hi & Hs & Ha & Hn). rewrite Hsame by done. repeat split; (done || lia).
  - destruct Hok as (Hi & Hs & Ha & Hn & Hms & He). rewrite Hsame by done.
    repeat split; (done || lia).
  - destruct Hok as (Hi & Hs). rewrite Hsame by done. split; [lia | done].
  - by apply Hq.
Qed.

Lemma record_ok_frame P o st st' l u :
  record_ok P o st l u →
  deref st' l = deref st l →
  length (dispatched st) <= length (dispatched st') →
  (length (dispatched st) <= l → length (dispatched st') <= l) →
  (∀ w wk, workers st !! w = Some wk → busy_item wk = Some l →
     ∃ w' wk', workers st' !! w' = Some wk' ∧ busy_item wk' = Some l) →
  record_ok P o st' l u.
Proof.
  unfold record_ok. intros (Hid & Hurl & Hname & Hst) Hsame Hd Hq Hw.
  rewrite Hsame. repeat split; try done.
  destruct (status (deref st l)).
  - destruct Hst as (? & ? & ?). repeat split; [by apply Hq | done | done].
  - destruct Hst as (? & w & wk & ? & ?). split; [lia|]. by eapply Hw.
  - destruct Hst. split; [lia | done].
  - destruct Hst. split; [lia | done].
Qed.

(** ** Counting the requests in the downloading phase *)

Lemma length_filter_map {A B} (P : B → Prop) `{!∀ y, Decision (P y)}
    (f : A → B) (l : list A) :
  length (filter P (map f l)) = length (filter (fun x => P (f x)) l).
Proof.
  induction l as [|x l IH]; [done|]. simpl map.
  rewrite !filter_cons. destruct (decide (P (f x))); simpl; by rewrite IH.
Qed.

Lemma length_omap_le {A B} (f : A → option B) (l : list A) :
  length (omap f l) <= length l.
Proof.
  induction l as [|x l IH]; [done|]. csimpl. destruct (f x); simpl; lia.
Qed.

Lemma length_omap_lt {A B} (f : A → option B) (l : list A) i x :
  l !! i = Some x → f x = None → length (omap f l) < length l.
Proof.
  revert i. induction l as [|y l IH]; intros i Hi Hx; [done|].
  destruct i as [|i]; csimpl in *.
  - injection Hi as ->. rewrite Hx. pose proof (length_omap_le f l). lia.
  - specialize (IH _ Hi Hx). destruct (f y); simpl; lia.
Qed.

Lemma length_filter_insert_le {A} (P : A → Prop) `{!∀ y, Decision (P y)}
    (l : list A) i x :
  length (filter P (<[i := x]> l)) <= S (length (filter P l)).
Proof.
  revert i. induction l as [|y l IH]; intros i; [simpl; lia|].
  destruct i as [|i]; simpl.
  - rewrite !filter_cons. destruct (decide (P x)), (decide (P y)); simpl; lia.
  - rewrite !filter_cons. specialize (IH i).
    destruct (decide (P y)); simpl; lia.
Qed.

(** The live records are the first records of the store. *)
Lemma live_write st item r n :
  requests st = seq 0 n → item < n → n <= length (store st) →
  live (write item r st) = <[item := r]> (live st).
Proof.
  intros Hreq Hitem Hn. unfold live. simpl_state. rewrite Hreq.
  change (map ?f ?l) with (f <$> l).
  apply list_eq. intros i. rewrite list_lookup_fmap.
  destruct (decide (i < n)) as [Hi|Hi].
  - rewrite lookup_seq_lt by done. simpl.
    destruct (decide (i = item)) as [->|Hne].
    + rewrite list_lookup_insert_eq by (by rewrite length_fmap, length_seq).
      by rewrite list_lookup_total_insert_eq by lia.
    + rewrite list_lookup_insert_ne by done.
      rewrite list_lookup_fmap, lookup_seq_lt by done. simpl.
      by rewrite list_lookup_total_insert_ne.
  - rewrite lookup_seq_ge by lia. simpl. symmetry.
    apply lookup_ge_None_2. rewrite length_insert, length_fmap, length_seq. lia.
Qed.

(** Every request in the downloading phase is held by a worker that is
    inside [downloadWithRetry]. *)
Lemma downloading_count_busy (P : platform) (o : NormalizedOptions)
    (urls : list string) st :
  requests st = seq 0 (length urls) →
  (∀ l u, urls !! l = Some u → record_ok P o st l u) →
  downloading_count (live st) <= length (omap busy_item (workers st)).
Proof.
  intros Hreq Hrec. unfold downloading_count, live.
  rewrite length_filter_map.
  apply submseteq_length, NoDup_submseteq.
  - apply list.NoDup_filter. rewrite Hreq. apply NoDup_seq.
  - intros l [Hs Hl]%list_elem_of_filter.
    rewrite Hreq, elem_of_seq in Hl.
    destruct (lookup_lt_is_Some_2 urls l ltac:(lia)) as [u Hu].
    destruct (Hrec _ _ Hu) as (_ & _ & _ & Hst).
    unfold has_status in Hs. rewrite Hs in Hst.
    destruct Hst as (_ & w & wk & Hw & Hb).
    apply list_elem_of_omap. exists wk. split; [|done].
    by eapply list_elem_of_lookup_2.
Qed.

Lemma downloading_count_pool P o urls st :
  invariant P o urls st → downloading_count (live st) <= pool_size o.
Proof.
  intros Hinv.
  pose proof (downloading_count_busy P o urls st
                (inv_requests _ _ _ _ Hinv) (inv_records _ _ _ _ Hinv)).
  pose proof (length_omap_le busy_item (workers st)).
  pose proof (inv_pool _ _ _ _ Hinv). lia.
Qed.

(** ** The invariant is kept by every event *)

Lemma observer_locs_app st news :
  concat (map (fun d => Progress.entries (snapshot d)) (delivered st ++ news)) =
  observer_locs st ++ concat (map (fun d => Progress.entries (snapshot d)) news).
Proof. unfold observer_locs. by rewrite map_app, concat_app. Qed.

(** Allocation and calls of the observer do not disturb it. *)
Lemma invariant_extend P o urls st ext news a n :
  invariant P o urls st →
  Forall (delivery_ok (length urls)) news →
  (∀ l, l ∈ concat (map (fun d => Progress.entries (snapshot d)) news) →
        length (store st) <= l < length (store st ++ ext)) →
  Forall (fun d => downloading_count (seen d) <= pool_size o) news →
  length (workers st) + n <= pool_size o →
  invariant P o urls
    (mkState (store st ++ ext) (requests st) (queue st) a n (workers st)
       (delivered st ++ news) (dispatched st)).
Proof.
  intros [Hreq Hsto Hdis Hque Hle Hpool Hwk Hdist Hrec Hobs Hdel Hseen] Hnews Hlocs Hbound Hn.
  assert (∀ l, l < length (dispatched st) →
               (store st ++ ext) !!! l = store st !!! l) as Hsame.
  { intros l Hl. apply store_grow. lia. }
  split; simpl_state; try done.
  - rewrite length_app. lia.
  - intros w wk Hw. eapply worker_ok_frame; [by eapply Hwk | | done | done].
    intros item _ Hi. by apply Hsame.
  - intros l u Hu. eapply record_ok_frame; [by apply Hrec | | done | done | by eauto].
    simpl_state. apply store_grow. apply lookup_lt_Some in Hu. lia.
  - intros l. unfold observer_locs. cbn [delivered].
    rewrite observer_locs_app, elem_of_app. intros [Hl|Hl].
    + apply Hobs in Hl. rewrite length_app. lia.
    + apply Hlocs in Hl. lia.
  - by apply Forall_app.
  - by apply Forall_app.
Qed.

Lemma invariant_irrelevant P o urls st a n :
  invariant P o urls st →
  length (workers st) + n <= pool_size o →
  invariant P o urls
    (mkState (store st) (requests st) (queue st) a n (workers st) (delivered st)
       (dispatched st)).
Proof.
  intros Hinv Hn.
  pose proof (invariant_extend P o urls st [] [] a n Hinv) as H.
  rewrite !app_nil_r in H. apply H; [done | | done | done].
  intros l Hl. by apply elem_of_nil in Hl.
Qed.

Lemma invariant_updateProgress P o urls ps st :
  invariant P o urls st → invariant P o urls (updateProgress ps o st).
Proof.
  intros Hinv.
  destruct (updateProgress_spec ps o st) as (ext & news & -> & Hnews & Hlocs & Hseen & _).
  apply invariant_extend; [done | | done | | apply (inv_pool _ _ _ _ Hinv)].
  - by rewrite (inv_requests _ _ _ _ Hinv), length_seq in Hnews.
  - eapply Forall_impl; [|exact Hseen]. intros d Hd. simpl in Hd. rewrite Hd.
    by eapply downloading_count_pool.
Qed.

(** The invariant holds at the start. *)
Lemma updateProgress_requests_eq ps o st : requests (updateProgress ps o st) = requests st.
Proof. unfold updateProgress. by destruct (onProgress o). Qed.

Lemma updateProgress_commute ps o st q n :
  set_unlaunched n (set_queue q (updateProgress ps o st)) =
  updateProgress ps o (set_unlaunched n (set_queue q st)).
Proof. unfold updateProgress. by destruct (onProgress o). Qed.

Lemma invariant_start P o urls : invariant P o urls (start P o urls).
Proof.
  unfold start. cbv zeta.
  rewrite updateProgress_requests_eq, updateProgress_commute.
  apply invariant_updateProgress.
  simpl_state.
  split; simpl_state; rewrite ?length_imap; try done.
  - f_equal. simpl. lia.
  - simpl. lia.
  - intros l u Hu. unfold record_ok. simpl_state.
    assert (imap (newRequest P) urls !!! l = newRequest P l u) as ->.
    { apply list_lookup_total_correct. by rewrite list_lookup_imap, Hu. }
    simpl. repeat split; lia.
  - intros l Hl. unfold observer_locs in Hl. simpl in Hl. by apply elem_of_nil in Hl.
Qed.
(** The observer writes to a record it was handed. *)
Lemma invariant_observer_write P o urls st l r :
  invariant P o urls st → l ∈ observer_locs st →
  invariant P o urls (write l r st).
Proof.
  intros [Hreq Hsto Hdis Hque Hle Hpool Hwk Hdist Hrec Hobs Hdel Hseen] Hl.
  apply Hobs in Hl.
  assert (∀ x, x < length urls → <[l := r]> (store st) !!! x = store st !!! x) as Hsame.
  { intros x Hx. apply list_lookup_total_insert_ne. lia. }
  split; simpl_state; try done.
  - by rewrite length_insert.
  - intros w wk Hw. eapply worker_ok_frame; [by eapply Hwk | | done | done].
    intros item _ Hi. simpl_state. apply Hsame. lia.
  - intros x u Hu. eapply record_ok_frame; [by apply Hrec | | done | done | by eauto].
    simpl_state. apply Hsame. by apply lookup_lt_Some in Hu.
  - intros x Hx. rewrite length_insert. by apply Hobs.
Qed.

Lemma busy_item_worker_item wk item : busy_item wk = Some item → worker_item wk = Some item.
Proof. by destruct wk. Qed.

Lemma worker_ok_dispatched o st wk item :
  worker_ok o st wk → worker_item wk = Some item → item < length (dispatched st).
Proof. destruct wk; simpl; intros Hok [= <-]; by destruct Hok. Qed.

(** A step inside [downloadWithRetry]: worker [w] stays with its request
    [item], whose record becomes [r]. *)
Lemma invariant_retry_step P o urls st w wk_old wk' item r :
  invariant P o urls st →
  workers st !! w = Some wk_old →
  busy_item wk_old = Some item →
  worker_item wk' = Some item →
  id r = id (deref st item) → url r = url (deref st item) →
  filename r = filename (deref st item) →
  worker_ok o (set_worker w wk' (write item r st)) wk' →
  match status r with
  | pending => False
  | downloading => busy_item wk' = Some item
  | success | failed => settled o r
  end →
  invariant P o urls (set_worker w wk' (write item r st)).
Proof.
  intros [Hreq Hsto Hdis Hque Hle Hpool Hwk Hdist Hrec Hobs Hdel Hseen] Hw Hbusy Hitem' Hid Hurl Hname Hok' Hst.
  pose proof (busy_item_worker_item _ _ Hbusy) as Hitem.
  pose proof (worker_ok_dispatched _ _ _ _ (Hwk _ _ Hw) Hitem) as Hlt.
  pose proof (lookup_lt_Some _ _ _ Hw) as Hwlt.
  split; simpl_state; try done.
  - by rewrite length_insert.
  - by rewrite length_insert.
  - intros w1 wk1 [(-> & <- & _)|(Hne & Hw1)]%list_lookup_insert_Some; [done|].
    eapply worker_ok_frame; [by eapply Hwk | | done | done].
    intros item1 Hitem1 _. simpl_state. apply list_lookup_total_insert_ne.
    intros ->. by destruct (Hdist _ _ _ _ _ Hw Hw1 Hitem Hitem1).
  - intros w1 w2 wk1 wk2 item1
      [(-> & <- & _)|(Hne1 & Hw1)]%list_lookup_insert_Some
      [(-> & <- & _)|(Hne2 & Hw2)]%list_lookup_insert_Some Hi1 Hi2; try done.
    + rewrite Hitem' in Hi1. injection Hi1 as <-.
      by apply (Hdist _ _ _ _ _ Hw Hw2 Hitem Hi2).
    + rewrite Hitem' in Hi2. injection Hi2 as <-.
      by apply (Hdist _ _ _ _ _ Hw1 Hw Hi1 Hitem).
    + by apply (Hdist _ _ _ _ _ Hw1 Hw2 Hi1 Hi2).
  - intros l u Hu. destruct (decide (l = item)) as [->|Hne].
    + destruct (Hrec _ _ Hu) as (Hid0 & Hurl0 & Hname0 & _).
      unfold record_ok. simpl_state.
      rewrite list_lookup_total_insert_eq by lia.
      repeat split; try congruence.
      destruct (status r); try done.
      split; [done|]. exists w, wk'. split; [|done].
      by rewrite list_lookup_insert_eq.
    + eapply record_ok_frame; [by apply Hrec | | done | done |].
      * simpl_state. by apply list_lookup_total_insert_ne.
      * intros w1 wk1 Hw1 Hb1. exists w1, wk1. split; [|done]. simpl_state.
        rewrite list_lookup_insert_ne; [done|]. intros <-. congruence.
  - intros l Hl. rewrite length_insert. by apply Hobs.
Qed.

Lemma deref_write_same st w wk item r :
  item < length (store st) → deref (set_worker w wk (write item r st)) item = r.
Proof. intros H. simpl_state. by apply list_lookup_total_insert_eq. Qed.

Lemma invariant_settle P o urls st w res st' :
  invariant P o urls st → step o (Settle w res) st = Some st' →
  invariant P o urls st'.
Proof.
  intros Hinv Hstep. cbn [step] in Hstep.
  destruct (workers st !! w) as [[item lc| | |]|] eqn:Hw; try done.
  destruct (launched st); [|done].
  pose proof (inv_workers _ _ _ _ Hinv _ _ Hw) as (Hlt & Hs & Ha & Hn).
  pose proof (inv_dispatched_le _ _ _ _ Hinv). pose proof (inv_store _ _ _ _ Hinv).
  destruct res as [|e].
  - cbn [after_downloadFile] in Hstep. injection Hstep as <-.
    eapply invariant_retry_step; try done; unfold_setters; try done.
    + cbn [worker_ok]. rewrite deref_write_same by lia.
      split; [done|]. unfold settled. unfold_setters. split; [done | lia].
    + unfold settled. unfold_setters. split; [done | lia].
  - destruct (decide (attempt lc < maxRetries o)%Z) as [Hlt'|Hge].
    + rewrite after_downloadFile_retry in Hstep by done. injection Hstep as <-.
      eapply invariant_retry_step; try done; unfold_setters; try done.
      * cbn [worker_ok]. rewrite deref_write_same by lia. unfold_setters.
        cbn [attempt lastError].
        repeat split; try done; try lia.
        by exists e.
      * by rewrite Hs.
    + rewrite after_downloadFile_give_up in Hstep by lia. injection Hstep as <-.
      eapply invariant_retry_step; try done; unfold_setters; try done.
      * cbn [worker_ok]. rewrite deref_write_same by lia.
        split; [done|]. unfold settled. unfold_setters. split; [done | lia].
      * unfold settled. unfold_setters. split; [done | lia].
Qed.

Lemma invariant_wake P o urls st w st' :
  invariant P o urls st → step o (Wake w) st = Some st' →
  invariant P o urls st'.
Proof.
  intros Hinv Hstep. cbn [step] in Hstep.
  destruct (workers st !! w) as [[|item lc ms| |]|] eqn:Hw; try done.
  destruct (launched st); [|done].
  pose proof (inv_workers _ _ _ _ Hinv _ _ Hw) as (Hlt & Hs & Ha & Hn & Hms & He).
  pose proof (inv_dispatched_le _ _ _ _ Hinv). pose proof (inv_store _ _ _ _ Hinv).
  rewrite loop_head_enter in Hstep by lia. injection Hstep as <-.
  eapply invariant_retry_step; try done; unfold_setters; try done.
  - cbn [worker_ok]. rewrite deref_write_same by lia. unfold_setters.
    repeat split; try done; lia.
  - by rewrite Hs.
Qed.

Lemma seq_cons_inv (q n item : nat) rest :
  seq q n = item :: rest → item = q ∧ rest = seq (S q) (n - 1) ∧ 0 < n.
Proof.
  destruct n as [|n]; [done|]. simpl. intros [= <- <-].
  rewrite Nat.sub_0_r. repeat split. lia.
Qed.

(** A call of [processNext] that finds a request in the queue.  The worker
    it suspends as is put at index [w0] of the pool, either a new index or
    that of the worker that made the call. *)
Lemma invariant_dispatch P o urls st st1 wk ws' w0 :
  invariant P o urls st →
  queue st ≠ [] →
  processNext o st = (st1, wk) →
  ws' !! w0 = Some wk →
  (∀ w1, w1 ≠ w0 → ws' !! w1 = workers st !! w1) →
  (∀ wk1, workers st !! w0 = Some wk1 → busy_item wk1 = None) →
  length ws' + unlaunched st <= pool_size o →
  length (omap busy_item (workers st)) < pool_size o →
  invariant P o urls (set_workers ws' st1).
Proof.
  intros Hinv Hq Hpn Hw0 Hothers Hfree Hpool' Hbusy.
  pose proof Hinv as [Hreq Hsto Hdis Hque Hle Hpool Hwk Hdist Hrec Hobs Hdel Hseen].
  destruct (queue st) as [|item rest] eqn:Hqueue; [done|]. clear Hq.
  symmetry in Hque. apply seq_cons_inv in Hque as (-> & -> & Hpos).
  set (q := length (dispatched st)) in *.
  destruct (processNext_cons o st q _ Hqueue ltac:(lia))
    as (ext & news & Heq & Hnews & Hlocs & Hseen').
  rewrite Heq in Hpn. clear Heq.
  destruct (lookup_lt_is_Some_2 urls q ltac:(lia)) as [u Hu].
  pose proof (Hrec _ _ Hu) as (Hid & Hurl & Hname & Hst).
  assert (status (deref st q) = pending ∧ attempts (deref st q) = 0%Z ∧
          error (deref st q) = None) as (Hpend & Hatt & Herr).
  { destruct (status (deref st q)); [by destruct Hst as (_ & ? & ?) | | |];
      destruct Hst as [? _]; unfold q in *; lia. }
  clear Hst.
  assert (∀ l, l < length urls → l ≠ q →
     (<[q := fst (loop_head o fresh_locals (set_status downloading (deref st q)))]>
        (store st) ++ ext) !!! l = store st !!! l) as Hsame.
  { intros l Hl Hne. apply store_other; [lia | done]. }
  assert (worker_ok o (set_workers ws' st1) wk ∧
          worker_item wk = Some q ∧
          match status (deref (set_workers ws' st1) q) with
          | pending => False
          | downloading => busy_item wk = Some q
          | success | failed => settled o (deref (set_workers ws' st1) q)
          end ∧
          id (deref (set_workers ws' st1) q) = id (deref st q) ∧
          url (deref (set_workers ws' st1) q) = url (deref st q) ∧
          filename (deref (set_workers ws' st1) q) = filename (deref st q))
    as (Hok' & Hitem' & Hst' & Hid' & Hurl' & Hname').
  { destruct (decide (0 <= maxRetries o)%Z) as [HM|HM].
    - rewrite loop_head_enter in Hpn by (simpl; lia). cbn [fst snd] in Hpn.
      injection Hpn as <- <-. simpl_state.
      rewrite store_same by lia. unfold_setters. cbn [worker_ok].
      simpl_state. rewrite store_same by lia. unfold_setters.
      rewrite length_app. simpl. repeat split; try done; lia.
    - rewrite loop_head_exit in Hpn by (simpl; lia). cbn [fst snd] in Hpn.
      rewrite after_loop_fallback in Hpn by done.
      injection Hpn as <- <-. simpl_state.
      rewrite store_same by lia. unfold_setters. cbn [worker_ok].
      simpl_state. rewrite store_same by lia. unfold_setters.
      rewrite length_app. simpl. unfold settled. unfold_setters.
      repeat split; try done; lia. }
  injection Hpn as <- _. simpl_state.
  split; simpl_state; try done.
  - rewrite length_app, length_insert. lia.
  - rewrite length_app. simpl. rewrite Nat.add_1_r, seq_S. simpl.
    unfold q in *. by rewrite <- Hdis.
  - rewrite length_app. simpl. f_equal; lia.
  - rewrite length_app. simpl. lia.
  - intros w1 wk1 Hw1. destruct (decide (w1 = w0)) as [->|Hne].
    + rewrite Hw0 in Hw1. by injection Hw1 as <-.
    + rewrite Hothers in Hw1 by done.
      eapply worker_ok_frame; [by eapply Hwk | | | ]; simpl_state.
      * intros l Hl Hlt. apply Hsame; unfold q in *; lia.
      * rewrite length_app. lia.
      * by rewrite Hqueue.
  - intros w1 w2 wk1 wk2 l Hw1 Hw2 Hi1 Hi2.
    destruct (decide (w1 = w0)) as [->|Hne1], (decide (w2 = w0)) as [->|Hne2];
      try done.
    + rewrite Hw0 in Hw1. injection Hw1 as <-.
      rewrite Hothers in Hw2 by done.
      pose proof (worker_ok_dispatched _ _ _ _ (Hwk _ _ Hw2) Hi2).
      rewrite Hitem' in Hi1. injection Hi1 as <-. unfold q in *. lia.
    + rewrite Hw0 in Hw2. injection Hw2 as <-.
      rewrite Hothers in Hw1 by done.
      pose proof (worker_ok_dispatched _ _ _ _ (Hwk _ _ Hw1) Hi1).
      rewrite Hitem' in Hi2. injection Hi2 as <-. unfold q in *. lia.
    + rewrite Hothers in Hw1, Hw2 by done. by eapply Hdist.
  - intros l u' Hu'. destruct (decide (l = q)) as [->|Hne].
    + assert (u' = u) as -> by congruence.
      unfold record_ok. simpl_state.
      set (rq := (<[q:=_]> (store st) ++ ext) !!! q) in *.
      repeat split; try congruence.
      destruct (status rq); try done.
      * rewrite length_app. simpl. split; [lia|]. by exists w0, wk.
      * rewrite length_app. simpl. split; [lia | done].
      * rewrite length_app. simpl. split; [lia | done].
    + eapply record_ok_frame; [by apply Hrec | | | |]; simpl_state.
      * apply Hsame; [by apply lookup_lt_Some in Hu' | done].
      * rewrite length_app. lia.
      * rewrite length_app. simpl. unfold q in *. lia.
      * intros w1 wk1 Hw1 Hb1. exists w1, wk1. split; [|done].
        rewrite Hothers; [done|]. intros ->. apply Hfree in Hw1. congruence.
  - intros l. unfold observer_locs. cbn [delivered].
    rewrite observer_locs_app, elem_of_app, length_app, length_insert.
    intros [Hl|Hl]; [apply Hobs in Hl; lia | apply Hlocs in Hl; lia].
  - apply Forall_app. split; [done|]. by rewrite Hreq, length_seq in Hnews.
  - apply Forall_app. split; [done|].
    eapply Forall_impl; [|exact Hseen']. intros d Hd. simpl in Hd. rewrite Hd.
    pose proof (live_write st q (set_status downloading (store st !!! q))
                  (length urls) Hreq ltac:(lia) Hsto) as Hlive.
    unfold write in Hlive. rewrite Hlive.
    pose proof (length_filter_insert_le (has_status downloading) (live st) q
                  (set_status downloading (store st !!! q))).
    pose proof (downloading_count_busy P o urls st Hreq Hrec).
    unfold downloading_count in *. lia.
Qed.

(** A worker that finds the queue empty terminates. *)
Lemma invariant_idle P o urls st ws' w0 :
  invariant P o urls st →
  queue st = [] →
  ws' !! w0 = Some Finished →
  (∀ w1, w1 ≠ w0 → ws' !! w1 = workers st !! w1) →
  (∀ wk1, workers st !! w0 = Some wk1 → busy_item wk1 = None) →
  length ws' + unlaunched st <= pool_size o →
  invariant P o urls (set_workers ws' st).
Proof.
  intros [Hreq Hsto Hdis Hque Hle Hpool Hwk Hdist Hrec Hobs Hdel Hseen] Hq Hw0 Hothers Hfree Hpool'.
  split; simpl_state; try done.
  - intros w1 wk1 Hw1. destruct (decide (w1 = w0)) as [->|Hne].
    + rewrite Hw0 in Hw1. by injection Hw1 as <-.
    + rewrite Hothers in Hw1 by done.
      eapply worker_ok_frame; [by eapply Hwk | done | done | done].
  - intros w1 w2 wk1 wk2 l Hw1 Hw2 Hi1 Hi2.
    destruct (decide (w1 = w0)) as [->|Hne1];
      [rewrite Hw0 in Hw1; by injection Hw1 as <-|].
    destruct (decide (w2 = w0)) as [->|Hne2];
      [rewrite Hw0 in Hw2; by injection Hw2 as <-|].
    rewrite Hothers in Hw1, Hw2 by done. by eapply Hdist.
  - intros l u Hu. eapply record_ok_frame; [by apply Hrec | done | done | done |].
    intros w1 wk1 Hw1 Hb1. exists w1, wk1. split; [|done]. simpl_state.
    rewrite Hothers; [done|]. intros ->. apply Hfree in Hw1. congruence.
Qed.

Lemma invariant_launch P o urls st st' :
  invariant P o urls st → step o Launch st = Some st' →
  invariant P o urls st'.
Proof.
  intros Hinv Hstep. cbn [step] in Hstep.
  destruct (unlaunched st) as [|n] eqn:Hn; [done|].
  pose proof (inv_pool _ _ _ _ Hinv) as Hpool. rewrite Hn in Hpool.
  pose proof (length_omap_le busy_item (workers st)) as Hbusy.
  apply (invariant_irrelevant _ _ _ _ (active st) n) in Hinv; [|lia].
  change (mkState _ _ _ _ _ _ _ _) with (set_unlaunched n st) in Hinv.
  pose proof (processNext_workers o (set_unlaunched n st)) as Hws.
  destruct (processNext o (set_unlaunched n st)) as [st1 wk] eqn:Hpn.
  injection Hstep as <-. cbn [fst] in Hws.
  assert (∀ w1, w1 ≠ length (workers st1) →
            (workers st1 ++ [wk]) !! w1 = workers (set_unlaunched n st) !! w1) as Hothers.
  { intros w1 Hne. rewrite Hws in *. cbn [set_unlaunched workers] in *.
    destruct (decide (w1 < length (workers st))).
    - by rewrite lookup_app_l.
    - rewrite !lookup_ge_None_2; [done | lia | rewrite length_app; simpl; lia]. }
  assert (∀ wk1, workers (set_unlaunched n st) !! length (workers st1) = Some wk1 →
            busy_item wk1 = None) as Hfree.
  { intros wk1 Hw1. apply lookup_lt_Some in Hw1. rewrite Hws in Hw1. lia. }
  assert (length (workers st1 ++ [wk]) + unlaunched (set_unlaunched n st) <= pool_size o)
    as Hpool'.
  { rewrite length_app, Hws. simpl. lia. }
  destruct (queue (set_unlaunched n st)) as [|item rest] eqn:Hq.
  - rewrite processNext_nil in Hpn by done. injection Hpn as <- <-.
    eapply invariant_idle; try done. apply list_lookup_middle. done.
  - eapply invariant_dispatch; try done.
    + by rewrite Hq.
    + by apply list_lookup_middle.
    + simpl. lia.
Qed.

Lemma invariant_resume P o urls st w st' :
  invariant P o urls st → step o (Resume w) st = Some st' →
  invariant P o urls st'.
Proof.
  intros Hinv Hstep. cbn [step] in Hstep.
  destruct (workers st !! w) as [[| |item|]|] eqn:Hw; try done.
  destruct (launched st); [|done].
  unfold after_downloadWithRetry in Hstep.
  set (st2 := set_active _ _) in *.
  pose proof (inv_pool _ _ _ _ Hinv) as Hpool.
  assert (invariant P o urls st2 ∧ workers st2 = workers st ∧
          unlaunched st2 = unlaunched st) as (Hinv2 & Hws2 & Hun2).
  { pose proof (invariant_updateProgress P o urls running st Hinv) as H1.
    pose proof (updateProgress_workers running o st) as Hw1.
    pose proof (updateProgress_unlaunched running o st) as Hu1.
    split; [|done].
    apply (invariant_irrelevant _ _ _ _
             (active (updateProgress running o st) - 1)%Z
             (unlaunched (updateProgress running o st))) in H1; [done|].
    rewrite Hw1, Hu1. done. }
  pose proof (lookup_lt_Some _ _ _ Hw) as Hwlt.
  assert (∀ wk ws, ws = workers st2 → ∀ w1, w1 ≠ w → <[w := wk]> ws !! w1 = workers st2 !! w1)
    as Hothers.
  { intros wk ws -> w1 Hne. by rewrite list_lookup_insert_ne. }
  assert (∀ wk1, workers st2 !! w = Some wk1 → busy_item wk1 = None) as Hfree.
  { intros wk1. rewrite Hws2, Hw. by intros [= <-]. }
  destruct (queue st2) as [|item' rest] eqn:Hq.
  - injection Hstep as <-.
    eapply invariant_idle; try done.
    + apply list_lookup_insert_eq. by rewrite Hws2.
    + by apply Hothers.
    + rewrite length_insert, Hws2, Hun2. done.
  - pose proof (processNext_workers o st2) as Hws.
    destruct (processNext o st2) as [st3 wk] eqn:Hpn. injection Hstep as <-.
    cbn [fst] in Hws.
    eapply invariant_dispatch; try done.
    + by rewrite Hq.
    + apply list_lookup_insert_eq. by rewrite Hws, Hws2.
    + by apply Hothers.
    + rewrite length_insert, Hws, Hws2, Hun2. done.
    + rewrite Hws2. pose proof (length_omap_lt busy_item _ _ _ Hw eq_refl). lia.
Qed.

Lemma invariant_step P o urls ev st st' :
  invariant P o urls st → step o ev st = Some st' → invariant P o urls st'.
Proof.
  intros Hinv Hstep. destruct ev as [|w res|w|w|l r].
  - by eapply invariant_launch.
  - by eapply invariant_settle.
  - by eapply invariant_wake.
  - by eapply invariant_resume.
  - cbn [step] in Hstep. case_bool_decide; [|done]. injection Hstep as <-.
    by apply invariant_observer_write.
Qed.

Lemma reachable_invariant P o urls st :
  reachable P o urls st → invariant P o urls st.
Proof.
  induction 1 as [|st ev st' _ IH Hstep]; [apply invariant_start|].
  by eapply invariant_step.
Qed.

(** Inside a batch, every request that has left the retry engine is as the
    engine on its own leaves it. *)
Lemma reachable_settled P o urls st l u :
  (0 <= maxRetries o)%Z → reachable P o urls st → urls !! l = Some u →
  (status (deref st l) = failed →
     attempts (deref st l) = (maxRetries o + 1)%Z ∧ is_Some (error (deref st l))) ∧
  (status (deref st l) = success →
     (1 <= attempts (deref st l) <= maxRetries o + 1)%Z ∧ error (deref st l) = None).
Proof.
  intros HM Hreach Hu.
  destruct (inv_records _ _ _ _ (reachable_invariant _ _ _ _ Hreach) _ _ Hu)
    as (_ & _ & _ & Hst).
  split; intros Hs; rewrite Hs in Hst; destruct Hst as [_ Hset];
    unfold settled in Hset; rewrite Hs in Hset; destruct Hset; split; (done || lia).
Qed.

(** Inside a batch, a worker that sleeps after the failure of the attempt
    number [attempt] of its request sleeps what line 254 computes for that
    attempt, and a retry is still allowed. *)
Lemma reachable_backoff P o urls st w item lc ms :
  reachable P o urls st → workers st !! w = Some (AwaitingSleep item lc ms) →
  ms = backoff_ms o (attempt lc) ∧
  attempts (deref st item) = attempt lc ∧
  (1 <= attempt lc <= maxRetries o)%Z.
Proof.
  intros Hreach Hw.
  by destruct (inv_workers _ _ _ _ (reachable_invariant _ _ _ _ Hreach) _ _ Hw)
    as (_ & _ & ? & ? & ? & _).
Qed.

(** ** Executions of [run] are executions *)

Lemma run_reachable P o urls sched : ∀ st st',
  reachable P o urls st → run o sched st = Some st' →
  reachable P o urls st' ∧ joined st' = true.
Proof.
  induction sched as [|c sched IH]; intros st st' Hreach Hrun; simpl in Hrun.
  - destruct (joined st) eqn:Hj; [|done]. by injection Hrun as <-.
  - destruct (joined st) eqn:Hj; [by injection Hrun as <-|].
    destruct (choose st c) as [ev|]; [|done].
    destruct (step o ev st) as [st1|] eqn:Hstep.
    + apply (IH st1); [|done]. by eapply reachable_step.
    + destruct c; [done|]. by apply (IH st).
Qed.

Lemma joined_finished st w wk :
  joined st = true → workers st !! w = Some wk → wk = Finished.
Proof.
  unfold joined. intros [_ Hall]%andb_true_iff Hw.
  rewrite forallb_forall in Hall.
  assert (is_finished wk = true) as Hfin.
  { by apply Hall, list_elem_of_In, list_elem_of_lookup_2 with w. }
  by destruct wk.
Qed.

Lemma joined_launched st : joined st = true → unlaunched st = 0.
Proof.
  unfold joined, launched. intros [Hl _]%andb_true_iff.
  by apply bool_decide_eq_true in Hl.
Qed.

(** Once the pool has joined, and if it had a worker at all, the queue is
    empty and every request has been dispatched. *)
Lemma joined_drained P o urls st :
  0 < pool_size o → reachable P o urls st → joined st = true →
  queue st = [] ∧ dispatched st = requests st.
Proof.
  intros Hc Hreach Hj.
  pose proof (reachable_invariant _ _ _ _ Hreach) as Hinv.
  pose proof (reachable_pool _ _ _ _ Hreach) as Hpool.
  rewrite (joined_launched _ Hj) in Hpool.
  destruct (workers st) as [|wk ws] eqn:Hws; [simpl in Hpool; lia|].
  assert (queue st = []) as Hq.
  { pose proof (joined_finished st 0 wk Hj) as Hfin. rewrite Hws in Hfin.
    specialize (Hfin eq_refl). subst wk.
    apply (inv_workers _ _ _ _ Hinv 0 Finished). by rewrite Hws. }
  split; [done|].
  pose proof (inv_queue _ _ _ _ Hinv) as Hque. rewrite Hq in Hque.
  pose proof (inv_dispatched_le _ _ _ _ Hinv).
  assert (length (dispatched st) = length urls) as Hlen.
  { destruct (length urls - length (dispatched st)) eqn:Hd; [lia | done]. }
  rewrite (inv_requests _ _ _ _ Hinv), <- Hlen. apply (inv_dispatched _ _ _ _ Hinv).
Qed.

(** ** The snapshots *)

(** C6: every snapshot handed to the observer, the final one included, has
    [completed = successes + failures], [completed <= total], and [total]
    equal to the number of input URLs. *)
Theorem snapshots_consistent P o urls st :
  reachable P o urls st →
  Forall (fun d => consistent (length urls) (snapshot d)) (delivered st) ∧
  Forall (fun d => consistent (length urls) (snapshot d)) (delivered (fst (finish o st))).
Proof.
  intros Hreach.
  pose proof (reachable_invariant _ _ _ _ Hreach) as Hinv.
  assert (∀ d, delivery_ok (length urls) d → consistent (length urls) (snapshot d)) as Hok.
  { intros d (Ht & Hc & Hle & _). done. }
  split.
  - eapply Forall_impl; [exact Hok | apply (inv_delivered _ _ _ _ Hinv)].
  - cbn [finish fst].
    apply (invariant_updateProgress _ _ _ completed) in Hinv.
    eapply Forall_impl; [exact Hok | apply (inv_delivered _ _ _ _ Hinv)].
Qed.

Lemma snapshots_consistent_witness :
  Forall (fun d => consistent 1 (snapshot d))
    (delivered (start sample_platform sample_options ["https://a/b/c.png"%string])).
Proof.
  apply (snapshots_consistent sample_platform sample_options ["https://a/b/c.png"%string]).
  apply reachable_start.
Defined.

(** ** The result *)

Lemma joined_settled P o urls st l :
  0 < pool_size o → reachable P o urls st → joined st = true →
  l < length urls →
  status (deref st l) = success ∨ status (deref st l) = failed.
Proof.
  intros Hc Hreach Hj Hl.
  pose proof (reachable_invariant _ _ _ _ Hreach) as Hinv.
  destruct (joined_drained _ _ _ _ Hc Hreach Hj) as [_ Hd].
  apply (f_equal length) in Hd.
  rewrite (inv_requests _ _ _ _ Hinv), length_seq in Hd.
  destruct (lookup_lt_is_Some_2 urls l Hl) as [u Hu].
  destruct (inv_records _ _ _ _ Hinv _ _ Hu) as (_ & _ & _ & Hst).
  destruct (status (deref st l)); [| | by left | by right].
  - destruct Hst as [? _]. lia.
  - destruct Hst as (_ & w & wk & Hw & Hb).
    rewrite (joined_finished _ _ _ Hj Hw) in Hb. done.
Qed.

Lemma length_partition {A} (P Q : A → Prop)
    `{!∀ x, Decision (P x)} `{!∀ x, Decision (Q x)} (l : list A) :
  (∀ x, x ∈ l → (P x ∨ Q x) ∧ ¬ (P x ∧ Q x)) →
  length (filter P l) + length (filter Q l) = length l.
Proof.
  induction l as [|x l IH]; intros Hall; [done|].
  rewrite !filter_cons.
  destruct (Hall x ltac:(left)) as [Hor Hnot].
  specialize (IH (fun y Hy => Hall y ltac:(by right))).
  destruct (decide (P x)), (decide (Q x)); simpl; try lia; tauto.
Qed.

Lemma finish_deref o st l :
  l < length (store st) → deref (fst (finish o st)) l = deref st l.
Proof.
  intros Hl. cbn [finish fst].
  destruct (updateProgress_spec completed o st) as (ext & news & -> & _).
  simpl_state. by apply store_grow.
Qed.

(** C1, as the code has it: for a non-empty URL list and [concurrency >= 1],
    when [runDownloadTask] completes, [successes] holds exactly the requests
    whose status is [success] and [failures] exactly those whose status is
    [failed]; both keep the order of the requests, which is the order of the
    input URLs; and together they have as many entries as there are input
    URLs. *)
Theorem result_partition P urls options sched st res :
  urls ≠ [] →
  (1 <= concurrency (mergeOptions options))%Z →
  runDownloadTask P urls options sched = Some (st, res) →
  (∀ l, l ∈ Result.successes res ↔ l ∈ requests st ∧ status (deref st l) = success) ∧
  (∀ l, l ∈ Result.failures res ↔ l ∈ requests st ∧ status (deref st l) = failed) ∧
  sublist (Result.successes res) (requests st) ∧
  sublist (Result.failures res) (requests st) ∧
  length (Result.successes res) + length (Result.failures res) = length urls ∧
  requests st = seq 0 (length urls) ∧
  (∀ l u, urls !! l = Some u → url (deref st l) = u).
Proof.
  intros Hne Hc Hrun.
  destruct (runDownloadTask_Some _ _ _ _ _ _ Hne Hrun) as (Hc32 & st0 & Hrun0 & -> & ->).
  set (o := mergeOptions options) in *.
  assert (0 < pool_size o) as Hpool by (apply pool_size_pos; lia).
  destruct (run_reachable P o urls sched _ _ (reachable_start _ _ _) Hrun0) as [Hreach Hj].
  pose proof (reachable_invariant _ _ _ _ Hreach) as Hinv.
  pose proof (invariant_updateProgress _ _ _ completed _ Hinv) as Hinv1.
  cbn [finish fst snd Result.successes Result.failures].
  set (st1 := updateProgress completed o st0) in *.
  assert (∀ l, l < length urls → deref st1 l = deref st0 l) as Hsame.
  { intros l Hl. apply (finish_deref o st0).
    pose proof (inv_store _ _ _ _ Hinv). lia. }
  split; [|split; [|split; [|split; [|split; [|split]]]]].
  - intros l. rewrite list_elem_of_filter. unfold has_status. tauto.
  - intros l. rewrite list_elem_of_filter. unfold has_status. tauto.
  - apply sublist_filter.
  - apply sublist_filter.
  - rewrite length_partition.
    + by rewrite (inv_requests _ _ _ _ Hinv1), length_seq.
    + intros l Hl. rewrite (inv_requests _ _ _ _ Hinv1), elem_of_seq in Hl.
      unfold has_status. rewrite Hsame by lia.
      destruct (joined_settled P o urls st0 l Hpool Hreach Hj ltac:(lia)) as [Hs|Hs];
        rewrite Hs; split; (by auto) || (by intros [? ?]).
  - apply (inv_requests _ _ _ _ Hinv1).
  - intros l u Hu. by destruct (inv_records _ _ _ _ Hinv1 _ _ Hu) as (_ & ? & _).
Qed.

Lemma result_partition_witness :
  ∃ st res,
    runDownloadTask sample_platform ["https://a/b/c.png"; "https://a/b/"]
      (Task.mkTaskOptions (Some 1%Z) (Some 0%Z) None None true)
      [Advance 0 Resolved; Advance 0 Resolved; Advance 0 Resolved;
       Advance 0 (Rejected http404); Advance 0 Resolved] = Some (st, res) ∧
    length (Result.successes res) + length (Result.failures res) = 2.
Proof.
  destruct (runDownloadTask sample_platform ["https://a/b/c.png"; "https://a/b/"]
      (Task.mkTaskOptions (Some 1%Z) (Some 0%Z) None None true)
      [Advance 0 Resolved; Advance 0 Resolved; Advance 0 Resolved;
       Advance 0 (Rejected http404); Advance 0 Resolved])
    as [[st res]|] eqn:Hrun; [|vm_compute in Hrun; discriminate].
  exists st, res. split; [reflexivity|].
  eapply (result_partition sample_platform ["https://a/b/c.png"; "https://a/b/"]%string
            (Task.mkTaskOptions (Some 1%Z) (Some 0%Z) None None true)).
  - done.
  - simpl. lia.
  - exact Hrun.
Defined.

(** C1 as stated, for every configuration, fails without a worker: with
    [concurrency = 0] the task completes at once, every request is still
    pending and both sequences are empty. *)
Lemma result_partition_counterexample :
  ∃ st res,
    runDownloadTask sample_platform ["https://a/b/c.png"%string]
      (Task.mkTaskOptions (Some 0%Z) None None None false) [] = Some (st, res) ∧
    length (Result.successes res) + length (Result.failures res)
      ≠ length ["https://a/b/c.png"%string] ∧
    map status (live st) = [pending].
Proof.
  eexists _, _. split; [reflexivity|]. split; [|reflexivity]. simpl. lia.
Qed.

(** C5: for the empty URL list [runDownloadTask] returns the empty result
    at once, whatever the options and whatever the environment would do,
    and the observer is not called. *)
Theorem empty_batch P options sched :
  ∃ st,
    runDownloadTask P [] options sched = Some (st, Result.mkResult [] []) ∧
    delivered st = [] ∧ store st = [].
Proof. by exists blank. Qed.

(** ** Every pool joins *)

Lemma sum_list_insert (f : worker → nat) ws w old new :
  ws !! w = Some old →
  sum_list (f <$> <[w := new]> ws) + f old = sum_list (f <$> ws) + f new.
Proof.
  revert w. induction ws as [|x ws IH]; intros w Hw; [done|].
  destruct w as [|w]; simplify_eq/=.
  - lia.
  - specialize (IH _ Hw). lia.
Qed.

Lemma sum_list_snoc (f : worker → nat) ws new :
  sum_list (f <$> (ws ++ [new])) = sum_list (f <$> ws) + f new.
Proof. rewrite fmap_app, sum_list_with_app || rewrite fmap_app, sum_list_app. simpl. lia. Qed.

Lemma loop_head_locals o lc r lc' : snd (loop_head o lc r) = Some lc' → lc' = lc.
Proof. unfold loop_head. destruct (_ <=? _)%Z; simpl; congruence. Qed.

Lemma updateProgress_queue ps o st : queue (updateProgress ps o st) = queue st.
Proof. unfold updateProgress. by destruct (onProgress o). Qed.

(** What a call of [processNext] leaves to do. *)
Lemma processNext_work o st st1 wk :
  processNext o st = (st1, wk) →
  unlaunched st1 = unlaunched st ∧ workers st1 = workers st ∧
  length (queue st1) * item_cost o + worker_cost o wk
    <= length (queue st) * item_cost o ∧
  (queue st ≠ [] →
   length (queue st1) * item_cost o + worker_cost o wk
     < length (queue st) * item_cost o).
Proof.
  intros Hpn.
  pose proof (processNext_workers o st) as Hws.
  pose proof (processNext_unlaunched o st) as Hun.
  rewrite Hpn in Hws, Hun. cbn [fst] in *.
  split; [done|]. split; [done|].
  unfold processNext in Hpn. destruct (queue st) as [|item rest] eqn:Hq.
  - injection Hpn as <- <-. rewrite Hq. simpl. split; [lia | done].
  - destruct (loop_head _ _ _) as [r k] eqn:Hhead.
    injection Hpn as <- <-. simpl_state. rewrite updateProgress_queue.
    simpl_state.
    assert (worker_cost o
              match k with
              | Some lc => AwaitingDownloadFile item lc
              | None => AwaitingRetry item
              end < item_cost o) as Hcost.
    { destruct k as [lc|]; simpl.
      - assert (lc = fresh_locals) as -> by (eapply loop_head_locals; by rewrite Hhead).
        unfold item_cost. simpl. lia.
      - unfold item_cost. lia. }
    simpl. split; [lia | intros _; lia].
Qed.

(** Every event of the batch itself uses up some of the work left; a write
    of the observer uses none. *)
Lemma step_work o ev st st' :
  step o ev st = Some st' →
  match ev with
  | ObserverWrite _ _ => work o st' = work o st
  | _ => work o st' < work o st
  end.
Proof.
  intros Hstep. unfold work. destruct ev as [|w res|w|w|l r]; cbn [step] in Hstep.
  - destruct (unlaunched st) as [|n] eqn:Hn; [done|].
    destruct (processNext o (set_unlaunched n st)) as [st1 wk] eqn:Hpn.
    apply processNext_work in Hpn as (Hun & Hws & Hle & _).
    injection Hstep as <-. simpl_state.
    rewrite sum_list_snoc, Hun, Hws. lia.
  - destruct (workers st !! w) as [[item lc| | |]|] eqn:Hw; try done.
    destruct (launched st); [|done].
    pose proof (sum_list_insert (worker_cost o) _ _ _ (AwaitingRetry item) Hw) as Hr.
    destruct res as [|e].
    + cbn [after_downloadFile] in Hstep. injection Hstep as <-. simpl_state.
      simpl in Hr. lia.
    + destruct (decide (attempt lc < maxRetries o)%Z) as [Hlt|Hge].
      * rewrite after_downloadFile_retry in Hstep by done. injection Hstep as <-.
        simpl_state.
        pose proof (sum_list_insert (worker_cost o) _ _ _
                      (AwaitingSleep item (mkLocals (attempt lc + 1)%Z (Some e))
                         (backoff_ms o (attempt lc + 1))) Hw) as Hs.
        simpl in Hs. unfold retries_left in *. lia.
      * rewrite after_downloadFile_give_up in Hstep by lia. injection Hstep as <-.
        simpl_state. simpl in Hr. lia.
  - destruct (workers st !! w) as [[|item lc ms| |]|] eqn:Hw; try done.
    destruct (launched st); [|done].
    destruct (loop_head o lc (deref st item)) as [r k] eqn:Hhead.
    injection Hstep as <-. destruct k as [lc1|]; simpl_state.
    + assert (lc1 = lc) as -> by (eapply loop_head_locals; by rewrite Hhead).
      pose proof (sum_list_insert (worker_cost o) _ _ _
                    (AwaitingDownloadFile item lc) Hw) as Hs.
      simpl in Hs. lia.
    + pose proof (sum_list_insert (worker_cost o) _ _ _ (AwaitingRetry item) Hw) as Hs.
      simpl in Hs. lia.
  - destruct (workers st !! w) as [[| |item|]|] eqn:Hw; try done.
    destruct (launched st); [|done].
    unfold after_downloadWithRetry in Hstep.
    set (st2 := set_active _ _) in *.
    assert (unlaunched st2 = unlaunched st ∧ workers st2 = workers st ∧
            queue st2 = queue st) as (Hun2 & Hws2 & Hq2).
    { subst st2. simpl_state.
      by rewrite updateProgress_unlaunched, updateProgress_workers, updateProgress_queue. }
    assert (workers st2 !! w = Some (AwaitingRetry item)) as Hw2 by (by rewrite Hws2).
    rewrite <- Hun2, <- Hws2, <- Hq2. clearbody st2. clear Hun2 Hws2 Hq2 Hw.
    destruct (queue st2) as [|item' rest] eqn:Hq.
    + injection Hstep as <-. simpl_state.
      pose proof (sum_list_insert (worker_cost o) _ w _ Finished Hw2) as Hs.
      rewrite Hq. simpl in *. lia.
    + destruct (processNext o st2) as [st3 wk] eqn:Hpn.
      apply processNext_work in Hpn as (Hun & Hws & _ & Hlt).
      specialize (Hlt ltac:(by rewrite Hq)).
      injection Hstep as <-. simpl_state. rewrite <- Hws in Hw2.
      pose proof (sum_list_insert (worker_cost o) _ w _ wk Hw2) as Hs.
      rewrite Hq in Hlt. rewrite Hun, <- Hws.
      simpl in *. lia.
  - case_bool_decide; [|done]. by injection Hstep as <-.
Qed.

Lemma resume_enabled o st w res ev :
  launched st = true → resume_event st w res = Some ev →
  orchestrator_event ev ∧ ∃ st', step o ev st = Some st'.
Proof.
  unfold resume_event. intros Hl Hev.
  destruct (workers st !! w) as [[item lc|item lc ms|item|]|] eqn:Hw; try done;
    injection Hev as <-; (split; [done|]); cbn [step]; rewrite Hw, Hl.
  - destruct (after_downloadFile _ _ _ _) as [r [[lc1 ms]|]]; by eexists.
  - destruct (loop_head _ _ _) as [r [lc1|]]; by eexists.
  - destruct (after_downloadWithRetry _ _) as [st1 wk]. by eexists.
Qed.

(** As long as the pool has not joined, the batch can continue, whichever
    worker the environment names and whatever the outcome of a transfer. *)
Lemma choose_enabled o st w res :
  joined st = false →
  ∃ ev st', choose st (Advance w res) = Some ev ∧ orchestrator_event ev ∧
            step o ev st = Some st'.
Proof.
  intros Hj. unfold choose. destruct (launched st) eqn:Hl.
  - destruct (resume_event st w res) as [ev|] eqn:Hev.
    + destruct (resume_enabled o _ _ _ _ Hl Hev) as (? & st' & ?). by exists ev, st'.
    + destruct (list_find _ (workers st)) as [[w' wk']|] eqn:Hfind.
      * apply list_find_Some in Hfind as (Hw' & Hnf & _).
        assert (∃ ev, resume_event st w' res = Some ev) as [ev Hev'].
        { unfold resume_event. rewrite Hw'. destruct wk'; by eauto. }
        destruct (resume_enabled o _ _ _ _ Hl Hev') as (? & st' & ?).
        exists ev, st'. by rewrite Hev'.
      * apply list_find_None in Hfind.
        unfold joined in Hj. rewrite Hl in Hj. simpl in Hj.
        assert (forallb is_finished (workers st) = true) as Hall; [|congruence].
        apply forallb_forall. intros wk Hwk%list_elem_of_In.
        rewrite Forall_forall in Hfind. specialize (Hfind wk).
        destruct (is_finished wk); [done|]. exfalso. apply Hfind; [|done].
        by apply list_elem_of_In.
  - unfold launched in Hl. apply bool_decide_eq_false in Hl.
    exists Launch. cbn [step]. destruct (unlaunched st) as [|n]; [done|].
    destruct (processNext _ _) as [st1 wk]. by eexists.
Qed.

Lemma work_zero_joined o st : work o st = 0 → joined st = true.
Proof.
  unfold work, joined, launched. intros Hw.
  apply andb_true_iff. split; [apply bool_decide_eq_true; lia|].
  assert (sum_list (worker_cost o <$> workers st) = 0) as Hsum by lia.
  clear Hw. induction (workers st) as [|wk ws IH]; [done|].
  csimpl in *. destruct wk; simpl in *; try (exfalso; lia). apply IH. lia.
Qed.

(** A schedule that lets the batch continue often enough runs it to the
    end. *)
Lemma run_terminates o sched : ∀ st,
  work o st <= advances sched → ∃ st', run o sched st = Some st'.
Proof.
  induction sched as [|c sched IH]; intros st Hwork; simpl.
  - rewrite (work_zero_joined o st) by (unfold advances in Hwork; simpl in Hwork; lia).
    by eexists.
  - destruct (joined st) eqn:Hj; [by eexists|].
    destruct c as [w res|l r].
    + destruct (choose_enabled o st w res Hj) as (ev & st1 & -> & Hev & Hstep).
      rewrite Hstep. apply IH.
      apply step_work in Hstep. destruct ev; try done;
        unfold advances in *; simpl in *; lia.
    + cbn [choose]. destruct (step o (ObserverWrite l r) st) as [st1|] eqn:Hstep.
      * apply IH. apply step_work in Hstep. unfold advances in *. simpl in *. lia.
      * apply IH. unfold advances in *. simpl in *. lia.
Qed.

Lemma work_start P o urls :
  work o (start P o urls) = pool_size o + length urls * item_cost o.
Proof.
  unfold work, start. simpl_state.
  rewrite updateProgress_workers, updateProgress_requests_eq. simpl.
  rewrite length_seq, length_imap. lia.
Qed.

(** ** The observer's copies are its own *)

Lemma live_lookup st n l :
  requests st = seq 0 n → l < n → live st !! l = Some (deref st l).
Proof.
  intros Hreq Hl. unfold live. rewrite Hreq.
  change (map ?f ?k) with (f <$> k).
  by rewrite list_lookup_fmap, lookup_seq_lt.
Qed.

Lemma live_grow st n ext q a u ws dl ds :
  requests st = seq 0 n → n <= length (store st) →
  live (mkState (store st ++ ext) (requests st) q a u ws dl ds) = live st.
Proof.
  intros Hreq Hn. unfold live. simpl_state. rewrite Hreq.
  apply map_ext_in. intros l Hl%in_seq. apply store_grow. lia.
Qed.

Lemma live_write_other st n l r :
  requests st = seq 0 n → n <= l → live (write l r st) = live st.
Proof.
  intros Hreq Hl. unfold live. simpl_state. rewrite Hreq.
  apply map_ext_in. intros x Hx%in_seq. apply list_lookup_total_insert_ne. lia.
Qed.

Lemma same_view_refl n st :
  requests st = seq 0 n → n <= length (store st) → same_view n st st.
Proof. intros. by repeat split. Qed.

Lemma same_view_deref n st1 st2 item :
  same_view n st1 st2 → item < n → deref st2 item = deref st1 item.
Proof.
  intros (Hreq & Hn & Hreq2 & _ & _ & _ & _ & _ & _ & _ & Hlive) Hitem.
  pose proof (live_lookup st1 n item Hreq Hitem) as H1.
  pose proof (live_lookup st2 n item ltac:(by rewrite Hreq2) Hitem) as H2.
  rewrite Hlive in H2. congruence.
Qed.

Lemma same_view_write n st1 st2 item r :
  same_view n st1 st2 → item < n →
  same_view n (write item r st1) (write item r st2).
Proof.
  intros (Hreq & Hn & Hreq2 & Hq & Ha & Hu & Hw & Hdl & Hds & Hlen & Hlive) Hitem.
  repeat split; simpl_state; try done.
  - by rewrite length_insert.
  - by rewrite !length_insert.
  - pose proof (live_write st1 item r n Hreq Hitem Hn) as H1.
    pose proof (live_write st2 item r n ltac:(by rewrite Hreq2) Hitem ltac:(lia)) as H2.
    unfold write in H1, H2. by rewrite H1, H2, Hlive.
Qed.

Lemma same_view_updateProgress n ps o st1 st2 :
  same_view n st1 st2 →
  same_view n (updateProgress ps o st1) (updateProgress ps o st2).
Proof.
  intros (Hreq & Hn & Hreq2 & Hq & Ha & Hu & Hw & Hdl & Hds & Hlen & Hlive).
  unfold updateProgress. destruct (onProgress o); [|by repeat split].
  repeat split; simpl_state; try done.
  - rewrite length_app. lia.
  - by rewrite Hdl, Hlive, Hreq2, Hlen.
  - by rewrite !length_app, Hlen, Hlive.
  - rewrite (live_grow st1 n) by done.
    rewrite (live_grow st2 n) by (by rewrite ?Hreq2, ?Hlen). done.
Qed.

Lemma same_view_fields n st1 st2 q a u ws ds :
  same_view n st1 st2 →
  same_view n
    (mkState (store st1) (requests st1) q a u ws (delivered st1) ds)
    (mkState (store st2) (requests st2) q a u ws (delivered st2) ds).
Proof.
  intros (Hreq & Hn & Hreq2 & Hq & Ha & Hu & Hw & Hdl & Hds & Hlen & Hlive).
  by repeat split.
Qed.

(** [processNext] does the same in states that look the same. *)
Lemma same_view_processNext n o st1 st2 :
  same_view n st1 st2 → (∀ l, l ∈ queue st1 → l < n) →
  same_view n (fst (processNext o st1)) (fst (processNext o st2)) ∧
  snd (processNext o st2) = snd (processNext o st1).
Proof.
  intros Hsame Hqueue. pose proof Hsame as (_ & _ & _ & Hq & _).
  unfold processNext. rewrite Hq.
  destruct (queue st1) as [|item rest]; [done|].
  assert (item < n) as Hitem by (apply Hqueue; left).
  set (a1 := set_active _ (set_queue rest st1)).
  set (a2 := set_active _ (set_queue rest st2)).
  assert (same_view n a1 a2) as Ha.
  { subst a1 a2. pose proof Hsame as (_ & _ & _ & _ & Ha & Hu & Hw & _ & Hds & _).
    simpl_state. rewrite Ha, Hu, Hw, Hds. by apply same_view_fields. }
  rewrite (same_view_deref n a1 a2 item Ha Hitem).
  set (b1 := write item _ a1). set (b2 := write item _ a2).
  assert (same_view n b1 b2) as Hb by (by apply same_view_write).
  apply (same_view_updateProgress n running o) in Hb.
  set (c1 := updateProgress running o b1) in *.
  set (c2 := updateProgress running o b2) in *.
  assert (same_view n (log_dispatch item c1) (log_dispatch item c2)) as Hc.
  { pose proof Hb as (_ & _ & _ & Hq' & Ha' & Hu' & Hw' & _ & Hds' & _).
    unfold log_dispatch. rewrite Hq', Ha', Hu', Hw', Hds'. by apply same_view_fields. }
  rewrite (same_view_deref n _ _ item Hc Hitem).
  destruct (loop_head _ _ _) as [r k]. cbn [fst snd].
  split; [|done]. by apply same_view_write.
Qed.

Lemma same_view_set_unlaunched n st1 st2 u :
  same_view n st1 st2 → same_view n (set_unlaunched u st1) (set_unlaunched u st2).
Proof.
  intros Hsame. pose proof Hsame as (_ & _ & _ & Hq & Ha & _ & Hw & _ & Hds & _).
  unfold set_unlaunched. rewrite Hq, Ha, Hw, Hds. by apply same_view_fields.
Qed.

Lemma same_view_set_active n st1 st2 a :
  same_view n st1 st2 → same_view n (set_active a st1) (set_active a st2).
Proof.
  intros Hsame. pose proof Hsame as (_ & _ & _ & Hq & _ & Hu & Hw & _ & Hds & _).
  unfold set_active. rewrite Hq, Hu, Hw, Hds. by apply same_view_fields.
Qed.

Lemma same_view_set_workers n st1 st2 ws :
  same_view n st1 st2 → same_view n (set_workers ws st1) (set_workers ws st2).
Proof.
  intros Hsame. pose proof Hsame as (_ & _ & _ & Hq & Ha & Hu & _ & _ & Hds & _).
  unfold set_workers. rewrite Hq, Ha, Hu, Hds. by apply same_view_fields.
Qed.

Lemma same_view_launched n st1 st2 : same_view n st1 st2 → launched st2 = launched st1.
Proof. intros (_ & _ & _ & _ & _ & Hu & _). unfold launched. by rewrite Hu. Qed.

Lemma same_view_workers n st1 st2 : same_view n st1 st2 → workers st2 = workers st1.
Proof. by intros (_ & _ & _ & _ & _ & _ & Hw & _). Qed.

Lemma invariant_queue_lt P o urls st l :
  invariant P o urls st → l ∈ queue st → l < length urls.
Proof.
  intros Hinv. rewrite (inv_queue _ _ _ _ Hinv), elem_of_seq.
  pose proof (inv_dispatched_le _ _ _ _ Hinv). lia.
Qed.

Lemma invariant_item_lt P o urls st w wk item :
  invariant P o urls st → workers st !! w = Some wk → worker_item wk = Some item →
  item < length urls.
Proof.
  intros Hinv Hw Hitem.
  pose proof (worker_ok_dispatched _ _ _ _ (inv_workers _ _ _ _ Hinv _ _ Hw) Hitem).
  pose proof (inv_dispatched_le _ _ _ _ Hinv). lia.
Qed.

(** An event of the batch does the same in states that look the same. *)
Lemma same_view_step P o urls ev st1 st2 st1' :
  invariant P o urls st1 → same_view (length urls) st1 st2 →
  orchestrator_event ev → step o ev st1 = Some st1' →
  ∃ st2', step o ev st2 = Some st2' ∧ same_view (length urls) st1' st2'.
Proof.
  intros Hinv Hsame Hev Hstep.
  pose proof (same_view_launched _ _ _ Hsame) as Hl.
  pose proof (same_view_workers _ _ _ Hsame) as Hws.
  destruct ev as [|w res|w|w|l r]; [| | | |done]; cbn [step] in *; rewrite ?Hl, ?Hws.
  - pose proof Hsame as (_ & _ & _ & _ & _ & -> & _).
    destruct (unlaunched st1) as [|u]; [done|].
    destruct (same_view_processNext (length urls) o
                (set_unlaunched u st1) (set_unlaunched u st2)) as [Hv Hwk].
    { by apply same_view_set_unlaunched. }
    { intros l Hl'. by eapply invariant_queue_lt. }
    destruct (processNext o (set_unlaunched u st1)) as [a1 wk1].
    destruct (processNext o (set_unlaunched u st2)) as [a2 wk2].
    cbn [fst snd] in *. subst wk2. injection Hstep as <-.
    eexists. split; [reflexivity|].
    rewrite (same_view_workers _ _ _ Hv). by apply same_view_set_workers.
  - destruct (workers st1 !! w) as [[item lc| | |]|] eqn:Hw; try done.
    destruct (launched st1); [|done].
    pose proof (invariant_item_lt _ _ _ _ _ _ _ Hinv Hw eq_refl) as Hitem.
    rewrite (same_view_deref _ _ _ _ Hsame Hitem).
    destruct (after_downloadFile _ _ _ _) as [r k]. injection Hstep as <-.
    eexists. split; [reflexivity|].
    pose proof (same_view_write _ _ _ _ r Hsame Hitem) as Hv.
    unfold set_worker. rewrite (same_view_workers _ _ _ Hv).
    destruct k as [[lc1 ms]|]; by apply same_view_set_workers.
  - destruct (workers st1 !! w) as [[|item lc ms| |]|] eqn:Hw; try done.
    destruct (launched st1); [|done].
    pose proof (invariant_item_lt _ _ _ _ _ _ _ Hinv Hw eq_refl) as Hitem.
    rewrite (same_view_deref _ _ _ _ Hsame Hitem).
    destruct (loop_head _ _ _) as [r k]. injection Hstep as <-.
    eexists. split; [reflexivity|].
    pose proof (same_view_write _ _ _ _ r Hsame Hitem) as Hv.
    unfold set_worker. rewrite (same_view_workers _ _ _ Hv).
    destruct k as [lc1|]; by apply same_view_set_workers.
  - destruct (workers st1 !! w) as [[| |item|]|] eqn:Hw; try done.
    destruct (launched st1); [|done].
    unfold after_downloadWithRetry in *.
    pose proof (same_view_updateProgress _ running o _ _ Hsame) as Hv1.
    pose proof Hv1 as (_ & _ & _ & _ & Ha & _).
    rewrite Ha.
    apply (same_view_set_active _ _ _
             (active (updateProgress running o st1) - 1)%Z) in Hv1.
    set (b1 := set_active _ (updateProgress running o st1)) in *.
    set (b2 := set_active _ (updateProgress running o st2)) in *.
    pose proof Hv1 as (_ & _ & _ & Hq & _). rewrite Hq.
    destruct (queue b1) as [|item' rest] eqn:Hqb.
    + injection Hstep as <-. eexists. split; [reflexivity|].
      unfold set_worker. rewrite (same_view_workers _ _ _ Hv1).
      by apply same_view_set_workers.
    + destruct (same_view_processNext (length urls) o b1 b2 Hv1) as [Hv Hwk].
      { intros l Hl'. apply (invariant_queue_lt P o urls st1); [done|].
        subst b1. simpl_state. by rewrite updateProgress_queue in Hl'. }
      destruct (processNext o b1) as [a1 wk1].
      destruct (processNext o b2) as [a2 wk2].
      cbn [fst snd] in *. subst wk2. injection Hstep as <-.
      eexists. split; [reflexivity|].
      unfold set_worker. rewrite (same_view_workers _ _ _ Hv).
      by apply same_view_set_workers.
Qed.

(** A write of the observer leaves the orchestrator's view as it is. *)
Lemma same_view_observer_write P o urls st1 st2 l r st1' :
  invariant P o urls st1 → same_view (length urls) st1 st2 →
  step o (ObserverWrite l r) st1 = Some st1' →
  same_view (length urls) st1' st2.
Proof.
  intros Hinv (Hreq & Hn & Hreq2 & Hq & Ha & Hu & Hw & Hdl & Hds & Hlen & Hlive) Hstep.
  cbn [step] in Hstep. case_bool_decide as Hl; [|done]. injection Hstep as <-.
  apply (inv_observer _ _ _ _ Hinv) in Hl.
  repeat split; simpl_state; try done.
  - by rewrite length_insert.
  - by rewrite length_insert.
  - pose proof (live_write_other st1 (length urls) l r Hreq ltac:(lia)) as H1.
    unfold write in H1. by rewrite H1.
Qed.

Lemma same_view_joined n st1 st2 : same_view n st1 st2 → joined st2 = joined st1.
Proof.
  intros Hsame. unfold joined.
  by rewrite (same_view_launched _ _ _ Hsame), (same_view_workers _ _ _ Hsame).
Qed.

Lemma same_view_choose n st1 st2 c : same_view n st1 st2 → choose st2 c = choose st1 c.
Proof.
  intros Hsame. unfold choose, resume_event.
  by rewrite (same_view_launched _ _ _ Hsame), (same_view_workers _ _ _ Hsame).
Qed.

Lemma run_joined o sched st : joined st = true → run o sched st = Some st.
Proof. intros Hj. destruct sched; simpl; by rewrite Hj. Qed.

(** The batch runs the same whether or not the observer writes to the
    records it was handed. *)
Lemma same_view_run P o urls sched : ∀ st1 st2,
  reachable P o urls st1 → same_view (length urls) st1 st2 →
  match run o sched st1 with
  | Some a => ∃ b, run o (strip sched) st2 = Some b ∧ same_view (length urls) a b
  | None => run o (strip sched) st2 = None
  end.
Proof.
  induction sched as [|c sched IH]; intros st1 st2 Hreach Hsame.
  - simpl. rewrite (same_view_joined _ _ _ Hsame).
    destruct (joined st1); [by exists st2 | done].
  - cbn [run]. destruct (joined st1) eqn:Hj.
    { exists st2. split; [|done]. apply run_joined.
      by rewrite (same_view_joined _ _ _ Hsame). }
    pose proof (reachable_invariant _ _ _ _ Hreach) as Hinv.
    destruct c as [w res|l r].
    + cbn [strip List.filter is_advance run].
      rewrite (same_view_joined _ _ _ Hsame), Hj, (same_view_choose _ _ _ _ Hsame).
      destruct (choose_enabled o st1 w res Hj) as (ev & st1' & -> & Hev & Hstep).
      rewrite Hstep.
      destruct (same_view_step P o urls ev st1 st2 st1' Hinv Hsame Hev Hstep)
        as (st2' & -> & Hsame').
      apply IH; [|done]. by eapply reachable_step.
    + cbn [strip List.filter is_advance choose].
      destruct (step o (ObserverWrite l r) st1) as [st1'|] eqn:Hstep.
      * apply IH; [by eapply reachable_step|].
        by eapply same_view_observer_write.
      * by apply IH.
Qed.

Lemma filter_ext_elem {A} (P Q : A → Prop)
    `{!∀ x, Decision (P x)} `{!∀ x, Decision (Q x)} (l : list A) :
  (∀ x, x ∈ l → (P x ↔ Q x)) → filter P l = filter Q l.
Proof.
  induction l as [|x l IH]; intros Hall; [done|].
  rewrite !filter_cons.
  pose proof (Hall x ltac:(left)) as Hx.
  rewrite IH by (intros y Hy; apply Hall; by right).
  destruct (decide (P x)), (decide (Q x)); tauto || done.
Qed.

Lemma same_view_finish n o st1 st2 :
  same_view n st1 st2 →
  snd (finish o st2) = snd (finish o st1) ∧
  delivered (fst (finish o st2)) = delivered (fst (finish o st1)) ∧
  live (fst (finish o st2)) = live (fst (finish o st1)).
Proof.
  intros Hsame. apply (same_view_updateProgress n completed o) in Hsame.
  cbn [finish fst snd].
  set (a1 := updateProgress completed o st1) in *.
  set (a2 := updateProgress completed o st2) in *.
  pose proof Hsame as (Hreq & _ & Hreq2 & _ & _ & _ & _ & Hdl & _ & _ & Hlive).
  split; [|done].
  assert (∀ s, filter (fun l => has_status s (deref a2 l)) (requests a2) =
               filter (fun l => has_status s (deref a1 l)) (requests a1)) as Hf.
  { intros s. rewrite Hreq2. apply filter_ext_elem.
    intros l Hl. rewrite Hreq, elem_of_seq in Hl.
    by rewrite (same_view_deref n a1 a2 l Hsame) by lia. }
  by rewrite !Hf.
Qed.

Lemma updateProgress_keeps ps o st l :
  l < length (store st) →
  deref (updateProgress ps o st) l = deref st l ∧
  l < length (store (updateProgress ps o st)).
Proof.
  intros Hl. destruct (updateProgress_spec ps o st) as (ext & news & -> & _).
  simpl_state. split; [by apply store_grow | rewrite length_app; lia].
Qed.

Lemma processNext_keeps o st n l :
  (∀ x, x ∈ queue st → x < n) → n <= l < length (store st) →
  deref (fst (processNext o st)) l = deref st l.
Proof.
  intros Hqueue Hl. destruct (queue st) as [|item rest] eqn:Hq.
  - by rewrite processNext_nil.
  - assert (item < n) as Hitem by (apply Hqueue; left).
    destruct (processNext_cons o st item rest Hq ltac:(lia)) as (ext & news & -> & _).
    cbn [fst]. simpl_state. apply store_other; lia.
Qed.

(** The batch never writes to a record that the observer holds. *)
Lemma step_keeps_observer_records P o urls ev st st' l :
  invariant P o urls st → orchestrator_event ev → step o ev st = Some st' →
  l ∈ observer_locs st → deref st' l = deref st l.
Proof.
  intros Hinv Hev Hstep Hl. apply (inv_observer _ _ _ _ Hinv) in Hl.
  destruct ev as [|w res|w|w|l' r]; [| | | |done]; cbn [step] in Hstep.
  - destruct (unlaunched st) as [|u]; [done|].
    pose proof (processNext_keeps o (set_unlaunched u st) (length urls) l) as Hk.
    destruct (processNext o (set_unlaunched u st)) as [st1 wk].
    injection Hstep as <-. cbn [fst] in Hk. simpl_state. apply Hk; [|done].
    intros x Hx. by eapply invariant_queue_lt.
  - destruct (workers st !! w) as [[item lc| | |]|] eqn:Hw; try done.
    destruct (launched st); [|done].
    pose proof (invariant_item_lt _ _ _ _ _ _ _ Hinv Hw eq_refl) as Hitem.
    destruct (after_downloadFile _ _ _ _) as [r [[lc1 ms]|]]; injection Hstep as <-;
      simpl_state; apply list_lookup_total_insert_ne; lia.
  - destruct (workers st !! w) as [[|item lc ms| |]|] eqn:Hw; try done.
    destruct (launched st); [|done].
    pose proof (invariant_item_lt _ _ _ _ _ _ _ Hinv Hw eq_refl) as Hitem.
    destruct (loop_head _ _ _) as [r [lc1|]]; injection Hstep as <-;
      simpl_state; apply list_lookup_total_insert_ne; lia.
  - destruct (workers st !! w) as [[| |item|]|] eqn:Hw; try done.
    destruct (launched st); [|done].
    unfold after_downloadWithRetry in Hstep.
    destruct (updateProgress_keeps running o st l ltac:(lia)) as [Hd Hlen].
    set (st2 := set_active _ _) in *.
    assert (deref st2 l = deref st l ∧ l < length (store st2) ∧ queue st2 = queue st)
      as (Hd2 & Hlen2 & Hq2).
    { subst st2. simpl_state. by rewrite updateProgress_queue. }
    destruct (queue st2) as [|item' rest] eqn:Hq.
    + injection Hstep as <-. by simpl_state.
    + pose proof (processNext_keeps o st2 (length urls) l) as Hk.
      destruct (processNext o st2) as [st3 wk].
      injection Hstep as <-. cbn [fst] in Hk. simpl_state. rewrite <- Hd2. apply Hk; [|lia].
      intros x Hx. apply (invariant_queue_lt P o urls st); [done|].
      by rewrite <- Hq2, <- Hq.
Qed.

(** C9: the observer's snapshots are copies.  The records a snapshot lists
    are never live records; whatever the observer writes to them, at any
    time, the batch runs as it would have run without: the live records, the
    later snapshots as delivered and the final result are the same; and the
    batch itself never changes a record the observer holds. *)
Theorem snapshot_isolation P urls options :
  (∀ st l, reachable P (mergeOptions options) urls st → l ∈ observer_locs st →
     (l ∉ requests st) ∧ l < length (store st)) ∧
  (∀ st l r st', reachable P (mergeOptions options) urls st →
     step (mergeOptions options) (ObserverWrite l r) st = Some st' →
     live st' = live st ∧ delivered st' = delivered st ∧
     snd (finish (mergeOptions options) st') = snd (finish (mergeOptions options) st)) ∧
  (∀ sched,
     match runDownloadTask P urls options sched,
           runDownloadTask P urls options (strip sched) with
     | Some (st1, res1), Some (st2, res2) =>
         res2 = res1 ∧ delivered st2 = delivered st1 ∧ live st2 = live st1
     | None, None => True
     | _, _ => False
     end) ∧
  (∀ st ev st' l, reachable P (mergeOptions options) urls st →
     orchestrator_event ev → step (mergeOptions options) ev st = Some st' →
     l ∈ observer_locs st → deref st' l = deref st l).
Proof.
  set (o := mergeOptions options). split; [|split; [|split]].
  - intros st l Hreach Hl.
    pose proof (reachable_invariant _ _ _ _ Hreach) as Hinv.
    apply (inv_observer _ _ _ _ Hinv) in Hl.
    rewrite (inv_requests _ _ _ _ Hinv), elem_of_seq. lia.
  - intros st l r st' Hreach Hstep.
    pose proof (reachable_invariant _ _ _ _ Hreach) as Hinv.
    pose proof (same_view_refl (length urls) st (inv_requests _ _ _ _ Hinv)
                  (inv_store _ _ _ _ Hinv)) as Hsame.
    pose proof (same_view_observer_write _ _ _ _ _ _ _ _ Hinv Hsame Hstep) as Hsame'.
    destruct (same_view_finish _ o _ _ Hsame') as (Hres & _ & _).
    destruct Hsame' as (_ & _ & _ & _ & _ & _ & _ & Hdl & _ & _ & Hlive).
    by rewrite Hres, Hdl, Hlive.
  - intros sched. unfold runDownloadTask, runDownloadTask_ending.
    destruct urls as [|u0 urls0]; [done|].
    set (urls := u0 :: urls0) in *. cbv zeta. fold o.
    destruct (array_length (concurrency o)); [|done].
    pose proof (reachable_start P o urls) as Hreach.
    pose proof (reachable_invariant _ _ _ _ Hreach) as Hinv.
    pose proof (same_view_run P o urls sched _ _ Hreach
                  (same_view_refl (length urls) _ (inv_requests _ _ _ _ Hinv)
                     (inv_store _ _ _ _ Hinv))) as Hrun.
    destruct (run o sched (start P o urls)) as [a|].
    + destruct Hrun as (b & -> & Hsame).
      destruct (same_view_finish _ o _ _ Hsame) as (Hres & Hdl & Hlive).
      destruct (finish o a) as [a' res1], (finish o b) as [b' res2].
      by cbn [fst snd] in *.
    + by rewrite Hrun.
  - intros st ev st' l Hreach Hev Hstep Hl.
    eapply step_keeps_observer_records; try done. by apply reachable_invariant.
Qed.

Lemma snapshot_isolation_witness :
  match runDownloadTask sample_platform sample_urls sample_task sample_schedule,
        runDownloadTask sample_platform sample_urls sample_task (strip sample_schedule) with
  | Some (st1, res1), Some (st2, res2) =>
      res2 = res1 ∧ delivered st2 = delivered st1 ∧ live st2 = live st1
  | None, None => True
  | _, _ => False
  end.
Proof.
  apply (snapshot_isolation sample_platform sample_urls sample_task).
Defined.

(** ** Records in a final state stay as they are *)

Lemma extends_refl rs : extends rs rs.
Proof. by split. Qed.

Lemma extends_trans rs1 rs2 rs3 : extends rs1 rs2 → extends rs2 rs3 → extends rs1 rs3.
Proof.
  intros [Hl1 H1] [Hl2 H2]. split; [congruence|].
  intros i r Hi Ht. apply H2; [|done]. by apply H1.
Qed.

Lemma extends_insert rs i r :
  (∀ r0, rs !! i = Some r0 → ¬ terminal r0) → extends rs (<[i := r]> rs).
Proof.
  intros Hi. split; [by rewrite length_insert|].
  intros j r' Hj Ht. destruct (decide (j = i)) as [->|Hne].
  - by destruct (Hi _ Hj).
  - by rewrite list_lookup_insert_ne.
Qed.

Lemma extends_cons r r' rs rs' :
  extends (r :: rs) (r' :: rs') → (terminal r → r' = r) ∧ extends rs rs'.
Proof.
  intros [Hlen H]. split.
  - intros Ht. specialize (H 0 r eq_refl Ht). by injection H.
  - split; [simpl in Hlen; lia|]. intros i x Hi Ht. by apply (H (S i)).
Qed.

(** The number of records in a given final state does not go down. *)
Lemma extends_count s rs : ∀ rs',
  s = success ∨ s = failed → extends rs rs' →
  length (filter (has_status s) rs) <= length (filter (has_status s) rs').
Proof.
  induction rs as [|r rs IH]; intros rs' Hs Hext; [simpl; lia|].
  destruct rs' as [|r' rs']; [by destruct Hext|].
  apply extends_cons in Hext as [Hhead Htail].
  specialize (IH _ Hs Htail). rewrite !filter_cons.
  destruct (decide (has_status s r)) as [Hr|Hr].
  - rewrite Hhead; [|unfold terminal, has_status in *; destruct Hs; subst s; tauto].
    rewrite decide_True by done. simpl. lia.
  - destruct (decide (has_status s r')); simpl; lia.
Qed.

Lemma live_fields st st' :
  store st' = store st → requests st' = requests st → live st' = live st.
Proof. unfold live, deref. by intros -> ->. Qed.

Lemma extends_live_write st item r n :
  requests st = seq 0 n → item < n → n <= length (store st) →
  ¬ terminal (deref st item) →
  extends (live st) (live (write item r st)).
Proof.
  intros Hreq Hitem Hn Hnt. rewrite (live_write st item r n) by done.
  apply extends_insert. intros r0 Hr0.
  rewrite (live_lookup st n) in Hr0 by done. by injection Hr0 as <-.
Qed.

Lemma identified_live P o urls st :
  invariant P o urls st → identified P urls (live st).
Proof.
  intros Hinv i u Hu. exists (deref st i).
  rewrite (live_lookup st (length urls)).
  - by destruct (inv_records _ _ _ _ Hinv _ _ Hu) as (? & ? & ? & _).
  - apply (inv_requests _ _ _ _ Hinv).
  - by apply lookup_lt_Some in Hu.
Qed.

Lemma identified_insert P urls rs i r0 r :
  identified P urls rs → rs !! i = Some r0 →
  id r = id r0 → url r = url r0 → filename r = filename r0 →
  identified P urls (<[i := r]> rs).
Proof.
  intros Hid Hi H1 H2 H3 j u Hu. destruct (Hid _ _ Hu) as (rj & Hj & ? & ? & ?).
  destruct (decide (j = i)) as [->|Hne].
  - exists r. rewrite list_lookup_insert_eq by (by apply lookup_lt_Some in Hi).
    assert (rj = r0) as -> by congruence. repeat split; congruence.
  - exists rj. by rewrite list_lookup_insert_ne.
Qed.

Lemma loop_head_identity o lc r :
  id (fst (loop_head o lc r)) = id r ∧ url (fst (loop_head o lc r)) = url r ∧
  filename (fst (loop_head o lc r)) = filename r.
Proof. unfold loop_head. by destruct (_ <=? _)%Z. Qed.

Lemma live_updateProgress P o urls ps st :
  invariant P o urls st → live (updateProgress ps o st) = live st.
Proof.
  intros Hinv. destruct (updateProgress_spec ps o st) as (ext & news & -> & _).
  apply (live_grow st (length urls));
    [apply (inv_requests _ _ _ _ Hinv) | apply (inv_store _ _ _ _ Hinv)].
Qed.

(** What a call of [processNext] shows the observer, and how it leaves the
    live records. *)
Lemma processNext_history P o urls st :
  invariant P o urls st →
  ∃ news Y,
    delivered (fst (processNext o st)) = delivered st ++ news ∧
    Forall (fun d => seen d = Y) news ∧
    extends (live st) Y ∧ extends Y (live (fst (processNext o st))) ∧
    identified P urls Y.
Proof.
  intros Hinv.
  pose proof Hinv as [Hreq Hsto Hdis Hque Hle Hpool Hwk Hdist Hrec Hobs Hdel Hseen].
  destruct (queue st) as [|item rest] eqn:Hq.
  - rewrite processNext_nil by done. exists [], (live st). cbn [fst].
    rewrite app_nil_r.
    split; [done|]. split; [done|]. split; [apply extends_refl|].
    split; [apply extends_refl | by eapply identified_live].
  - symmetry in Hque. apply seq_cons_inv in Hque as (-> & -> & Hpos).
    set (q := length (dispatched st)) in *.
    destruct (processNext_cons o st q _ Hq ltac:(lia))
      as (ext & news & -> & _ & _ & Hseen').
    destruct (lookup_lt_is_Some_2 urls q ltac:(lia)) as [u Hu].
    pose proof (Hrec _ _ Hu) as (_ & _ & _ & Hst).
    assert (status (deref st q) = pending) as Hpend.
    { destruct (status (deref st q)); [done | | |];
        destruct Hst as [? _]; unfold q in *; lia. }
    set (r0 := set_status downloading (deref st q)) in *.
    set (r1 := fst (loop_head o fresh_locals r0)).
    exists news, (live (write q r0 st)). cbn [fst delivered].
    assert (live (mkState (<[q:=r1]> (store st) ++ ext) (requests st)
              (seq (S q) (length urls - q - 1)) (active st + 1) (unlaunched st)
              (workers st) (delivered st ++ news) (dispatched st ++ [q]))
            = <[q := r1]> (live (write q r0 st))) as ->.
    { rewrite (live_write st q r0 (length urls)) by (done || lia).
      rewrite list_insert_insert_eq.
      rewrite <- (live_write st q r1 (length urls)) by (done || lia).
      apply (live_grow (write q r1 st) (length urls)); [done|].
      simpl_state. by rewrite length_insert. }
    split; [done|]. split; [done|]. split; [|split].
    + apply (extends_live_write st q r0 (length urls)); try done; try lia.
      unfold terminal. rewrite Hpend. by intros [|].
    + apply extends_insert. intros r Hr.
      rewrite (live_write st q r0 (length urls)) in Hr by (done || lia).
      rewrite list_lookup_insert_eq in Hr by (rewrite length_live, Hreq, length_seq; lia).
      injection Hr as <-. unfold terminal, r0. unfold_setters. by intros [|].
    + rewrite (live_write st q r0 (length urls)) by (done || lia).
      eapply (identified_insert _ _ _ _ (deref st q));
        [by eapply identified_live | | done | done | done].
      apply (live_lookup st (length urls)); [done | lia].
Qed.

Lemma after_downloadWithRetry_processNext o st :
  after_downloadWithRetry o st =
  processNext o (set_active (active (updateProgress running o st) - 1)%Z
                   (updateProgress running o st)).
Proof.
  unfold after_downloadWithRetry. set (st2 := set_active _ _).
  destruct (queue st2) eqn:Hq; [by rewrite processNext_nil | done].
Qed.

(** What a step shows the observer, and how it leaves the live records. *)
Lemma step_history P o urls ev st st' :
  invariant P o urls st → step o ev st = Some st' →
  ∃ news1 news2 Y,
    delivered st' = delivered st ++ news1 ++ news2 ∧
    Forall (fun d => seen d = live st) news1 ∧
    Forall (fun d => seen d = Y) news2 ∧
    extends (live st) Y ∧ extends Y (live st') ∧ identified P urls Y.
Proof.
  intros Hinv Hstep.
  pose proof (inv_requests _ _ _ _ Hinv) as Hreq.
  pose proof (inv_store _ _ _ _ Hinv) as Hsto.
  assert (∀ w item r wk, workers st !! w = Some wk → busy_item wk = Some item →
            ∃ news1 news2 Y,
              delivered st = delivered st ++ news1 ++ news2 ∧
              Forall (fun d => seen d = live st) news1 ∧
              Forall (fun d => seen d = Y) news2 ∧
              extends (live st) Y ∧ extends Y (live (write item r st)) ∧
              identified P urls Y) as Hretry.
  { intros w item r wk Hw Hb. exists [], [], (live st).
    rewrite !app_nil_r.
    split; [done|]. split; [done|]. split; [done|]. split; [apply extends_refl|].
    split; [|by eapply identified_live].
    apply (extends_live_write st item r (length urls)); try done.
    - apply (invariant_item_lt P o urls st w wk item Hinv Hw).
      by apply busy_item_worker_item.
    - pose proof (inv_workers _ _ _ _ Hinv _ _ Hw) as Hok.
      unfold terminal. destruct wk; try done; simpl in Hb; injection Hb as ->;
        destruct Hok as (_ & -> & _); by intros [|]. }
  destruct ev as [|w res|w|w|l r]; cbn [step] in Hstep.
  - destruct (unlaunched st) as [|n] eqn:Hn; [done|].
    pose proof (inv_pool _ _ _ _ Hinv) as Hpool. rewrite Hn in Hpool.
    apply (invariant_irrelevant _ _ _ _ (active st) n) in Hinv; [|lia].
    change (mkState _ _ _ _ _ _ _ _) with (set_unlaunched n st) in Hinv.
    destruct (processNext_history _ _ _ _ Hinv) as (news & Y & Hd & Hs & H1 & H2 & H3).
    destruct (processNext o (set_unlaunched n st)) as [st1 wk].
    injection Hstep as <-. cbn [fst] in *.
    exists [], news, Y. by repeat (split; [done|]).
  - destruct (workers st !! w) as [[item lc| | |]|] eqn:Hw; try done.
    destruct (launched st); [|done].
    destruct (after_downloadFile _ _ _ _) as [r k].
    destruct (Hretry w item r _ Hw eq_refl) as (n1 & n2 & Y & ?).
    exists n1, n2, Y. destruct k as [[lc1 ms]|]; by injection Hstep as <-.
  - destruct (workers st !! w) as [[|item lc ms| |]|] eqn:Hw; try done.
    destruct (launched st); [|done].
    destruct (loop_head _ _ _) as [r k].
    destruct (Hretry w item r _ Hw eq_refl) as (n1 & n2 & Y & ?).
    exists n1, n2, Y. destruct k as [lc1|]; by injection Hstep as <-.
  - destruct (workers st !! w) as [[| |item|]|] eqn:Hw; try done.
    destruct (launched st); [|done].
    rewrite after_downloadWithRetry_processNext in Hstep.
    set (st2 := set_active _ _) in *.
    pose proof (inv_pool _ _ _ _ Hinv) as Hpool.
    assert (invariant P o urls st2) as Hinv2.
    { pose proof (invariant_updateProgress P o urls running st Hinv) as H1.
      apply (invariant_irrelevant _ _ _ _
               (active (updateProgress running o st) - 1)%Z
               (unlaunched (updateProgress running o st))) in H1; [done|].
      by rewrite updateProgress_workers, updateProgress_unlaunched. }
    assert (live st2 = live st) as Hlive2.
    { by apply (live_updateProgress P o urls running st). }
    destruct (updateProgress_spec running o st)
      as (ext & news1 & Hup & _ & _ & Hs1 & _).
    assert (delivered st2 = delivered st ++ news1) as Hd2.
    { subst st2. simpl_state. by rewrite Hup. }
    destruct (processNext_history _ _ _ _ Hinv2) as (news & Y & Hd & Hs & H1 & H2 & H3).
    destruct (processNext o st2) as [st3 wk].
    injection Hstep as <-. cbn [fst] in *.
    exists news1, news, Y. rewrite <- Hlive2.
    split; [|split; [|done]].
    + simpl_state. by rewrite Hd, Hd2, app_assoc.
    + by rewrite Hlive2.
  - case_bool_decide as Hl; [|done]. injection Hstep as <-.
    apply (inv_observer _ _ _ _ Hinv) in Hl.
    exists [], [], (live st). rewrite !app_nil_r.
    rewrite (live_write_other st (length urls)) by (done || lia).
    split; [done|]. split; [done|]. split; [done|]. split; [apply extends_refl|].
    split; [apply extends_refl | by eapply identified_live].
Qed.

Lemma history_weaken ds rs rs' : history ds rs → extends rs rs' → history ds rs'.
Proof.
  intros [Hall Hpair] Hext. split; [|done].
  eapply Forall_impl; [|exact Hall]. intros d Hd. exact (extends_trans _ _ _ Hd Hext).
Qed.

Lemma history_app ds news rs :
  history ds rs → Forall (fun d => seen d = rs) news → history (ds ++ news) rs.
Proof.
  intros [Hall Hpair] Hnews. split.
  - apply Forall_app. split; [done|].
    eapply Forall_impl; [|exact Hnews]. intros d Hd. simpl in Hd. rewrite Hd.
    apply extends_refl.
  - rewrite Forall_lookup in Hall. rewrite Forall_lookup in Hnews.
    intros i j di dj Hij
      [Hi|[Hi1 Hi2]]%lookup_app_Some [Hj|[Hj1 Hj2]]%lookup_app_Some.
    + by eapply Hpair.
    + rewrite (Hnews _ _ Hj2). by eapply Hall.
    + apply lookup_lt_Some in Hj. lia.
    + rewrite (Hnews _ _ Hi2), (Hnews _ _ Hj2). apply extends_refl.
Qed.

(** The snapshots are in the order of time and show the requests of the
    batch, in every state of an execution. *)
Lemma reachable_history P o urls st :
  reachable P o urls st →
  history (delivered st) (live st) ∧
  Forall (fun d => identified P urls (seen d)) (delivered st).
Proof.
  induction 1 as [|st ev st' Hreach [IH1 IH2] Hstep].
  - pose proof (invariant_start P o urls) as Hinv.
    unfold start in *. cbv zeta in *.
    set (st0 := mkState _ _ _ _ _ _ _ _) in *.
    destruct (updateProgress_spec idle o st0) as (ext & news & Hup & _ & _ & Hs & _).
    assert (live (set_unlaunched (pool_size o)
                    (set_queue (requests (updateProgress idle o st0))
                       (updateProgress idle o st0))) = live st0) as Hlive.
    { rewrite Hup. apply (live_grow st0 (length (imap (newRequest P) urls))); [done|].
      subst st0. simpl. done. }
    assert (identified P urls (live st0)) as Hid.
    { rewrite <- Hlive. by eapply identified_live. }
    rewrite Hlive. simpl_state. rewrite Hup. cbn [delivered]. split.
    + apply (history_app [] news); [|done]. split; [done|]. by intros i j di dj _ ?.
    + eapply Forall_impl; [|exact Hs]. intros d Hd. simpl in Hd. by rewrite Hd.
  - pose proof (reachable_invariant _ _ _ _ Hreach) as Hinv.
    destruct (step_history _ _ _ _ _ _ Hinv Hstep)
      as (news1 & news2 & Y & -> & Hs1 & Hs2 & H1 & H2 & H3).
    split.
    + rewrite app_assoc. eapply history_weaken; [|exact H2].
      apply history_app; [|done]. eapply history_weaken; [|exact H1].
      by apply history_app.
    + rewrite !Forall_app. split; [done|]. split.
      * eapply Forall_impl; [|exact Hs1]. intros d Hd. simpl in Hd. rewrite Hd.
        by eapply identified_live.
      * eapply Forall_impl; [|exact Hs2]. intros d Hd. simpl in Hd. by rewrite Hd.
Qed.

Lemma replay_reachable P o urls evs : ∀ st st',
  reachable P o urls st → replay o evs st = Some st' → reachable P o urls st'.
Proof.
  induction evs as [|ev evs IH]; intros st st' Hreach Hrep; simpl in Hrep.
  - by injection Hrep as <-.
  - destruct (step o ev st) as [st1|] eqn:Hstep; [|done].
    apply (IH st1); [|done]. by eapply reachable_step.
Qed.

Lemma replay_extends P o urls evs : ∀ st st',
  reachable P o urls st → replay o evs st = Some st' →
  extends (live st) (live st').
Proof.
  induction evs as [|ev evs IH]; intros st st' Hreach Hrep; simpl in Hrep.
  - injection Hrep as <-. apply extends_refl.
  - destruct (step o ev st) as [st1|] eqn:Hstep; [|done].
    pose proof (reachable_invariant _ _ _ _ Hreach) as Hinv.
    destruct (step_history _ _ _ _ _ _ Hinv Hstep)
      as (_ & _ & Y & _ & _ & _ & H1 & H2 & _).
    apply (extends_trans _ _ _ (extends_trans _ _ _ H1 H2)).
    apply (IH st1); [|done]. by eapply reachable_step.
Qed.

(** ** The bookkeeping of a batch *)

Lemma length_omap_insert {A B} (f : A → option B) (l : list A) i old new :
  l !! i = Some old →
  length (omap f (<[i := new]> l)) + match f old with Some _ => 1 | None => 0 end =
  length (omap f l) + match f new with Some _ => 1 | None => 0 end.
Proof.
  revert i. induction l as [|y l IH]; intros i Hi; [done|].
  destruct i as [|i]; csimpl in *.
  - injection Hi as ->. destruct (f old), (f new); simpl; lia.
  - specialize (IH _ Hi). destruct (f y); simpl; lia.
Qed.

Lemma length_omap_snoc {A B} (f : A → option B) (l : list A) x :
  length (omap f (l ++ [x])) =
  length (omap f l) + match f x with Some _ => 1 | None => 0 end.
Proof. rewrite omap_app, length_app. csimpl. by destruct (f x). Qed.

Lemma statuses_snoc st k ds :
  statuses st = idle :: repeat running k →
  Forall (fun d => Progress.status (snapshot d) = running) ds →
  map (fun d => Progress.status (snapshot d)) (delivered st ++ ds) =
  idle :: repeat running (k + length ds).
Proof.
  unfold statuses. intros Hst Hds. rewrite map_app, Hst. simpl. f_equal.
  rewrite repeat_app. f_equal.
  induction Hds as [|d ds Hd _ IH]; [done|]. simpl. by rewrite Hd, IH.
Qed.

Lemma updateProgress_ledger ps o st :
  workers (updateProgress ps o st) = workers st ∧
  queue (updateProgress ps o st) = queue st ∧
  active (updateProgress ps o st) = active st ∧
  dispatched (updateProgress ps o st) = dispatched st ∧
  if onProgress o
  then ∃ d, delivered (updateProgress ps o st) = delivered st ++ [d] ∧
            Progress.status (snapshot d) = ps ∧ seen d = live st
  else delivered (updateProgress ps o st) = delivered st ∧
       length (store (updateProgress ps o st)) = length (store st).
Proof.
  unfold updateProgress. destruct (onProgress o); simpl_state; [|done].
  repeat split. by eexists.
Qed.

(** The part of [processNext] that the bookkeeping depends on. *)
Lemma processNext_ledger o st :
  workers (fst (processNext o st)) = workers st ∧
  match queue st with
  | [] => processNext o st = (st, Finished)
  | item :: _ =>
      active (fst (processNext o st)) = (active st + 1)%Z ∧
      dispatched (fst (processNext o st)) = dispatched st ++ [item] ∧
      worker_item (snd (processNext o st)) = Some item ∧
      if onProgress o
      then ∃ d, delivered (fst (processNext o st)) = delivered st ++ [d] ∧
                Progress.status (snapshot d) = running
      else delivered (fst (processNext o st)) = delivered st ∧
           length (store (fst (processNext o st))) = length (store st)
  end.
Proof.
  split; [apply processNext_workers|].
  unfold processNext. destruct (queue st) as [|item rest]; [done|].
  set (st3 := write item _ _).
  destruct (updateProgress_ledger running o st3) as (_ & _ & Ha & Hd & Hobs).
  set (st4 := updateProgress running o st3) in *.
  destruct (loop_head _ _ _) as [r k]. cbn [fst snd].
  unfold write, log_dispatch.
  cbn [active dispatched delivered store].
  rewrite Ha, Hd.
  split; [done|]. split; [done|]. split; [by destruct k|].
  destruct (onProgress o).
  - destruct Hobs as (d & -> & Hps & _). by exists d.
  - destruct Hobs as [-> Hlen]. split; [done|].
    rewrite length_insert, Hlen. subst st3. simpl_state. by rewrite length_insert.
Qed.

Lemma ledger_start P o urls : ledger o (length urls) (start P o urls).
Proof.
  unfold start, updateProgress. destruct (onProgress o) eqn:Hobs.
  - split; unfold held, statuses; simpl_state; [done|]. rewrite Hobs. simpl.
    split; [done|]. by exists 0.
  - split; unfold held, statuses; simpl_state; [done|]. rewrite Hobs. simpl.
    by rewrite length_imap.
Qed.

Lemma ledger_step o n ev st st' :
  ledger o n st → step o ev st = Some st' → ledger o n st'.
Proof.
  intros [Hact Hcalls] Hstep. unfold held in *.
  assert (∀ w wk wk' item r, workers st !! w = Some wk →
            is_Some (worker_item wk) → is_Some (worker_item wk') →
            ledger o n (set_worker w wk' (write item r st))) as Hretry.
  { intros w wk wk' item r Hw [x Hx] [y Hy].
    pose proof (length_omap_insert worker_item _ _ _ wk' Hw) as Hlen.
    rewrite Hx, Hy in Hlen.
    split; unfold held, statuses in *; simpl_state.
    - lia.
    - destruct (onProgress o); [|by rewrite length_insert].
      destruct Hcalls as [Hc Hs]. split; [lia | done]. }
  destruct ev as [|w res|w|w|l r]; cbn [step] in Hstep.
  - destruct (unlaunched st) as [|u] eqn:Hu; [done|].
    destruct (processNext_ledger o (set_unlaunched u st)) as [Hws Hpn].
    destruct (processNext o (set_unlaunched u st)) as [st1 wk] eqn:Heq.
    injection Hstep as <-. cbn [fst snd] in *.
    change (queue (set_unlaunched u st)) with (queue st) in Hpn.
    change (workers (set_unlaunched u st)) with (workers st) in Hws.
    destruct (queue st) as [|item rest].
    + injection Hpn as -> ->.
      split; unfold held, statuses; simpl_state; rewrite length_omap_snoc; simpl.
      * lia.
      * destruct (onProgress o); [|done]. destruct Hcalls as [Hc Hs].
        split; [lia | done].
    + destruct Hpn as (Ha & Hd & Hi & Hobs).
      split; unfold held, statuses; simpl_state;
        rewrite length_omap_snoc, Hi, Hws; simpl.
      * rewrite Ha. simpl. lia.
      * destruct (onProgress o).
        -- destruct Hobs as (d & -> & Hrun). destruct Hcalls as [Hc [k Hs]].
           rewrite Hd, !length_app. simpl. split; [lia|].
           exists (k + 1). apply (statuses_snoc st k [d]); [done|].
           by apply Forall_singleton.
        -- destruct Hobs as [-> ->]. done.
  - destruct (workers st !! w) as [[item lc| | |]|] eqn:Hw; try done.
    destruct (launched st); [|done].
    destruct (after_downloadFile _ _ _ _) as [r [[lc1 ms]|]];
      injection Hstep as <-; eapply Hretry; by eauto.
  - destruct (workers st !! w) as [[|item lc ms| |]|] eqn:Hw; try done.
    destruct (launched st); [|done].
    destruct (loop_head _ _ _) as [r [lc1|]];
      injection Hstep as <-; eapply Hretry; by eauto.
  - destruct (workers st !! w) as [[| |item|]|] eqn:Hw; try done.
    destruct (launched st); [|done].
    rewrite after_downloadWithRetry_processNext in Hstep.
    set (st2 := set_active _ _) in *.
    destruct (updateProgress_ledger running o st) as (Hw1 & Hq1 & Ha1 & Hd1 & Hobs1).
    destruct (processNext_ledger o st2) as [Hws Hpn].
    destruct (processNext o st2) as [st3 wk] eqn:Heq.
    injection Hstep as <-. cbn [fst snd] in *.
    assert (workers st2 = workers st ∧ queue st2 = queue st ∧
            active st2 = (active st - 1)%Z ∧ dispatched st2 = dispatched st ∧
            delivered st2 = delivered (updateProgress running o st) ∧
            store st2 = store (updateProgress running o st))
      as (Hw2 & Hq2 & Ha2 & Hd2 & Hdel2 & Hsto2).
    { subst st2. simpl_state. by rewrite Ha1. }
    rewrite Hw2 in Hws. rewrite Hq2 in Hpn.
    pose proof (length_omap_insert worker_item _ _ _ wk Hw) as Hlen.
    simpl in Hlen.
    destruct (queue st) as [|item' rest].
    + injection Hpn as -> ->. simpl in Hlen.
      split; unfold held, statuses; simpl_state; rewrite Hw2.
      * lia.
      * rewrite Hdel2, Hd2, Hsto2. destruct (onProgress o).
        -- destruct Hobs1 as (d & -> & Hps & _).
           destruct Hcalls as [Hc [k Hs]]. rewrite length_app. simpl.
           split; [lia|]. exists (k + 1).
           apply (statuses_snoc st k [d]); [done|]. by apply Forall_singleton.
        -- destruct Hobs1 as [-> ->]. done.
    + destruct Hpn as (Ha & Hd & Hi & Hobs). rewrite Hi in Hlen.
      split; unfold held, statuses; simpl_state; rewrite Hws.
      * lia.
      * destruct (onProgress o).
        -- destruct Hobs1 as (d1 & Hdel1 & Hps & _).
           destruct Hobs as (d & -> & Hrun). destruct Hcalls as [Hc [k Hs]].
           rewrite Hd, Hd2, Hdel2, Hdel1, !length_app. simpl. split; [lia|].
           exists (k + 2). rewrite <- app_assoc.
           apply (statuses_snoc st k [d1; d]); [done|].
           by repeat constructor.
        -- destruct Hobs as [-> ->]. rewrite Hdel2, Hsto2.
           by destruct Hobs1 as [-> ->].
  - case_bool_decide; [|done]. injection Hstep as <-.
    split; unfold held, statuses in *; simpl_state; [done|].
    destruct (onProgress o); [done|]. by rewrite length_insert.
Qed.

Lemma reachable_ledger P o urls st :
  reachable P o urls st → ledger o (length urls) st.
Proof.
  induction 1 as [|st ev st' _ IH Hstep]; [apply ledger_start|].
  by eapply ledger_step.
Qed.

Lemma joined_held st : joined st = true → held st = 0.
Proof.
  intros Hj. unfold held.
  assert (∀ ws, (∀ w wk, ws !! w = Some wk → wk = Finished) →
                omap worker_item ws = []) as Hall.
  { induction ws as [|wk ws IH]; intros Hws; [done|]. csimpl.
    rewrite (Hws 0 wk eq_refl). simpl. apply IH. intros w wk'. apply (Hws (S w)). }
  rewrite Hall; [done|]. intros w wk. by apply joined_finished.
Qed.

(** ** Properties of the course of a batch *)

(** X1: once a request has reached [success] or [failed], nothing that
    happens later in the batch changes its record: no event of the batch
    and no write of the observer. *)
Theorem settled_request_frozen P o urls evs st st' l :
  reachable P o urls st → replay o evs st = Some st' → l < length urls →
  terminal (deref st l) → deref st' l = deref st l.
Proof.
  intros Hreach Hrep Hl Ht.
  destruct (replay_extends _ _ _ _ _ _ Hreach Hrep) as [_ Hext].
  pose proof (reachable_invariant _ _ _ _ Hreach) as Hinv.
  pose proof (reachable_invariant _ _ _ _ (replay_reachable _ _ _ _ _ _ Hreach Hrep))
    as Hinv'.
  specialize (Hext l (deref st l)).
  rewrite (live_lookup st (length urls)) in Hext
    by (done || apply (inv_requests _ _ _ _ Hinv)).
  rewrite (live_lookup st' (length urls)) in Hext
    by (done || apply (inv_requests _ _ _ _ Hinv')).
  specialize (Hext eq_refl Ht). by injection Hext.
Qed.

Lemma settled_request_frozen_witness :
  ∃ st st',
    replay sample_options sample_events
      (start sample_platform sample_options sample_urls) = Some st ∧
    replay sample_options sample_later_events st = Some st' ∧
    status (deref st 0) = success ∧ status (deref st' 1) = success ∧
    deref st' 0 = deref st 0.
Proof.
  destruct (replay sample_options sample_events
              (start sample_platform sample_options sample_urls)) as [st|] eqn:H1;
    [|vm_compute in H1; discriminate].
  exists st.
  assert (reachable sample_platform sample_options sample_urls st) as Hreach.
  { eapply replay_reachable; [apply reachable_start | exact H1]. }
  vm_compute in H1. injection H1 as <-.
  match goal with |- context [replay ?o ?evs ?s] =>
    destruct (replay o evs s) as [st'|] eqn:H2; [|vm_compute in H2; discriminate]
  end.
  exists st'. split; [done|]. split; [done|]. split; [done|]. split.
  - vm_compute in H2. by injection H2 as <-.
  - apply (settled_request_frozen sample_platform sample_options sample_urls
             sample_later_events _ _ 0 Hreach H2); [simpl; lia | by left].
Defined.

Lemma history_nondecreasing n ds rs :
  history ds rs → Forall (delivery_ok n) ds → nondecreasing ds.
Proof.
  intros [_ Hpair] Hok i j di dj Hij Hi Hj.
  specialize (Hpair _ _ _ _ Hij Hi Hj).
  rewrite Forall_lookup in Hok.
  destruct (Hok _ _ Hi) as (_ & Hc1 & _ & _ & _ & Hs1 & Hf1).
  destruct (Hok _ _ Hj) as (_ & Hc2 & _ & _ & _ & Hs2 & Hf2).
  pose proof (extends_count success _ _ ltac:(by left) Hpair).
  pose proof (extends_count failed _ _ ltac:(by right) Hpair).
  unfold counters_le. lia.
Qed.

(** X2: the counters [successes], [failures] and [completed] of the
    snapshots handed to the observer never go down from one call to a later
    one, the final [completed] call included. *)
Theorem progress_never_regresses P o urls st :
  reachable P o urls st →
  nondecreasing (delivered st) ∧ nondecreasing (delivered (fst (finish o st))).
Proof.
  intros Hreach.
  pose proof (reachable_invariant _ _ _ _ Hreach) as Hinv.
  destruct (reachable_history _ _ _ _ Hreach) as [Hhist _].
  split.
  - eapply history_nondecreasing; [exact Hhist | apply (inv_delivered _ _ _ _ Hinv)].
  - cbn [finish fst].
    pose proof (invariant_updateProgress _ _ _ completed _ Hinv) as Hinv'.
    apply (history_nondecreasing (length urls) _ (live st));
      [|apply (inv_delivered _ _ _ _ Hinv')].
    destruct (updateProgress_spec completed o st) as (ext & news & -> & _ & _ & Hs & _).
    cbn [delivered]. by apply history_app.
Qed.

Lemma progress_never_regresses_witness :
  ∃ st,
    replay sample_options (sample_events ++ sample_later_events)
      (start sample_platform sample_options sample_urls) = Some st ∧
    map (fun d => Progress.completed (snapshot d)) (delivered (fst (finish sample_options st)))
      = [0; 0; 0; 1; 2; 2] ∧
    nondecreasing (delivered st) ∧
    nondecreasing (delivered (fst (finish sample_options st))).
Proof.
  destruct (replay sample_options (sample_events ++ sample_later_events)
              (start sample_platform sample_options sample_urls)) as [st|] eqn:H1;
    [|vm_compute in H1; discriminate].
  exists st. split; [done|]. split.
  - vm_compute in H1. injection H1 as <-. reflexivity.
  - apply (progress_never_regresses sample_platform sample_options sample_urls).
    eapply replay_reachable; [apply reachable_start | exact H1].
Defined.

(** X3: the counter [active] of [runDownloadTask] is, between any two
    events, the number of workers that hold a request; so it lies between 0
    and the size of the pool, and it is 0 when the pool has joined. *)
Theorem active_counts_workers P o urls st :
  reachable P o urls st →
  active st = Z.of_nat (held st) ∧
  (0 <= active st <= Z.of_nat (pool_size o))%Z ∧
  (joined st = true → active st = 0%Z).
Proof.
  intros Hreach.
  destruct (reachable_ledger _ _ _ _ Hreach) as [Hact _].
  pose proof (reachable_pool _ _ _ _ Hreach) as Hpool.
  pose proof (length_omap_le worker_item (workers st)) as Hle.
  unfold held in *. split; [done|]. split; [lia|].
  intros Hj. apply joined_held in Hj. unfold held in Hj. lia.
Qed.

Lemma active_counts_workers_witness :
  ∃ st,
    replay sample_options sample_events
      (start sample_platform sample_options sample_urls) = Some st ∧
    active st = 1%Z ∧
    active st = Z.of_nat (held st) ∧
    (0 <= active st <= Z.of_nat (pool_size sample_options))%Z ∧
    (joined st = true → active st = 0%Z).
Proof.
  destruct (replay sample_options sample_events
              (start sample_platform sample_options sample_urls)) as [st|] eqn:H1;
    [|vm_compute in H1; discriminate].
  exists st. split; [done|]. split.
  - vm_compute in H1. by injection H1 as <-.
  - apply (active_counts_workers sample_platform sample_options sample_urls).
    eapply replay_reachable; [apply reachable_start | exact H1].
Defined.

(** X4: for a non-empty batch with [concurrency >= 1] that completes, the
    observer is called exactly [2 * N + 2] times, [N] the number of URLs:
    once with status [idle], then twice per request with status [running],
    at last once with status [completed].  Without an observer no snapshot
    is built and no record is copied. *)
Theorem observer_calls P urls options sched st res :
  urls ≠ [] → (1 <= concurrency (mergeOptions options))%Z →
  runDownloadTask P urls options sched = Some (st, res) →
  statuses st =
    (if Task.onProgress options
     then idle :: repeat running (2 * length urls) ++ [completed]
     else []) ∧
  (Task.onProgress options = false → length (store st) = length urls).
Proof.
  intros Hne Hc Hrun.
  destruct (runDownloadTask_Some _ _ _ _ _ _ Hne Hrun) as (Hc32 & st0 & Hrun0 & -> & _).
  set (o := mergeOptions options) in *.
  assert (0 < pool_size o) as Hpool by (apply pool_size_pos; lia).
  cbn [finish fst].
  destruct (run_reachable P o urls sched _ _ (reachable_start P o urls) Hrun0)
    as [Hreach Hj].
  pose proof (reachable_invariant _ _ _ _ Hreach) as Hinv.
  destruct (reachable_ledger _ _ _ _ Hreach) as [_ Hcalls].
  destruct (joined_drained _ _ _ _ Hpool Hreach Hj) as [_ Hd].
  apply (f_equal length) in Hd.
  rewrite (inv_requests _ _ _ _ Hinv), length_seq in Hd.
  rewrite (joined_held _ Hj) in Hcalls.
  destruct (updateProgress_ledger completed o st0) as (_ & _ & _ & _ & Hup).
  change (onProgress o) with (Task.onProgress options) in *.
  unfold statuses in *.
  destruct (Task.onProgress options).
  - destruct Hcalls as [Hlen [k Hs]]. destruct Hup as (d & -> & Hps & _).
    split; [|done]. rewrite map_app, Hs. simpl. rewrite Hps.
    apply (f_equal length) in Hs. rewrite length_map in Hs. simpl in Hs.
    rewrite repeat_length in Hs.
    assert (k = 2 * length urls) as -> by lia. done.
  - destruct Hcalls as [Hnil Hsto]. destruct Hup as [-> ->].
    rewrite Hnil. done.
Qed.

Lemma observer_calls_witness :
  ∃ st res,
    runDownloadTask sample_platform sample_urls sample_task sample_schedule
      = Some (st, res) ∧
    statuses st = [idle; running; running; running; running; completed].
Proof.
  destruct (runDownloadTask sample_platform sample_urls sample_task sample_schedule)
    as [[st res]|] eqn:Hrun; [|vm_compute in Hrun; discriminate].
  exists st, res. split; [done|].
  apply (observer_calls sample_platform sample_urls sample_task sample_schedule st res);
    [done | vm_compute; discriminate | exact Hrun].
Defined.

(** X5: at every moment of a batch the [attempts] field of a request lies
    between 0 and [maxRetries + 1] (0 when [maxRetries] is negative), and it
    is 0 as long as the request is [pending]. *)
Theorem attempts_bounded P o urls st l :
  reachable P o urls st → l < length urls →
  (0 <= attempts (deref st l) <= Z.max 0 (maxRetries o + 1))%Z ∧
  (status (deref st l) = pending → attempts (deref st l) = 0%Z).
Proof.
  intros Hreach Hl.
  pose proof (reachable_invariant _ _ _ _ Hreach) as Hinv.
  destruct (lookup_lt_is_Some_2 urls l Hl) as [u Hu].
  destruct (inv_records _ _ _ _ Hinv _ _ Hu) as (_ & _ & _ & Hst).
  destruct (status (deref st l)) eqn:Hs.
  - destruct Hst as (_ & -> & _). split; [lia | done].
  - split; [|done]. destruct Hst as (_ & w & wk & Hw & Hb).
    pose proof (inv_workers _ _ _ _ Hinv _ _ Hw) as Hok.
    destruct wk; simpl in Hb; try done; injection Hb as ->.
    + destruct Hok as (_ & _ & ? & ?). lia.
    + destruct Hok as (_ & _ & ? & ? & _). lia.
  - split; [|done]. destruct Hst as [_ Hset]. unfold settled in Hset.
    rewrite Hs in Hset. lia.
  - split; [|done]. destruct Hst as [_ Hset]. unfold settled in Hset.
    rewrite Hs in Hset. lia.
Qed.

Lemma attempts_bounded_witness :
  ∃ st,
    replay sample_options (sample_events ++ sample_later_events)
      (start sample_platform sample_options sample_urls) = Some st ∧
    attempts (deref st 1) = 2%Z ∧
    (0 <= attempts (deref st 1) <= Z.max 0 (maxRetries sample_options + 1))%Z ∧
    (status (deref st 1) = pending → attempts (deref st 1) = 0%Z).
Proof.
  destruct (replay sample_options (sample_events ++ sample_later_events)
              (start sample_platform sample_options sample_urls)) as [st|] eqn:H1;
    [|vm_compute in H1; discriminate].
  exists st. split; [done|]. split.
  - vm_compute in H1. by injection H1 as <-.
  - apply (attempts_bounded sample_platform sample_options sample_urls).
    + eapply replay_reachable; [apply reachable_start | exact H1].
    + simpl. lia.
Defined.

(** X6: the records of a batch are those of the input URLs, in the order
    of the input, at every moment: the live record at index [i], and the
    entry at index [i] of every snapshot the observer is handed, the final
    one included, has the [url] of the [i]-th input URL, the [filename]
    inferred from it and the [id] it was created with. *)
Theorem request_identity P o urls st :
  reachable P o urls st →
  identified P urls (live st) ∧
  Forall (fun d => identified P urls (seen d)) (delivered (fst (finish o st))).
Proof.
  intros Hreach.
  pose proof (reachable_invariant _ _ _ _ Hreach) as Hinv.
  destruct (reachable_history _ _ _ _ Hreach) as [_ Hid].
  split; [by eapply identified_live|].
  cbn [finish fst].
  destruct (updateProgress_spec completed o st) as (ext & news & -> & _ & _ & Hs & _).
  cbn [delivered]. apply Forall_app. split; [done|].
  eapply Forall_impl; [|exact Hs]. intros d Hd. simpl in Hd. rewrite Hd.
  by eapply identified_live.
Qed.

Lemma request_identity_witness :
  ∃ st,
    replay sample_options sample_events
      (start sample_platform sample_options sample_urls) = Some st ∧
    identified sample_platform sample_urls (live st) ∧
    Forall (fun d => identified sample_platform sample_urls (seen d))
      (delivered (fst (finish sample_options st))).
Proof.
  destruct (replay sample_options sample_events
              (start sample_platform sample_options sample_urls)) as [st|] eqn:H1;
    [|vm_compute in H1; discriminate].
  exists st. split; [done|].
  apply (request_identity sample_platform sample_options sample_urls).
  eapply replay_reachable; [apply reachable_start | exact H1].
Defined.

Lemma copies_deref (s ext : list DownloadRequest) :
  map (fun l => (s ++ ext) !!! l) (seq (length s) (length ext)) = ext.
Proof.
  change (map ?f ?l) with (f <$> l).
  apply list_eq. intros i. rewrite list_lookup_fmap.
  destruct (decide (i < length ext)) as [Hi|Hi].
  - rewrite lookup_seq_lt by done. simpl.
    destruct (lookup_lt_is_Some_2 ext i Hi) as [x Hx]. rewrite Hx. f_equal.
    apply list_lookup_total_correct. rewrite lookup_app_r by lia.
    by replace (length s + i - length s) with i by lia.
  - rewrite lookup_seq_ge by lia. simpl. symmetry. apply lookup_ge_None_2. lia.
Qed.

(** X7: when a non-empty batch with an observer completes, the last call
    of the observer carries status [completed] and describes the result
    that [runDownloadTask] returns: its entries are copies of the records
    as they are at the return, its [successes] and [failures] are the
    lengths of the two lists of the result, and with [concurrency >= 1] its
    [completed] is the number of input URLs. *)
Theorem final_snapshot_matches_result P urls options sched st res :
  urls ≠ [] → Task.onProgress options = true →
  runDownloadTask P urls options sched = Some (st, res) →
  ∃ d, list.last (delivered st) = Some d ∧
    Progress.status (snapshot d) = completed ∧
    seen d = live st ∧
    map (deref st) (Progress.entries (snapshot d)) = live st ∧
    Progress.successes (snapshot d) = length (Result.successes res) ∧
    Progress.failures (snapshot d) = length (Result.failures res) ∧
    ((1 <= concurrency (mergeOptions options))%Z →
       Progress.completed (snapshot d) = length urls).
Proof.
  intros Hne Hobs Hrun.
  destruct (runDownloadTask_Some _ _ _ _ _ _ Hne Hrun) as (Hc32 & st0 & Hrun0 & Hst & Hres).
  set (o := mergeOptions options) in *.
  destruct (run_reachable P o urls sched _ _ (reachable_start P o urls) Hrun0)
    as [Hreach Hj].
  pose proof (reachable_invariant _ _ _ _ Hreach) as Hinv.
  pose proof (inv_requests _ _ _ _ Hinv) as Hreq.
  pose proof (inv_store _ _ _ _ Hinv) as Hsto.
  pose proof (live_updateProgress P o urls completed st0 Hinv) as Hlive.
  unfold finish in Hst, Hres. cbn [fst snd] in Hst, Hres. subst st res.
  assert (onProgress o = true) as Hon by done.
  revert Hlive. unfold updateProgress. rewrite Hon. intros Hlive.
  set (st1 := mkState _ _ _ _ _ _ _ _) in *.
  eexists. split; [subst st1; cbn [delivered]; apply last_snoc|].
  cbn [snapshot seen Progress.status Progress.entries Progress.successes
       Progress.failures Progress.completed Result.successes Result.failures].
  split; [done|]. split; [done|]. split; [|split; [|split]].
  - rewrite Hlive. unfold deref. subst st1. cbn [store]. apply copies_deref.
  - rewrite <- Hlive. unfold live. by rewrite length_filter_map.
  - rewrite <- Hlive. unfold live. by rewrite length_filter_map.
  - intros Hc. unfold live. rewrite !length_filter_map, Hreq.
    transitivity (length (seq 0 (length urls))); [|by rewrite length_seq].
    apply length_partition. intros l Hl%elem_of_seq. unfold has_status. split.
    + apply (joined_settled P o urls st0 l (pool_size_pos o (conj Hc Hc32)) Hreach Hj).
      lia.
    + intros [H1 H2]. congruence.
Qed.

Lemma final_snapshot_matches_result_witness :
  ∃ st res d,
    runDownloadTask sample_platform sample_urls sample_task sample_schedule
      = Some (st, res) ∧
    list.last (delivered st) = Some d ∧
    Progress.status (snapshot d) = completed ∧
    seen d = live st ∧
    map (deref st) (Progress.entries (snapshot d)) = live st ∧
    Progress.successes (snapshot d) = length (Result.successes res) ∧
    Progress.failures (snapshot d) = length (Result.failures res) ∧
    ((1 <= concurrency (mergeOptions sample_task))%Z →
       Progress.completed (snapshot d) = length sample_urls).
Proof.
  destruct (runDownloadTask sample_platform sample_urls sample_task sample_schedule)
    as [[st res]|] eqn:Hrun; [|vm_compute in Hrun; discriminate].
  destruct (final_snapshot_matches_result sample_platform sample_urls sample_task
              sample_schedule st res ltac:(done) eq_refl Hrun) as (d & Hd).
  exists st, res, d. split; [reflexivity | exact Hd].
Defined.

(** ** The pool *)

(** An event either leaves the queue as it is, or it takes the head of the
    queue, a request that was pending until then, and calls the retry
    engine on it: the record is as the entry of [downloadWithRetry] leaves
    it and a worker is suspended where that call is. *)
Lemma step_pop P o urls ev st st' :
  invariant P o urls st → step o ev st = Some st' →
  (queue st' = queue st ∧ dispatched st' = dispatched st) ∨
  ∃ item w,
    queue st = item :: queue st' ∧ dispatched st' = dispatched st ++ [item] ∧
    status (deref st item) = pending ∧
    deref st' item =
      fst (loop_head o fresh_locals (set_status downloading (deref st item))) ∧
    workers st' !! w =
      Some match snd (loop_head o fresh_locals (set_status downloading (deref st item))) with
           | Some lc => AwaitingDownloadFile item lc
           | None => AwaitingRetry item
           end.
Proof.
  intros Hinv Hstep.
  assert (∀ st0 item rest,
            queue st0 = item :: rest → queue st0 = queue st →
            dispatched st0 = dispatched st → length (store st) <= length (store st0) →
            (∀ l, l < length (store st) → deref st0 l = deref st l) →
            item < length (store st0) ∧ status (deref st item) = pending ∧
            deref st0 item = deref st item) as Hhead.
  { intros st0 item rest Hq Hqs Hds Hlen Hsame.
    assert (item ∈ queue st) as Hin by (rewrite <- Hqs, Hq; left).
    pose proof (invariant_queue_lt _ _ _ _ _ Hinv Hin) as Hlt.
    pose proof (inv_store _ _ _ _ Hinv) as Hsto.
    destruct (lookup_lt_is_Some_2 urls item Hlt) as [u Hu].
    destruct (inv_records _ _ _ _ Hinv _ _ Hu) as (_ & _ & _ & Hst).
    rewrite (inv_queue _ _ _ _ Hinv), elem_of_seq in Hin.
    split; [lia|]. split; [|apply Hsame; lia].
    destruct (status (deref st item)); [done|..]; destruct Hst as [? _]; lia. }
  destruct ev as [|w res|w|w|l r]; cbn [step] in Hstep.
  - destruct (unlaunched st) as [|n] eqn:Hn; [done|].
    destruct (queue st) as [|item rest] eqn:Hq.
    + rewrite processNext_nil in Hstep by (by simpl_state).
      injection Hstep as <-. left. by simpl_state.
    + destruct (Hhead (set_unlaunched n st) item rest) as (Hlt & Hpend & Hd);
        try done; [by simpl_state..|].
      destruct (processNext_cons o (set_unlaunched n st) item rest)
        as (ext & news & Hpn & _); [by simpl_state | done |].
      rewrite Hpn in Hstep. injection Hstep as <-. right.
      exists item, (length (workers st)). rewrite Hd in *. simpl_state.
      split; [done|]. split; [done|]. split; [done|]. split.
      * rewrite lookup_total_app_l by (by rewrite length_insert).
        by rewrite list_lookup_total_insert_eq.
      * by rewrite lookup_app_r, Nat.sub_diag.
  - destruct (workers st !! w) as [[item lc| | |]|]; try done.
    destruct (launched st); [|done].
    destruct (after_downloadFile o res lc (deref st item)) as [r [[lc1 ms]|]];
      injection Hstep as <-; left; by simpl_state.
  - destruct (workers st !! w) as [[|item lc ms| |]|]; try done.
    destruct (launched st); [|done].
    destruct (loop_head o lc (deref st item)) as [r [lc1|]];
      injection Hstep as <-; left; by simpl_state.
  - destruct (workers st !! w) as [[| |item0|]|] eqn:Hw; try done.
    destruct (launched st); [|done].
    unfold after_downloadWithRetry in Hstep.
    set (st2 := set_active _ _) in *.
    assert (queue st2 = queue st ∧ dispatched st2 = dispatched st ∧
            workers st2 = workers st ∧
            length (store st) <= length (store st2) ∧
            ∀ l, l < length (store st) → deref st2 l = deref st l)
      as (Hq2 & Hd2 & Hw2 & Hlen2 & Hsame2).
    { subst st2.
      destruct (updateProgress_spec running o st) as (ext & news & -> & _).
      simpl_state. rewrite length_app.
      split; [done|]. split; [done|]. split; [done|]. split; [lia|].
      intros l Hl. by apply store_grow. }
    destruct (queue st2) as [|item rest] eqn:Hq.
    + injection Hstep as <-. left. simpl_state. split; congruence.
    + destruct (Hhead st2 item rest Hq (eq_trans Hq Hq2) Hd2 Hlen2 Hsame2) as (Hlt & Hpend & Hd).
      destruct (processNext_cons o st2 item rest Hq Hlt) as (ext & news & Hpn & _).
      rewrite Hpn in Hstep. injection Hstep as <-. right.
      exists item, w. rewrite Hd in *. subst st2. simpl_state.
      split; [by rewrite <- Hq2|]. split; [by rewrite Hd2|]. split; [done|]. split.
      * rewrite lookup_total_app_l by (by rewrite length_insert).
        by rewrite list_lookup_total_insert_eq.
      * rewrite Hw2. apply list_lookup_insert_eq. by apply lookup_lt_Some in Hw.
  - case_bool_decide; [|done]. injection Hstep as <-. left. by simpl_state.
Qed.

(** C4, for a pool that can be made: while a batch with
    [1 <= concurrency < 2^32] runs, the number of requests in the
    downloading phase never exceeds [concurrency], between any two events as
    well as in every snapshot the observer is handed.  The requests
    dispatched so far followed by those still queued are the requests of the
    batch, each once, and a request is pending exactly as long as it is
    queued.  An event either leaves the queue alone or takes its head and
    calls the retry engine on that request, which with [maxRetries >= 0]
    puts it into the downloading phase at its first attempt; a request in
    the downloading phase is held by one worker and no other.  When the
    pool has joined every request has been dispatched and has left the
    engine, and the pool does join when the events keep coming. *)
Theorem pool_bound P o urls st :
  (1 <= concurrency o < 2 ^ 32)%Z → reachable P o urls st →
  (Z.of_nat (downloading_count (live st)) <= concurrency o)%Z ∧
  Forall (fun d => (Z.of_nat (downloading_count (seen d)) <= concurrency o)%Z)
    (delivered st) ∧
  dispatched st ++ queue st = requests st ∧
  NoDup (requests st) ∧
  (∀ l, l ∈ requests st → (status (deref st l) = pending ↔ l ∈ queue st)) ∧
  (∀ l, l ∈ requests st → status (deref st l) = downloading →
     ∃ w wk, workers st !! w = Some wk ∧ busy_item wk = Some l ∧
       ∀ w' wk', workers st !! w' = Some wk' → worker_item wk' = Some l → w' = w) ∧
  (∀ ev st', step o ev st = Some st' →
     (queue st' = queue st ∧ dispatched st' = dispatched st) ∨
     ∃ item w,
       queue st = item :: queue st' ∧ dispatched st' = dispatched st ++ [item] ∧
       status (deref st item) = pending ∧
       deref st' item =
         fst (loop_head o fresh_locals (set_status downloading (deref st item))) ∧
       workers st' !! w =
         Some match snd (loop_head o fresh_locals
                           (set_status downloading (deref st item))) with
              | Some lc => AwaitingDownloadFile item lc
              | None => AwaitingRetry item
              end ∧
       ((0 <= maxRetries o)%Z →
          status (deref st' item) = downloading ∧ attempts (deref st' item) = 1%Z ∧
          workers st' !! w = Some (AwaitingDownloadFile item fresh_locals))) ∧
  (joined st = true →
     queue st = [] ∧ dispatched st = requests st ∧ Forall terminal (live st)) ∧
  (∀ sched, work o st <= advances sched →
     ∃ st', run o sched st = Some st' ∧ queue st' = [] ∧
       dispatched st' = requests st' ∧ Forall terminal (live st')).
Proof.
  intros Hc Hreach.
  pose proof (reachable_invariant _ _ _ _ Hreach) as Hinv.
  pose proof (pool_size_pos o Hc) as Hpos.
  pose proof (pool_size_le o ltac:(lia)) as Hle.
  assert (∀ st0, reachable P o urls st0 → joined st0 = true →
            queue st0 = [] ∧ dispatched st0 = requests st0 ∧ Forall terminal (live st0))
    as Hjoin.
  { intros st0 Hreach0 Hj0.
    destruct (joined_drained _ _ _ _ Hpos Hreach0 Hj0) as [Hq Hd].
    split; [done|]. split; [done|].
    pose proof (reachable_invariant _ _ _ _ Hreach0) as Hinv0.
    apply Forall_lookup. intros i r Hi.
    pose proof (lookup_lt_Some _ _ _ Hi) as Hlt.
    unfold live in Hlt. rewrite length_map, (inv_requests _ _ _ _ Hinv0), length_seq in Hlt.
    rewrite (live_lookup st0 (length urls) i (inv_requests _ _ _ _ Hinv0) Hlt) in Hi.
    injection Hi as <-. by apply (joined_settled P o urls). }
  split; [|split; [|split; [|split; [|split; [|split; [|split; [|split]]]]]]].
  - pose proof (downloading_count_pool _ _ _ _ Hinv). lia.
  - eapply Forall_impl; [|apply (inv_seen _ _ _ _ Hinv)].
    intros d Hd. simpl in Hd. lia.
  - rewrite (inv_queue _ _ _ _ Hinv), (inv_requests _ _ _ _ Hinv).
    rewrite (inv_dispatched _ _ _ _ Hinv) at 1.
    pose proof (inv_dispatched_le _ _ _ _ Hinv).
    set (q := length (dispatched st)) in *.
    replace (seq 0 (length urls)) with (seq 0 (q + (length urls - q))) by (f_equal; lia).
    by rewrite seq_app.
  - rewrite (inv_requests _ _ _ _ Hinv). apply NoDup_seq.
  - intros l Hl. rewrite (inv_requests _ _ _ _ Hinv), elem_of_seq in Hl.
    destruct (lookup_lt_is_Some_2 urls l ltac:(lia)) as [u Hu].
    destruct (inv_records _ _ _ _ Hinv _ _ Hu) as (_ & _ & _ & Hst).
    pose proof (inv_dispatched_le _ _ _ _ Hinv).
    rewrite (inv_queue _ _ _ _ Hinv), elem_of_seq.
    destruct (status (deref st l)).
    + destruct Hst as [? _]. split; [intros _; lia | done].
    + destruct Hst as [? _]. split; [done | intros ?; lia].
    + destruct Hst as [? _]. split; [done | intros ?; lia].
    + destruct Hst as [? _]. split; [done | intros ?; lia].
  - intros l Hl Hs. rewrite (inv_requests _ _ _ _ Hinv), elem_of_seq in Hl.
    destruct (lookup_lt_is_Some_2 urls l ltac:(lia)) as [u Hu].
    destruct (inv_records _ _ _ _ Hinv _ _ Hu) as (_ & _ & _ & Hst).
    rewrite Hs in Hst. destruct Hst as (_ & w & wk & Hw & Hb).
    exists w, wk. split; [done|]. split; [done|].
    intros w' wk' Hw' Hi. apply (inv_distinct _ _ _ _ Hinv w' w wk' wk l); try done.
    by destruct wk.
  - intros ev st' Hstep.
    destruct (step_pop _ _ _ _ _ _ Hinv Hstep)
      as [Hsame|(item & w & Hq & Hd & Hpend & Hr & Hw)]; [by left|].
    right. exists item, w.
    split; [done|]. split; [done|]. split; [done|]. split; [done|]. split; [done|].
    intros HM. revert Hr Hw. unfold loop_head. cbn [attempt fresh_locals].
    destruct (Z.leb_spec 0 (maxRetries o)); [|lia]. cbn [fst snd]. intros -> ->.
    unfold_setters. split; [done|]. split; [|done].
    assert (item ∈ queue st) as Hin by (rewrite Hq; left).
    pose proof (invariant_queue_lt _ _ _ _ _ Hinv Hin) as Hlt.
    destruct (lookup_lt_is_Some_2 urls item Hlt) as [u Hu].
    destruct (inv_records _ _ _ _ Hinv _ _ Hu) as (_ & _ & _ & Hst).
    rewrite Hpend in Hst. destruct Hst as (_ & -> & _). done.
  - intros Hj. by apply Hjoin.
  - intros sched Hwork.
    destruct (run_terminates o sched st Hwork) as [st' Hrun].
    exists st'. split; [done|].
    destruct (run_reachable P o urls sched _ _ Hreach Hrun) as [Hreach' Hj'].
    by apply Hjoin.
Qed.

Lemma pool_bound_witness :
  ∃ st st',
    replay sample_options [Launch] (start sample_platform sample_options sample_urls)
      = Some st ∧
    step sample_options Launch st = Some st' ∧
    queue st = [1] ∧ queue st' = [] ∧ dispatched st' = [0; 1] ∧
    map status (live st') = [downloading; downloading] ∧
    workers st' = [AwaitingDownloadFile 0 fresh_locals; AwaitingDownloadFile 1 fresh_locals] ∧
    (Z.of_nat (downloading_count (live st')) <= concurrency sample_options)%Z ∧
    dispatched st' ++ queue st' = requests st'.
Proof.
  destruct (replay sample_options [Launch]
              (start sample_platform sample_options sample_urls)) as [st|] eqn:H1;
    [|vm_compute in H1; discriminate].
  destruct (step sample_options Launch st) as [st'|] eqn:H2;
    [|vm_compute in H1; injection H1 as <-; vm_compute in H2; discriminate].
  exists st, st'. split; [reflexivity|]. split; [exact H2|].
  assert (reachable sample_platform sample_options sample_urls st') as Hreach.
  { eapply reachable_step; [|exact H2].
    eapply replay_reachable; [apply reachable_start | exact H1]. }
  destruct (pool_bound sample_platform sample_options sample_urls st'
              ltac:(by vm_compute) Hreach) as (Hb & _ & Hd & _).
  vm_compute in H1. injection H1 as <-.
  vm_compute in H2. injection H2 as <-.
  split; [reflexivity|]. split; [reflexivity|]. split; [reflexivity|].
  split; [reflexivity|]. split; [reflexivity|]. split; [exact Hb | exact Hd].
Defined.

(** C4 as stated, for every [concurrency >= 1], fails when the pool cannot
    be made: with [concurrency = 2^32] line 221 throws, the call is
    rejected while every request is still pending and queued, no request
    has been handed to the retry engine, and none ever will be. *)
Lemma pool_bound_counterexample :
  (1 <= concurrency (mergeOptions oversized_task))%Z ∧
  ∃ st,
    (∀ sched, runDownloadTask_ending sample_platform sample_urls oversized_task sched
              = Throws st (ErrorObject "Invalid array length")) ∧
    requests st = [0; 1] ∧ queue st = [0; 1] ∧ dispatched st = [] ∧ workers st = [] ∧
    map status (live st) = [pending; pending] ∧
    (∀ ev st', step (mergeOptions oversized_task) ev st = Some st' →
               ¬ orchestrator_event ev).
Proof.
  split; [by vm_compute|].
  eexists. split; [intros sched; reflexivity|].
  split; [reflexivity|]. split; [reflexivity|]. split; [reflexivity|].
  split; [reflexivity|]. split; [reflexivity|].
  intros ev st' Hstep.
  destruct ev as [|w res|w|w|l r]; cbn [step] in Hstep.
  - vm_compute in Hstep. discriminate.
  - change (workers _ !! w) with (@nil worker !! w) in Hstep.
    by rewrite lookup_nil in Hstep.
  - change (workers _ !! w) with (@nil worker !! w) in Hstep.
    by rewrite lookup_nil in Hstep.
  - change (workers _ !! w) with (@nil worker !! w) in Hstep.
    by rewrite lookup_nil in Hstep.
  - by intros [].
Qed.

(** ** Failures of single requests *)

Lemma run_extends P o urls sched : ∀ st st',
  reachable P o urls st → run o sched st = Some st' →
  extends (live st) (live st').
Proof.
  induction sched as [|c sched IH]; intros st st' Hreach Hrun; simpl in Hrun.
  - destruct (joined st); [|done]. injection Hrun as <-. apply extends_refl.
  - destruct (joined st); [injection Hrun as <-; apply extends_refl|].
    destruct (choose st c) as [ev|]; [|done].
    destruct (step o ev st) as [st1|] eqn:Hstep.
    + pose proof (reachable_invariant _ _ _ _ Hreach) as Hinv.
      destruct (step_history _ _ _ _ _ _ Hinv Hstep)
        as (_ & _ & Y & _ & _ & _ & H1 & H2 & _).
      apply (extends_trans _ _ _ (extends_trans _ _ _ H1 H2)).
      apply (IH st1); [|done]. by eapply reachable_step.
    + destruct c; [done|]. by apply (IH st).
Qed.

(** C8: no transfer or persistence failure makes [runDownloadTask] fail.
    When the pool can be made, whatever the outcomes of the transfers and
    whichever worker continues when, the task returns a [DownloadResult]
    once the environment has let it continue often enough; its [failures]
    are the requests that ended [failed], and each of them carries an
    [error].  The call is rejected only when line 221 cannot make the pool,
    which depends on [concurrency] alone and happens before any transfer is
    started.  A rejected transfer is an ordinary event of the batch: its
    message is stored in the [error] field of the request concerned and no
    other field and no other live record changes; when a retry is left the
    request stays in the downloading phase and its worker waits for the
    retry, and when it was the last allowed attempt the request becomes
    [failed] and its worker leaves the retry engine.  A request that is
    [failed] stays as it is until the batch returns and is among the
    [failures] of the result. *)
Theorem failures_are_recorded P urls options :
  ((concurrency (mergeOptions options) < 2 ^ 32)%Z →
   ∀ sched,
     pool_size (mergeOptions options) + length urls * item_cost (mergeOptions options)
       <= advances sched →
     ∃ st res, runDownloadTask_ending P urls options sched = Returns st res ∧
       (∀ l, l ∈ Result.failures res ↔ l ∈ requests st ∧ status (deref st l) = failed) ∧
       (∀ l, l ∈ requests st → status (deref st l) = failed →
             is_Some (error (deref st l)))) ∧
  (∀ sched st e, runDownloadTask_ending P urls options sched = Throws st e →
     (2 ^ 32 <= concurrency (mergeOptions options))%Z ∧
     e = ErrorObject (invalidArrayLength P) ∧
     st = start P (mergeOptions options) urls ∧ workers st = [] ∧ dispatched st = []) ∧
  (∀ st w item lc e,
     reachable P (mergeOptions options) urls st → launched st = true →
     workers st !! w = Some (AwaitingDownloadFile item lc) →
     ∃ st', step (mergeOptions options) (Settle w (Rejected e)) st = Some st' ∧
       deref st' item =
         (if decide (attempt lc < maxRetries (mergeOptions options))%Z
          then set_error (Some (describe e)) (deref st item)
          else set_status failed (set_error (Some (describe e)) (deref st item))) ∧
       workers st' !! w =
         Some (if decide (attempt lc < maxRetries (mergeOptions options))%Z
               then AwaitingSleep item (mkLocals (attempt lc + 1)%Z (Some e))
                      (backoff_ms (mergeOptions options) (attempt lc + 1))
               else AwaitingRetry item) ∧
       error (deref st' item) = Some (describe e) ∧
       ((attempt lc < maxRetries (mergeOptions options))%Z →
          status (deref st' item) = downloading) ∧
       ((maxRetries (mergeOptions options) <= attempt lc)%Z →
          status (deref st' item) = failed ∧
          attempts (deref st' item) = (maxRetries (mergeOptions options) + 1)%Z) ∧
       (∀ l, l ≠ item → deref st' l = deref st l) ∧
       queue st' = queue st ∧ delivered st' = delivered st) ∧
  (∀ st l sched st',
     reachable P (mergeOptions options) urls st →
     l ∈ requests st → status (deref st l) = failed →
     run (mergeOptions options) sched st = Some st' →
     deref (fst (finish (mergeOptions options) st')) l = deref st l ∧
     l ∈ Result.failures (snd (finish (mergeOptions options) st'))).
Proof.
  set (o := mergeOptions options). split; [|split; [|split]].
  - intros Hc sched Hsched. unfold runDownloadTask_ending.
    destruct urls as [|u0 urls0].
    { exists blank, (Result.mkResult [] []). split; [done|]. split.
      - intros l. split; [by intros ?%elem_of_nil | by intros [?%elem_of_nil _]].
      - intros l Hl. by apply elem_of_nil in Hl. }
    set (urls := u0 :: urls0) in *. cbv zeta. fold o. unfold array_length.
    destruct (Z.ltb_spec (concurrency o) (2 ^ 32)); [|lia].
    destruct (run_terminates o sched (start P o urls)) as [st0 Hrun].
    { by rewrite work_start. }
    rewrite Hrun. eexists _, _. split; [reflexivity|].
    destruct (run_reachable P o urls sched _ _ (reachable_start _ _ _) Hrun) as [Hreach _].
    pose proof (reachable_invariant _ _ _ _ Hreach) as Hinv.
    apply (invariant_updateProgress _ _ _ completed) in Hinv.
    cbn [finish fst snd Result.failures]. split.
    + intros l. rewrite list_elem_of_filter. unfold has_status. tauto.
    + intros l Hl Hs.
      rewrite (inv_requests _ _ _ _ Hinv), elem_of_seq in Hl.
      destruct (lookup_lt_is_Some_2 urls l ltac:(lia)) as [u Hu].
      destruct (inv_records _ _ _ _ Hinv _ _ Hu) as (_ & _ & _ & Hst).
      rewrite Hs in Hst. destruct Hst as [_ Hset]. unfold settled in Hset.
      rewrite Hs in Hset. by destruct Hset.
  - intros sched st e. unfold runDownloadTask_ending.
    destruct urls as [|u0 urls0]; [done|].
    set (urls := u0 :: urls0) in *. cbv zeta. fold o. unfold array_length.
    destruct (Z.ltb_spec (concurrency o) (2 ^ 32)).
    + by destruct (run o sched (start P o urls)).
    + intros [= <- <-]. split; [done|]. split; [done|]. split; [done|].
      unfold start, updateProgress. by destruct (onProgress o).
  - intros st w item lc e Hreach Hl Hw.
    pose proof (reachable_invariant _ _ _ _ Hreach) as Hinv.
    pose proof (inv_workers _ _ _ _ Hinv _ _ Hw) as (Hlt & Hs & Ha & Hn).
    pose proof (inv_dispatched_le _ _ _ _ Hinv). pose proof (inv_store _ _ _ _ Hinv).
    pose proof (lookup_lt_Some _ _ _ Hw) as Hwlt.
    cbn [step]. rewrite Hw, Hl.
    destruct (decide (attempt lc < maxRetries o)%Z) as [Hlt'|Hge].
    + rewrite after_downloadFile_retry by done. eexists. split; [reflexivity|].
      simpl_state. rewrite list_lookup_total_insert_eq by lia. unfold_setters.
      split; [done|]. split; [by apply list_lookup_insert_eq|].
      split; [done|]. split; [done|]. split; [intros ?; lia|].
      split; [|done]. intros l Hne. by rewrite list_lookup_total_insert_ne.
    + rewrite after_downloadFile_give_up by lia. eexists. split; [reflexivity|].
      simpl_state. rewrite list_lookup_total_insert_eq by lia. unfold_setters.
      split; [done|]. split; [by apply list_lookup_insert_eq|].
      split; [done|]. split; [intros ?; lia|]. split; [intros _; split; [done|lia]|].
      split; [|done]. intros l Hne. by rewrite list_lookup_total_insert_ne.
  - intros st l sched st' Hreach Hl Hs Hrun.
    pose proof (reachable_invariant _ _ _ _ Hreach) as Hinv.
    destruct (run_reachable P o urls sched _ _ Hreach Hrun) as [Hreach' _].
    pose proof (reachable_invariant _ _ _ _ Hreach') as Hinv'.
    rewrite (inv_requests _ _ _ _ Hinv), elem_of_seq in Hl.
    pose proof (run_extends P o urls sched _ _ Hreach Hrun) as [_ Hext].
    specialize (Hext l (deref st l)
                  (live_lookup st (length urls) l (inv_requests _ _ _ _ Hinv) ltac:(lia))
                  ltac:(by right)).
    rewrite (live_lookup st' (length urls) l (inv_requests _ _ _ _ Hinv') ltac:(lia))
      in Hext.
    injection Hext as Hext.
    assert (deref (fst (finish o st')) l = deref st l) as Hd.
    { rewrite finish_deref; [done|]. pose proof (inv_store _ _ _ _ Hinv'). lia. }
    split; [done|].
    cbn [finish fst snd Result.failures] in *. apply list_elem_of_filter.
    split; [unfold has_status; by rewrite Hd|].
    rewrite updateProgress_requests_eq, (inv_requests _ _ _ _ Hinv'), elem_of_seq. lia.
Qed.

Lemma failures_are_recorded_witness :
  ∃ st res,
    runDownloadTask_ending sample_platform sample_urls sample_task
      (repeat (Advance 0 (Rejected http404)) 20) = Returns st res ∧
    Result.failures res = [0; 1] ∧
    map status (live st) = [failed; failed] ∧
    map error (live st) = [Some "HTTP 404"%string; Some "HTTP 404"%string] ∧
    map attempts (live st) = [3%Z; 3%Z] ∧
    (∀ l, l ∈ Result.failures res ↔ l ∈ requests st ∧ status (deref st l) = failed).
Proof.
  destruct (proj1 (failures_are_recorded sample_platform sample_urls sample_task)
              ltac:(by vm_compute) (repeat (Advance 0 (Rejected http404)) 20)
              ltac:(vm_compute; lia))
    as (st & res & Hrun & Hfail & _).
  exists st, res. split; [exact Hrun|].
  vm_compute in Hrun. injection Hrun as <- <-.
  split; [reflexivity|]. split; [reflexivity|]. split; [reflexivity|].
  split; [reflexivity|]. exact Hfail.
Defined.

(** ** A negative [maxRetries] *)

Lemma negative_retries_idle P o urls st w wk :
  (maxRetries o < 0)%Z → invariant P o urls st → workers st !! w = Some wk →
  in_retry_engine wk = false.
Proof.
  intros HM Hinv Hw. pose proof (inv_workers _ _ _ _ Hinv _ _ Hw) as Hok.
  destruct wk; simpl in *; try done.
  - destruct Hok as (_ & _ & ? & _). lia.
  - destruct Hok as (_ & _ & ? & _). lia.
Qed.

Lemma negative_retries_processNext P o urls st :
  (maxRetries o < 0)%Z → invariant P o urls st →
  (∀ l, l < length urls → status (deref st l) = failed → never_tried (deref st l)) →
  ∀ l, l < length urls → status (deref (fst (processNext o st)) l) = failed →
       never_tried (deref (fst (processNext o st)) l).
Proof.
  intros HM Hinv IH l Hl.
  pose proof (inv_store _ _ _ _ Hinv) as Hsto.
  pose proof (inv_queue _ _ _ _ Hinv) as Hque.
  destruct (queue st) as [|item rest] eqn:Hq.
  - rewrite processNext_nil by done. cbn [fst]. by apply IH.
  - symmetry in Hque. apply seq_cons_inv in Hque as (-> & _ & Hpos).
    set (q := length (dispatched st)) in *.
    destruct (processNext_cons o st q _ Hq ltac:(lia)) as (ext & news & -> & _).
    cbn [fst]. simpl_state.
    destruct (decide (l = q)) as [->|Hne].
    + rewrite store_same by lia. intros _.
      destruct (lookup_lt_is_Some_2 urls q ltac:(lia)) as [u Hu].
      pose proof (inv_records _ _ _ _ Hinv _ _ Hu) as (_ & _ & _ & Hst).
      unfold deref in Hst.
      assert (status (store st !!! q) = pending ∧ attempts (store st !!! q) = 0%Z ∧
              error (store st !!! q) = None) as (Hp & Ha & He).
      { destruct (status (store st !!! q)); [by destruct Hst as (_ & ? & ?) | | |];
          destruct Hst as [? _]; unfold q in *; lia. }
      rewrite loop_head_exit by (simpl; lia). cbn [fst].
      rewrite after_loop_fallback by done. unfold never_tried. unfold_setters.
      done.
    + rewrite store_other by (done || lia).
      change (store st !!! l) with (deref st l). by apply IH.
Qed.

Lemma negative_retries_step P o urls ev st st' :
  (maxRetries o < 0)%Z → invariant P o urls st →
  (∀ l, l < length urls → status (deref st l) = failed → never_tried (deref st l)) →
  step o ev st = Some st' →
  ∀ l, l < length urls → status (deref st' l) = failed → never_tried (deref st' l).
Proof.
  intros HM Hinv IH Hstep.
  pose proof (inv_store _ _ _ _ Hinv) as Hsto.
  destruct ev as [|w res|w|w|l' r]; cbn [step] in Hstep.
  - destruct (unlaunched st) as [|n] eqn:Hn; [done|].
    pose proof (inv_pool _ _ _ _ Hinv) as Hpool. rewrite Hn in Hpool.
    pose proof Hinv as Hinv0.
    apply (invariant_irrelevant _ _ _ _ (active st) n) in Hinv0; [|lia].
    change (mkState _ _ _ _ _ _ _ _) with (set_unlaunched n st) in Hinv0.
    pose proof (negative_retries_processNext _ _ _ _ HM Hinv0 IH) as Hpn.
    destruct (processNext o (set_unlaunched n st)) as [st1 wk].
    injection Hstep as <-. exact Hpn.
  - destruct (workers st !! w) as [[item lc| | |]|] eqn:Hw; try done.
    by pose proof (negative_retries_idle _ _ _ _ _ _ HM Hinv Hw).
  - destruct (workers st !! w) as [[|item lc ms| |]|] eqn:Hw; try done.
    by pose proof (negative_retries_idle _ _ _ _ _ _ HM Hinv Hw).
  - destruct (workers st !! w) as [[| |item|]|] eqn:Hw; try done.
    destruct (launched st); [|done].
    rewrite after_downloadWithRetry_processNext in Hstep.
    set (st2 := set_active _ _) in *.
    pose proof (inv_pool _ _ _ _ Hinv) as Hpool.
    assert (invariant P o urls st2) as Hinv2.
    { pose proof (invariant_updateProgress P o urls running st Hinv) as H1.
      apply (invariant_irrelevant _ _ _ _
               (active (updateProgress running o st) - 1)%Z
               (unlaunched (updateProgress running o st))) in H1; [done|].
      by rewrite updateProgress_workers, updateProgress_unlaunched. }
    assert (∀ l, l < length urls → deref st2 l = deref st l) as Hsame.
    { intros l Hl. subst st2. simpl_state.
      by apply (updateProgress_keeps running o st l ltac:(lia)). }
    assert (∀ l, l < length urls → status (deref st2 l) = failed →
                 never_tried (deref st2 l)) as IH2.
    { intros l Hl. rewrite Hsame by done. by apply IH. }
    pose proof (negative_retries_processNext _ _ _ _ HM Hinv2 IH2) as Hpn.
    destruct (processNext o st2) as [st3 wk].
    injection Hstep as <-. exact Hpn.
  - case_bool_decide as Hl'; [|done]. injection Hstep as <-.
    apply (inv_observer _ _ _ _ Hinv) in Hl'.
    intros l Hl. simpl_state. rewrite list_lookup_total_insert_ne by lia. by apply IH.
Qed.

(** X8: with a negative [maxRetries] a batch never attempts a transfer.
    No worker ever awaits a transfer or a retry timer; no request is ever
    [downloading] or [success] between two events; and every request that
    is [failed] has [attempts = 0] and the error [Unknown download error]. *)
Theorem negative_retries_never_transfer P o urls st :
  (maxRetries o < 0)%Z → reachable P o urls st →
  Forall (fun wk => in_retry_engine wk = false) (workers st) ∧
  ∀ l, l < length urls →
    (status (deref st l) = pending ∨ never_tried (deref st l)).
Proof.
  intros HM Hreach.
  pose proof (reachable_invariant _ _ _ _ Hreach) as Hinv.
  split.
  - apply Forall_lookup. intros w wk Hw. by eapply negative_retries_idle.
  - assert (∀ l, l < length urls → status (deref st l) = failed →
                 never_tried (deref st l)) as Hfailed.
    { clear Hinv. induction Hreach as [|st ev st' Hreach IH Hstep].
      - intros l Hl Hs. exfalso.
        destruct (lookup_lt_is_Some_2 urls l Hl) as [u Hu].
        pose proof (inv_records _ _ _ _ (invariant_start P o urls) _ _ Hu)
          as (_ & _ & _ & Hst).
        rewrite Hs in Hst. destruct Hst as [Hlt _].
        unfold start in Hlt. simpl_state.
        unfold updateProgress in Hlt. destruct (onProgress o); simpl in Hlt; lia.
      - eapply negative_retries_step; try done. by apply reachable_invariant. }
    intros l Hl.
    destruct (lookup_lt_is_Some_2 urls l Hl) as [u Hu].
    pose proof (inv_records _ _ _ _ Hinv _ _ Hu) as (_ & _ & _ & Hst).
    destruct (status (deref st l)) eqn:Hs.
    + by left.
    + exfalso. destruct Hst as (_ & w & wk & Hw & Hb).
      pose proof (negative_retries_idle _ _ _ _ _ _ HM Hinv Hw).
      by destruct wk.
    + exfalso. destruct Hst as [_ Hset]. unfold settled in Hset.
      rewrite Hs in Hset. lia.
    + right. by apply Hfailed.
Qed.

Lemma negative_retries_never_transfer_witness :
  ∃ st,
    replay (mkOptions 1 (-1) 100 None true) [Launch; Resume 0; Resume 0]
      (start sample_platform (mkOptions 1 (-1) 100 None true) sample_urls) = Some st ∧
    joined st = true ∧
    Forall (fun wk => in_retry_engine wk = false) (workers st) ∧
    ∀ l, l < length sample_urls →
      (status (deref st l) = pending ∨ never_tried (deref st l)).
Proof.
  destruct (replay (mkOptions 1 (-1) 100 None true) [Launch; Resume 0; Resume 0]
      (start sample_platform (mkOptions 1 (-1) 100 None true) sample_urls))
    as [st|] eqn:H1; [|vm_compute in H1; discriminate].
  exists st. split; [done|]. split.
  - vm_compute in H1. by injection H1 as <-.
  - apply (negative_retries_never_transfer sample_platform
             (mkOptions 1 (-1) 100 None true) sample_urls); [simpl; lia|].
    eapply replay_reachable; [apply reachable_start | exact H1].
Defined.

(** ** Inferred filenames are usable as filenames *)

Lemma includes_app c (a b : string) :
  includes c (a ++ b) = includes c a || includes c b.
Proof.
  induction a as [|x a IH]; [done|].
  rewrite string_app_cons. simpl. by rewrite IH, orb_assoc.
Qed.

Lemma split_elem_no_sep sep s : ∀ seg, seg ∈ split sep s → includes sep seg = false.
Proof.
  induction s as [|c s IH]; simpl; intros seg Hseg.
  - apply list_elem_of_singleton in Hseg. by subst.
  - destruct (Ascii.eqb c sep) eqn:Hc.
    + apply elem_of_cons in Hseg as [->|Hseg]; [done | by apply IH].
    + pose proof (split_not_nil sep s). destruct (split sep s) as [|seg0 segs]; [done|].
      apply elem_of_cons in Hseg as [->|Hseg].
      * simpl. rewrite Hc. apply IH. by left.
      * apply IH. by right.
Qed.

Lemma decimal_no_slash n : includes "/" (decimal n) = false.
Proof.
  unfold decimal. generalize (Nat.to_uint n). intros d.
  induction d; simpl; done.
Qed.

Lemma placeholder_safe index :
  truthy (placeholder index) = true ∧ includes "/" (placeholder index) = false ∧
  includes "." (placeholder index) = true.
Proof.
  unfold placeholder. split; [done|]. split.
  - rewrite !includes_app, decimal_no_slash. done.
  - rewrite !includes_app. by rewrite !orb_true_r.
Qed.

(** X9: whatever the URL and whatever the parser makes of it, the inferred
    filename is not empty, contains no slash and contains a dot. *)
Theorem inferFilename_safe P u index :
  truthy (inferFilename P u index) = true ∧
  includes "/" (inferFilename P u index) = false ∧
  includes "." (inferFilename P u index) = true.
Proof.
  unfold inferFilename.
  destruct (parseURL P u) as [pathname|]; [|apply placeholder_safe].
  destruct (list.last (List.filter truthy (split "/" pathname))) as [l|] eqn:Hlast;
    [|apply placeholder_safe].
  destruct (truthy l && includes "." l) eqn:Hl; [|apply placeholder_safe].
  apply andb_true_iff in Hl as [Ht Hdot]. split; [done|]. split; [|done].
  apply (split_elem_no_sep "/" pathname).
  apply last_Some_elem_of, list_elem_of_In, filter_In in Hlast as [Hin _].
  by apply list_elem_of_In.
Qed.

Lemma string_length_app (a b : string) :
  String.length (a ++ b) = String.length a + String.length b.
Proof.
  induction a as [|x a IH]; [done|]. rewrite string_app_cons. simpl. by rewrite IH.
Qed.

Lemma string_app_inv_tail (a b c : string) : (a ++ c)%string = (b ++ c)%string → a = b.
Proof.
  revert b. induction a as [|x a IH]; intros [|y b] H.
  - done.
  - apply (f_equal String.length) in H.
    rewrite string_app_nil_l, string_length_app in H. simpl in H. lia.
  - apply (f_equal String.length) in H.
    rewrite string_app_nil_l, string_length_app in H. simpl in H. lia.
  - rewrite !string_app_cons in H. injection H as -> H. f_equal. by apply IH.
Qed.

Lemma decimal_inj n m : decimal n = decimal m → n = m.
Proof.
  unfold decimal. intros H.
  apply (f_equal NilEmpty.uint_of_string) in H. rewrite !NilEmpty.usu in H.
  injection H as H. apply (f_equal Nat.of_uint) in H.
  by rewrite !DecimalNat.Unsigned.of_to in H.
Qed.

(** X10: the names made up for requests whose URL yields no filename differ
    from one index to the other: no two of them collide within a batch. *)
Theorem placeholder_distinct i j : i ≠ j → placeholder i ≠ placeholder j.
Proof.
  unfold placeholder. intros Hne H. apply Hne.
  rewrite <- !string_app_assoc in H. apply string_app_inv_tail in H.
  rewrite !string_app_cons, !string_app_nil_l in H.
  injection H as H. apply decimal_inj in H. lia.
Qed.

Lemma placeholder_distinct_witness : placeholder 9 ≠ placeholder 10.
Proof. apply (placeholder_distinct 9 10). lia. Defined.

(** ** One transfer *)

(** A fulfilled call of [downloadFile] has saved what it fetched. *)
Lemma downloadFile_resolved E u name dir :
  settle (downloadFile E u name dir) = Resolved →
  ∃ resp b, Env.fetch E = Fulfilled resp ∧ Http.ok resp = true ∧
    Http.blob resp = Fulfilled b ∧
    trace (downloadFile E u name dir) = [Fetch u; ReadBlob] ++ saved dir name b.
Proof.
  destruct E as [[[[] s [b|eb]]|ef] [[]|e1] [[]|e2] [[]|e3] [[]|e4]];
    destruct dir as [d|]; run_downloadFile; intros H; try discriminate;
    by eexists _, _.
Qed.

(** A response that is not ok ends the call before the body is read. *)
Lemma downloadFile_not_ok E u name dir resp :
  Env.fetch E = Fulfilled resp → Http.ok resp = false →
  downloadFile E u name dir =
    mkAsync [Fetch u] (inr (ErrorObject ("HTTP " ++ decimal (Http.status resp)))).
Proof.
  intros Hf Hok. unfold downloadFile, andThen, await. rewrite Hf. cbn [result trace].
  by rewrite Hok.
Qed.

(** X11: what one call of [downloadFile] does.  Its promise is fulfilled
    exactly when the fetch is answered with an ok response, the body can be
    read and, with a directory, all four calls on the file handle succeed;
    it has then fetched the URL, read the body and saved that body under the
    given name, in the directory if there is one and through the browser
    otherwise.  When it is rejected no save was completed.  A response that
    is not ok is turned into the error [HTTP <status>] before the body is
    read.  Only one of the two ways of saving is ever used, and only with
    the given name. *)
Theorem downloadFile_outcome E u name dir :
  (settle (downloadFile E u name dir) = Resolved ↔
     (∃ resp b, Env.fetch E = Fulfilled resp ∧ Http.ok resp = true ∧
        Http.blob resp = Fulfilled b ∧
        (is_Some dir →
           Env.getFileHandle E = Fulfilled tt ∧ Env.createWritable E = Fulfilled tt ∧
           Env.write E = Fulfilled tt ∧ Env.close E = Fulfilled tt))) ∧
  (settle (downloadFile E u name dir) = Resolved →
     ∃ resp b, Env.fetch E = Fulfilled resp ∧ Http.blob resp = Fulfilled b ∧
       trace (downloadFile E u name dir) = [Fetch u; ReadBlob] ++ saved dir name b) ∧
  (∀ e, settle (downloadFile E u name dir) = Rejected e →
     (∀ n b, BrowserSave n b ∉ trace (downloadFile E u name dir)) ∧
     (CloseWritable ∈ trace (downloadFile E u name dir) → Env.close E = Thrown e)) ∧
  (∀ resp, Env.fetch E = Fulfilled resp → Http.ok resp = false →
     downloadFile E u name dir =
       mkAsync [Fetch u] (inr (ErrorObject ("HTTP " ++ decimal (Http.status resp))))) ∧
  (∀ d n, GetFileHandle d n ∈ trace (downloadFile E u name dir) →
     dir = Some d ∧ n = name) ∧
  (∀ n b, BrowserSave n b ∈ trace (downloadFile E u name dir) →
     dir = None ∧ n = name).
Proof.
  destruct E as [[[[] s [b|eb]]|ef] [[]|e1] [[]|e2] [[]|e3] [[]|e4]];
    destruct dir as [d|]; run_downloadFile;
    (split; [split; [intros H; try discriminate; eexists _, _;
                       repeat split; try done; by intros [? [=]]
                    |intros (resp & b' & Hf & Hok & Hb & Hsink); simplify_eq/=;
                     try done; try (destruct (Hsink ltac:(by eexists)) as (?&?&?&?); done)]|]);
    (split; [intros H; try discriminate; by eexists _, _|]);
    (split; [intros e H; split; [intros n b' Hin; in_trace; try done|
                                 intros Hin; in_trace; try done; congruence]|]);
    (split; [intros resp Hf Hok; by simplify_eq/=|]);
    (split; [intros d' n Hin; in_trace; simplify_eq; done
            |intros n b' Hin; in_trace; simplify_eq; done]).
Qed.

(** ** Transfers inside the retry engine *)

Lemma after_loop_status lc r : status (after_loop lc r) = failed.
Proof. done. Qed.

Lemma after_loop_filename lc r : filename (after_loop lc r) = filename r.
Proof. done. Qed.

(** The shape of every run of the retry loop: rejections, and then either a
    resolved attempt or, after the last rejection, the exit as [failed]. *)
Lemma retry_loop_shape o outs : ∀ lc r r' acts rest,
  retry_loop o outs lc r = Some (r', acts, rest) →
  filename r' = filename r ∧
  ∃ es,
    (status r' = success ∧ outs = map Rejected es ++ Resolved :: rest ∧
     transfers acts = S (length es)) ∨
    (status r' = failed ∧ outs = map Rejected es ++ rest ∧
     transfers acts = length es ∧
     ∃ e, list.last es = Some e ∧ error r' = Some (describe e)).
Proof.
  induction outs as [|res outs IH]; intros lc r r' acts rest Hrun; [done|].
  cbn [retry_loop] in Hrun. destruct res as [|e].
  - simpl in Hrun. injection Hrun as <- <- <-. split; [done|].
    exists []. left. by repeat split.
  - unfold after_downloadFile in Hrun. cbn [attempt] in Hrun.
    destruct (_ >? _)%Z.
    + injection Hrun as <- <- <-. split; [done|].
      exists [e]. right. repeat split. by exists e.
    + unfold loop_head in Hrun. cbn [attempt] in Hrun.
      destruct (_ <=? _)%Z.
      * destruct (retry_loop o outs _ _) as [[[r3 acts3] rest3]|] eqn:Hrec; [|done].
        injection Hrun as <- <- <-.
        apply IH in Hrec as [Hname [es Hes]]. split; [done|].
        exists (e :: es).
        rewrite transfers_cons_transfer, transfers_cons_sleep.
        destruct Hes as [(Hs & -> & Ht)|(Hs & -> & Ht & e' & Hl & He)].
        -- left. repeat split; [done | simpl; lia].
        -- right. repeat split; [done | simpl; lia |]. exists e'. split; [|done].
           destruct es; [done|]. done.
      * injection Hrun as <- <- <-. split; [done|].
        exists [e]. right. repeat split. by exists e.
Qed.

Lemma attempt_outcomes_app o r Es1 Es2 :
  attempt_outcomes o r (Es1 ++ Es2) = attempt_outcomes o r Es1 ++ attempt_outcomes o r Es2.
Proof. unfold attempt_outcomes. by rewrite map_app. Qed.

Lemma attempt_outcomes_lookup o r Es k res :
  attempt_outcomes o r Es !! k = Some res →
  ∃ E, Es !! k = Some E ∧ settle (attempt_of o r E) = res.
Proof.
  unfold attempt_outcomes. change (map ?f ?l) with (f <$> l).
  rewrite list_lookup_fmap. destruct (Es !! k) as [E|]; [|done].
  intros [= <-]. by exists E.
Qed.

(** X12: a request leaves the retry engine as [success] only if its last
    transfer attempt fetched the URL of the request with an ok response,
    read the body and saved it under the filename of the request, in the
    directory of the options if there is one and through the browser
    otherwise; every attempt before that one was rejected. *)
Theorem success_means_saved o r Es r' acts rest :
  downloadWithRetry o (attempt_outcomes o r Es) r = Some (r', acts, rest) →
  status r' = success →
  ∃ k E resp b,
    transfers acts = S k ∧ Es !! k = Some E ∧
    Env.fetch E = Fulfilled resp ∧ Http.ok resp = true ∧ Http.blob resp = Fulfilled b ∧
    trace (attempt_of o r E) =
      [Fetch (url r); ReadBlob] ++ saved (directory o) (filename r') b ∧
    ∀ j E', j < k → Es !! j = Some E' → ∃ e, settle (attempt_of o r E') = Rejected e.
Proof.
  intros Hrun Hs. unfold downloadWithRetry, loop_head in Hrun.
  destruct (_ <=? _)%Z; [|injection Hrun as <- _ _; done].
  apply retry_loop_shape in Hrun as [Hname [es [(_ & Houts & Ht)|(Hf & _)]]];
    [|congruence].
  change (filename (set_attempts _ r)) with (filename r) in Hname.
  assert (attempt_outcomes o r Es !! length es = Some Resolved) as Hk.
  { rewrite Houts, lookup_app_r by (by rewrite length_map).
    by rewrite length_map, Nat.sub_diag. }
  apply attempt_outcomes_lookup in Hk as (E & HE & Hres).
  destruct (downloadFile_resolved E (url r) (filename r) (directory o) Hres)
    as (resp & b & Hfetch & Hok & Hblob & Htr).
  exists (length es), E, resp, b. rewrite Hname.
  split; [done|]. split; [done|]. split; [done|]. split; [done|]. split; [done|].
  split; [done|].
  intros j E' Hj HE'.
  assert (attempt_outcomes o r Es !! j = Some (settle (attempt_of o r E'))) as Hj'.
  { unfold attempt_outcomes. change (map ?f ?l) with (f <$> l).
    by rewrite list_lookup_fmap, HE'. }
  rewrite Houts, lookup_app_l in Hj' by (by rewrite length_map).
  change (map ?f ?l) with (f <$> l) in Hj'. rewrite list_lookup_fmap in Hj'.
  destruct (es !! j) as [e|]; [|done]. injection Hj' as <-. by exists e.
Qed.

Lemma success_means_saved_witness :
  ∃ r' acts k E resp b,
    downloadWithRetry sample_options
      (attempt_outcomes sample_options sample_request
         [http_error 503; http_ok "bytes"; http_error 404])
      sample_request = Some (r', acts, [Rejected (ErrorObject "HTTP 404")]) ∧
    transfers acts = S k ∧
    [http_error 503; http_ok "bytes"; http_error 404] !! k = Some E ∧
    Env.fetch E = Fulfilled resp ∧ Http.ok resp = true ∧ Http.blob resp = Fulfilled b ∧
    trace (attempt_of sample_options sample_request E) =
      [Fetch (url sample_request); ReadBlob] ++
      saved (directory sample_options) (filename r') b.
Proof.
  destruct (downloadWithRetry sample_options
      (attempt_outcomes sample_options sample_request
         [http_error 503; http_ok "bytes"; http_error 404])
      sample_request) as [[[r' acts] rest]|] eqn:Hrun;
    [|vm_compute in Hrun; discriminate].
  pose proof Hrun as Hval. vm_compute in Hval. injection Hval as <- <- <-.
  destruct (success_means_saved _ _ _ _ _ _ Hrun eq_refl)
    as (k & E & resp & b & Ht & HE & Hf & Hok & Hb & Htr & _).
  eexists _, _, k, E, resp, b.
  split; [exact Hrun|]. split; [exact Ht|]. split; [exact HE|].
  split; [exact Hf|]. split; [exact Hok|]. split; [exact Hb | exact Htr].
Defined.

(** X13: when the server answers every one of the [maxRetries + 1] attempts
    of a request with a status that is not ok, the request leaves the retry
    engine as [failed] after [maxRetries + 1] attempts, with [error] set to
    [HTTP <status>] for the status of the last answer; no attempt read a
    body or saved anything. *)
Theorem http_errors_reported o r Es E resp Es' :
  (0 <= maxRetries o)%Z → Z.of_nat (length Es) = maxRetries o →
  Forall (fun E0 => ∃ resp0, Env.fetch E0 = Fulfilled resp0 ∧ Http.ok resp0 = false)
    (Es ++ [E]) →
  Env.fetch E = Fulfilled resp →
  ∃ r' acts,
    downloadWithRetry o (attempt_outcomes o r (Es ++ [E] ++ Es')) r =
      Some (r', acts, attempt_outcomes o r Es') ∧
    status r' = failed ∧
    error r' = Some ("HTTP " ++ decimal (Http.status resp))%string ∧
    attempts r' = (attempts r + maxRetries o + 1)%Z ∧
    Forall (fun E0 => trace (attempt_of o r E0) = [Fetch (url r)]) (Es ++ [E]).
Proof.
  intros HM Hlen Hall Hfetch.
  assert (∀ E0, (∃ resp0, Env.fetch E0 = Fulfilled resp0 ∧ Http.ok resp0 = false) →
            ∃ resp0, Env.fetch E0 = Fulfilled resp0 ∧
              attempt_of o r E0 =
                mkAsync [Fetch (url r)]
                  (inr (ErrorObject ("HTTP " ++ decimal (Http.status resp0))))) as Hone.
  { intros E0 (resp0 & Hf & Hok). exists resp0. split; [done|].
    by apply downloadFile_not_ok. }
  set (err := fun E0 : Env.exchange =>
         match Env.fetch E0 with
         | Fulfilled resp0 => ErrorObject ("HTTP " ++ decimal (Http.status resp0))
         | Thrown e => e
         end).
  assert (attempt_outcomes o r (Es ++ [E]) = map Rejected (map err (Es ++ [E]))) as Houts.
  { unfold attempt_outcomes. rewrite map_map. apply map_ext_in.
    intros E0 HE0. rewrite Forall_forall in Hall.
    destruct (Hone E0 (Hall _ HE0)) as (resp0 & Hf & ->).
    unfold settle, err. by rewrite Hf. }
  rewrite app_assoc, attempt_outcomes_app, Houts.
  rewrite downloadWithRetry_enter by done.
  rewrite (retry_loop_rejected o _ 1%nat);
    [| by destruct Es | done | rewrite length_map, length_app; simpl; lia].
  eexists _, _. split; [reflexivity|]. cbn [status error attempts].
  split; [done|]. split; [|split].
  - rewrite map_app. simpl. rewrite last_snoc. simpl. unfold err. by rewrite Hfetch.
  - rewrite length_map, length_app. simpl. lia.
  - eapply Forall_impl; [|exact Hall]. intros E0 HE0. simpl in HE0.
    by destruct (Hone E0 HE0) as (resp0 & _ & ->).
Qed.

Lemma http_errors_reported_witness :
  ∃ r' acts,
    downloadWithRetry sample_options
      (attempt_outcomes sample_options sample_request
         ([http_error 500; http_error 503] ++ [http_error 404] ++ [])) sample_request =
      Some (r', acts, attempt_outcomes sample_options sample_request []) ∧
    status r' = failed ∧
    error r' = Some ("HTTP " ++ decimal 404)%string ∧
    attempts r' = (attempts sample_request + maxRetries sample_options + 1)%Z ∧
    Forall (fun E0 => trace (attempt_of sample_options sample_request E0) =
                        [Fetch (url sample_request)])
      ([http_error 500; http_error 503] ++ [http_error 404]).
Proof.
  apply (http_errors_reported sample_options sample_request
           [http_error 500; http_error 503] (http_error 404)
           (Http.mkResponse false 404 (Fulfilled EmptyString)) []).
  - simpl. lia.
  - reflexivity.
  - repeat constructor; by eexists.
  - reflexivity.
Defined.

(** ** Reading the URLs *)

Section ViewProperties.
Variable white : ascii → bool.

Lemma trimEnd_last s c : last_char (trimEnd white s) = Some c → white c = false.
Proof.
  induction s as [|x s IH]; simpl; [done|].
  destruct (trimEnd white s) as [|y t] eqn:Ht.
  - destruct (white x) eqn:Hx; simpl; [done|]. by intros [= <-].
  - intros H. apply IH. exact H.
Qed.

Lemma trimEnd_first s :
  trimEnd white s ≠ EmptyString → first_char (trimEnd white s) = first_char s.
Proof.
  destruct s as [|x s]; simpl; [done|].
  destruct (trimEnd white s); [|done]. by destruct (white x).
Qed.

Lemma trimStart_first s c : first_char (trimStart white s) = Some c → white c = false.
Proof.
  induction s as [|x s IH]; simpl; [done|].
  destruct (white x) eqn:Hx; [done|]. simpl. by intros [= <-].
Qed.

Lemma includes_trimStart c s : includes c s = false → includes c (trimStart white s) = false.
Proof.
  induction s as [|x s IH]; simpl; [done|].
  intros [Hx Hs]%orb_false_iff. destruct (white x); [by apply IH|].
  simpl. by rewrite Hx, Hs.
Qed.

Lemma includes_trimEnd c s : includes c s = false → includes c (trimEnd white s) = false.
Proof.
  induction s as [|x s IH]; simpl; [done|].
  intros [Hx Hs]%orb_false_iff. specialize (IH Hs).
  destruct (trimEnd white s) as [|y t].
  - destruct (white x); [done|]. simpl. by rewrite Hx.
  - simpl in *. by rewrite Hx, IH.
Qed.

Lemma trim_clean s :
  includes newline s = false → truthy (trim white s) = true → clean white (trim white s).
Proof.
  intros Hnl Ht. unfold clean, trim in *. split; [done|]. split; [|split].
  - by apply includes_trimEnd, includes_trimStart.
  - intros c Hc. rewrite trimEnd_first in Hc by (by destruct (trimEnd white _)).
    by eapply trimStart_first.
  - intros c. apply trimEnd_last.
Qed.

Lemma trimStart_fixed s :
  (∀ c, first_char s = Some c → white c = false) → trimStart white s = s.
Proof.
  destruct s as [|x s]; simpl; [done|]. intros H. by rewrite (H x).
Qed.

Lemma trimEnd_fixed s :
  (∀ c, last_char s = Some c → white c = false) → trimEnd white s = s.
Proof.
  induction s as [|x s IH]; simpl; [done|]. intros H.
  destruct s as [|y s].
  - simpl. by rewrite (H x).
  - rewrite IH by exact H. done.
Qed.

Lemma clean_trim u : clean white u → trim white u = u.
Proof.
  intros (_ & _ & Hf & Hl). unfold trim.
  rewrite trimStart_fixed by done. by apply trimEnd_fixed.
Qed.

Lemma readUrls_clean value : Forall (clean white) (readUrls white value).
Proof.
  apply Forall_forall. intros u [Hin Ht]%filter_In.
  apply in_map_iff in Hin as (line & <- & Hline%list_elem_of_In).
  apply trim_clean; [|done]. by eapply split_elem_no_sep.
Qed.

(** X14: every URL that [readUrls] returns is the trimmed text of a line of
    the text area; it is not empty, lies on one line and has no white space
    at either end. *)
Theorem readUrls_entries value :
  Forall (fun u => clean white u ∧ trim white u = u ∧
                   ∃ line, line ∈ split newline value ∧ u = trim white line)
    (readUrls white value).
Proof.
  apply Forall_forall. intros u [Hin Ht]%filter_In.
  apply in_map_iff in Hin as (line & <- & Hline%list_elem_of_In).
  assert (clean white (trim white line)) as Hclean.
  { apply trim_clean; [|done]. by eapply split_elem_no_sep. }
  split; [done|]. split; [by apply clean_trim|]. by exists line.
Qed.

Lemma split_join us :
  us ≠ [] → Forall (fun u => includes newline u = false) us →
  split newline (join newline us) = us.
Proof.
  induction us as [|u us IH]; [done|]. intros _ Hall.
  apply list.Forall_cons in Hall as [Hu Hus].
  destruct us as [|u' us].
  - simpl. by apply split_no_sep.
  - change (join newline (u :: u' :: us))
      with (u ++ String newline (join newline (u' :: us)))%string.
    rewrite split_app_sep, IH by done. by rewrite split_no_sep.
Qed.

Lemma readUrls_join us :
  Forall (clean white) us → readUrls white (join newline us) = us.
Proof.
  intros Hall. unfold readUrls. destruct us as [|u us].
  - simpl. unfold trim. simpl. done.
  - rewrite split_join; [|done|].
    + induction Hall as [|x xs Hx _ IH]; [done|].
      simpl. rewrite (clean_trim x Hx). destruct Hx as [-> _]. by rewrite IH.
    + eapply Forall_impl; [|exact Hall]. by intros x (_ & ? & _).
Qed.

(** X15: URLs written one per line are read back as they are: when every
    URL is not empty, lies on one line and has no white space at either
    end, [readUrls] of the lines joined by newlines is the list of the
    URLs.  So reading is idempotent: what [readUrls] returns, written one
    per line, is read back unchanged. *)
Theorem readUrls_round_trip us value :
  (Forall (clean white) us → readUrls white (join newline us) = us) ∧
  readUrls white (join newline (readUrls white value)) = readUrls white value.
Proof.
  split; [apply readUrls_join|]. apply readUrls_join, readUrls_clean.
Qed.

End ViewProperties.

Lemma readUrls_round_trip_witness :
  readUrls ascii_white (join newline ["https://a/b/c.png"; "https://a/b/"]%string)
    = ["https://a/b/c.png"; "https://a/b/"]%string.
Proof.
  apply (proj1 (readUrls_round_trip ascii_white
                  ["https://a/b/c.png"; "https://a/b/"]%string EmptyString)).
  repeat constructor; try done; by intros c [= <-].
Defined.

(** ** The application *)

Lemma fold_onSnapshot ds : ∀ a,
  App.state (fold_left onSnapshot ds a) =
    App.mkAppState (App.directoryHandle (App.state a))
      (match list.last ds with Some d => Some d | None => App.progress (App.state a) end)
      (App.failedUrls (App.state a)) (App.isRunning (App.state a))
      (App.message (App.state a)).
Proof.
  induction ds as [|d ds IH] using rev_ind; intros a.
  - simpl. by destruct a as [[]].
  - rewrite fold_left_app, last_snoc. simpl. by rewrite IH.
Qed.

Lemma advances_strip sched : advances (strip sched) = advances sched.
Proof.
  unfold advances, strip. induction sched as [|c sched IH]; [done|].
  simpl. destruct (is_advance c) eqn:Hc; simpl; rewrite ?Hc; simpl; by rewrite IH.
Qed.

(** The URLs of the failed requests are among the input URLs, in order. *)
Lemma failed_urls_sublist P urls options sched st res :
  runDownloadTask P urls options sched = Some (st, res) →
  sublist (map (fun item => url (deref st item)) (Result.failures res)) urls.
Proof.
  intros Hrun.
  destruct urls as [|u us]; [by injection Hrun as <- <-|].
  set (urls := u :: us) in *.
  destruct (runDownloadTask_Some P urls _ _ _ _ ltac:(done) Hrun)
    as (_ & st0 & Hrun0 & Hst & Hres).
  set (o := mergeOptions options) in *. clear Hrun.
  destruct (run_reachable P o urls sched _ _ (reachable_start P o urls) Hrun0)
    as [Hreach _].
  pose proof (reachable_invariant _ _ _ _ Hreach) as Hinv.
  apply (invariant_updateProgress _ _ _ completed) in Hinv.
  unfold finish in Hst, Hres. cbn [fst snd] in Hst, Hres. subst res.
  rewrite Hst. clear Hst st.
  set (st := updateProgress completed o st0) in *.
  cbn [Result.failures].
  assert (map (fun item => url (deref st item)) (requests st) = urls) as Hurls.
  { rewrite (inv_requests _ _ _ _ Hinv).
    change (map ?f ?l) with (f <$> l).
    apply list_eq. intros i. rewrite list_lookup_fmap.
    destruct (urls !! i) as [ui|] eqn:Hi.
    - rewrite lookup_seq_lt by (by apply lookup_lt_Some in Hi). simpl.
      by destruct (inv_records _ _ _ _ Hinv _ _ Hi) as (_ & -> & _).
    - rewrite lookup_seq_ge by (by apply lookup_ge_None in Hi). done. }
  pose proof (fmap_sublist (fun item => url (deref st item)) _ _
                (sublist_filter (fun l => has_status failed (deref st l)) (requests st)))
    as Hsub.
  change (?f <$> ?l) with (map f l) in Hsub. by rewrite Hurls in Hsub.
Qed.

Lemma finish_last_delivery o st :
  onProgress o = true →
  ∃ d, list.last (delivered (fst (finish o st))) = Some d ∧
       Progress.status (snapshot d) = completed ∧
       Progress.total (snapshot d) = length (requests st).
Proof.
  intros Hon. cbn [finish fst]. unfold updateProgress. rewrite Hon. cbn [delivered].
  eexists. split; [apply last_snoc|]. done.
Qed.

(** When the pool has joined, and had a worker at all, every request is in
    one of the two lists of the result. *)
Lemma finish_lengths P o urls st :
  0 < pool_size o → reachable P o urls st → joined st = true →
  length (Result.successes (snd (finish o st))) +
  length (Result.failures (snd (finish o st))) = length urls.
Proof.
  intros Hc Hreach Hj.
  pose proof (reachable_invariant _ _ _ _ Hreach) as Hinv.
  cbn [finish snd Result.successes Result.failures].
  rewrite updateProgress_requests_eq, (inv_requests _ _ _ _ Hinv).
  transitivity (length (seq 0 (length urls))); [|by rewrite length_seq].
  apply length_partition. intros l Hl%elem_of_seq. unfold has_status.
  pose proof (finish_deref o st l) as Hd. cbn [finish fst] in Hd.
  rewrite Hd by (pose proof (inv_store _ _ _ _ Hinv); lia).
  split.
  - apply (joined_settled P o urls st l Hc Hreach Hj). lia.
  - intros [H1 H2]. congruence.
Qed.

(** What a call of [startTask] leaves in the state, however the batch has
    ended. *)
Lemma startTask_ends P cfg sched u us a a' :
  startTask P cfg sched (u :: us) a = Some a' →
  App.isRunning (App.state a') = false ∧
  App.directoryHandle (App.state a') = App.directoryHandle (App.state a) ∧
  sublist (App.failedUrls (App.state a')) (u :: us) ∧
  list.last (App.view a') = Some (SetRunningState false (hasRetryableFiles a')).
Proof.
  set (urls := u :: us) in *.
  unfold startTask. fold urls.
  set (a3 := renderProgress None _).
  change (taskOptions cfg a3) with (taskOptions cfg a).
  set (options := taskOptions cfg a).
  intros Hstart.
  pose proof (failed_urls_sublist P urls options (strip sched)) as Hsub.
  unfold runDownloadTask in Hsub.
  destruct (runDownloadTask_ending P urls options (strip sched)) as [st res|st e|];
    [| |done]; injection Hstart as <-.
  - specialize (Hsub st res eq_refl).
    unfold setRunningState, renderMessage, set_message, set_failedUrls, call_view.
    cbn [App.state App.view App.isRunning App.directoryHandle App.failedUrls
         App.message App.progress].
    rewrite !fold_onSnapshot.
    cbn [App.state App.view App.isRunning App.directoryHandle App.failedUrls
         App.message App.progress].
    split; [done|]. split; [done|]. split; [done|]. by rewrite last_snoc.
  - unfold setRunningState, renderMessage, set_message, set_failedUrls, call_view.
    cbn [App.state App.view App.isRunning App.directoryHandle App.failedUrls
         App.message App.progress].
    rewrite !fold_onSnapshot.
    cbn [App.state App.view App.isRunning App.directoryHandle App.failedUrls
         App.message App.progress].
    split; [done|]. split; [done|]. split; [apply sublist_nil_l|]. by rewrite last_snoc.
Qed.

(** What a call of [startTask] whose batch has returned leaves in the
    state. *)
Lemma startTask_returns P cfg sched u us a a' :
  (Ui.concurrency cfg < 2 ^ 32)%Z →
  startTask P cfg sched (u :: us) a = Some a' →
  (∃ n, App.message (App.state a') =
          done_text n (length (App.failedUrls (App.state a'))) ∧
        ((1 <= Ui.concurrency cfg)%Z →
           n + length (App.failedUrls (App.state a')) = length (u :: us))) ∧
  (∃ d, App.progress (App.state a') = Some d ∧
        Progress.status (snapshot d) = completed ∧
        Progress.total (snapshot d) = length (u :: us)).
Proof.
  set (urls := u :: us) in *.
  unfold startTask. fold urls.
  set (a3 := renderProgress None _).
  change (taskOptions cfg a3) with (taskOptions cfg a).
  set (options := taskOptions cfg a).
  set (o := mergeOptions options).
  intros Hc32 Hstart.
  assert (runDownloadTask_ending P urls options (strip sched) =
          match run o (strip sched) (start P o urls) with
          | Some st => Returns (fst (finish o st)) (snd (finish o st))
          | None => Pends
          end) as Hend.
  { unfold runDownloadTask_ending, urls. cbv zeta. fold urls. fold o.
    unfold array_length.
    destruct (Z.ltb_spec (concurrency o) (2 ^ 32)) as [|Hge]; [done|].
    change (concurrency o) with (Ui.concurrency cfg) in Hge. lia. }
  rewrite Hend in Hstart. clear Hend.
  destruct (run o (strip sched) (start P o urls)) as [st0|] eqn:Hrun0; [|done].
  destruct (run_reachable P o urls _ _ _ (reachable_start P o urls) Hrun0)
    as [Hreach Hj].
  pose proof (reachable_invariant _ _ _ _ Hreach) as Hinv.
  destruct (finish_last_delivery o st0 eq_refl) as (d & Hlast & Hstatus & Htotal).
  pose proof (finish_lengths P o urls st0) as Hlen.
  rewrite (inv_requests _ _ _ _ Hinv), length_seq in Htotal.
  destruct (finish o st0) as [st1 res1] eqn:Hfin.
  cbn [fst snd] in *. injection Hstart as <-.
  unfold setRunningState, renderMessage, set_message, set_failedUrls, call_view.
  cbn [App.state App.view App.isRunning App.directoryHandle App.failedUrls
       App.message App.progress].
  rewrite !fold_onSnapshot, Hlast.
  cbn [App.state App.view App.isRunning App.directoryHandle App.failedUrls
       App.message App.progress].
  split.
  - exists (length (Result.successes res1)). rewrite length_map. split; [done|].
    intros Hc. apply Hlen; [|done|done]. apply pool_size_pos. by split.
  - by exists d.
Qed.

(** What a call of [startTask] leaves in the state when the pool of its
    batch could not be made: it returns whatever the environment does. *)
Lemma startTask_rejected P cfg sched u us a :
  (2 ^ 32 <= Ui.concurrency cfg)%Z →
  ∃ a', startTask P cfg sched (u :: us) a = Some a' ∧
    App.message (App.state a') = failure_text (ErrorObject (invalidArrayLength P)) ∧
    App.failedUrls (App.state a') = [] ∧
    ∃ d, App.progress (App.state a') = Some d ∧
         Progress.status (snapshot d) = idle ∧
         Progress.total (snapshot d) = length (u :: us) ∧
         Progress.completed (snapshot d) = 0 ∧
         Forall (fun r => status r = pending) (seen d).
Proof.
  set (urls := u :: us) in *.
  unfold startTask. fold urls.
  set (a3 := renderProgress None _).
  change (taskOptions cfg a3) with (taskOptions cfg a).
  set (options := taskOptions cfg a).
  set (o := mergeOptions options).
  intros Hc32.
  assert (runDownloadTask_ending P urls options (strip sched) =
          Throws (start P o urls) (ErrorObject (invalidArrayLength P))) as ->.
  { unfold runDownloadTask_ending, urls. cbv zeta. fold urls. fold o.
    unfold array_length.
    destruct (Z.ltb_spec (concurrency o) (2 ^ 32)) as [Hlt|]; [|done].
    change (concurrency o) with (Ui.concurrency cfg) in Hlt. lia. }
  eexists. split; [reflexivity|].
  unfold setRunningState, renderMessage, set_message, set_failedUrls, call_view.
  cbn [App.state App.view App.isRunning App.directoryHandle App.failedUrls
       App.message App.progress].
  rewrite !fold_onSnapshot.
  cbn [App.state App.view App.isRunning App.directoryHandle App.failedUrls
       App.message App.progress].
  split; [done|]. split; [done|].
  unfold start, updateProgress. change (onProgress o) with true. cbv iota.
  simpl_state. rewrite last_snoc. eexists. split; [reflexivity|].
  cbn [snapshot seen Progress.status Progress.total Progress.completed].
  assert (Forall (fun r => status r = pending)
            (live (mkState (imap (newRequest P) urls)
                     (seq 0 (length (imap (newRequest P) urls))) [] 0 0 [] [] [])))
    as Hpending.
  { unfold live, deref. cbn [store requests]. rewrite length_imap.
    apply Forall_lookup. intros i r Hi.
    change (map ?f ?l) with (f <$> l) in Hi.
    rewrite list_lookup_fmap in Hi.
    destruct (seq 0 (length urls) !! i) as [j|] eqn:Hj; [|done].
    apply lookup_seq in Hj as [-> Hlt]. simpl in Hi. injection Hi as <-.
    destruct (lookup_lt_is_Some_2 urls i Hlt) as [ui Hui].
    rewrite (list_lookup_total_correct _ _ (newRequest P i ui)); [done|].
    pose proof (list_lookup_imap (newRequest P) urls i) as Hl.
    rewrite Hui in Hl. exact Hl. }
  split; [done|]. split; [by rewrite length_seq, length_imap|]. split; [|done].
  assert (∀ s, s ≠ pending →
            ∀ rs, Forall (fun r => status r = pending) rs →
                  length (filter (has_status s) rs) = 0) as Hnone.
  { intros s Hs rs Hrs. induction Hrs as [|r rs Hr _ IH]; [done|].
    rewrite filter_cons. destruct (decide (has_status s r)) as [Hd|_]; [|done].
    unfold has_status in Hd. congruence. }
  by rewrite !Hnone.
Qed.

(** X16: what a call of [startTask] with at least one URL leaves behind.
    When the events of the batch keep coming the call returns.  When it has
    returned, the application is no longer running, the directory is the
    one it had, [failedUrls] holds URLs of the input, in the order of the
    input, and the last call on the view enables the retry button exactly
    when there are failed URLs.  With a [concurrency] below [2^32] the
    message tells the two counts of the result, the second being the number
    of [failedUrls], and with [concurrency >= 1] the counts add up to the
    number of URLs; the progress kept is the [completed] snapshot of all the
    URLs.  With a [concurrency] of [2^32] or more the batch is rejected
    before it has a worker: the call returns whatever the environment does,
    the message is the one of the [catch] block and tells what the engine
    threw, there are no failed URLs, and the progress kept is the [idle]
    snapshot, in which every request is pending. *)
Theorem startTask_outcome P cfg sched urls a :
  urls ≠ [] →
  (pool_size (mergeOptions (taskOptions cfg a)) +
     length urls * item_cost (mergeOptions (taskOptions cfg a)) <= advances sched →
   is_Some (startTask P cfg sched urls a)) ∧
  (∀ a', startTask P cfg sched urls a = Some a' →
    App.isRunning (App.state a') = false ∧
    App.directoryHandle (App.state a') = App.directoryHandle (App.state a) ∧
    sublist (App.failedUrls (App.state a')) urls ∧
    list.last (App.view a') = Some (SetRunningState false (hasRetryableFiles a')) ∧
    ((Ui.concurrency cfg < 2 ^ 32)%Z →
       (∃ n, App.message (App.state a') =
               done_text n (length (App.failedUrls (App.state a'))) ∧
             ((1 <= Ui.concurrency cfg)%Z →
                n + length (App.failedUrls (App.state a')) = length urls)) ∧
       (∃ d, App.progress (App.state a') = Some d ∧
             Progress.status (snapshot d) = completed ∧
             Progress.total (snapshot d) = length urls))) ∧
  ((2 ^ 32 <= Ui.concurrency cfg)%Z →
     ∃ a', startTask P cfg sched urls a = Some a' ∧
       App.message (App.state a') = failure_text (ErrorObject (invalidArrayLength P)) ∧
       App.failedUrls (App.state a') = [] ∧
       ∃ d, App.progress (App.state a') = Some d ∧
            Progress.status (snapshot d) = idle ∧
            Progress.total (snapshot d) = length urls ∧
            Progress.completed (snapshot d) = 0 ∧
            Forall (fun r => status r = pending) (seen d)).
Proof.
  intros Hne. destruct urls as [|u us]; [done|]. clear Hne.
  split; [|split].
  - intros Hwork.
    destruct (Z.lt_ge_cases (Ui.concurrency cfg) (2 ^ 32)) as [Hc|Hc].
    + unfold startTask.
      set (a3 := renderProgress None _).
      change (taskOptions cfg a3) with (taskOptions cfg a).
      set (o := mergeOptions (taskOptions cfg a)) in *.
      unfold runDownloadTask_ending. cbv zeta. fold o. unfold array_length.
      destruct (Z.ltb_spec (concurrency o) (2 ^ 32)) as [|Hge];
        [|change (concurrency o) with (Ui.concurrency cfg) in Hge; lia].
      destruct (run_terminates o (strip sched) (start P o (u :: us))) as [st0 ->];
        [|done].
      by rewrite work_start, advances_strip.
    + by destruct (startTask_rejected P cfg sched u us a Hc) as (a' & -> & _).
  - intros a' Hstart.
    destruct (startTask_ends _ _ _ _ _ _ _ Hstart) as (H1 & H2 & H3 & H4).
    split; [done|]. split; [done|]. split; [done|]. split; [done|].
    intros Hc. by apply (startTask_returns P cfg sched u us a a').
  - apply startTask_rejected.
Qed.

Lemma startTask_outcome_witness :
  ∃ a' a'',
    startTask sample_platform sample_config sample_schedule sample_urls sample_app
      = Some a' ∧
    App.isRunning (App.state a') = false ∧
    App.failedUrls (App.state a') = [] ∧
    App.message (App.state a') = done_text 2 0 ∧
    list.last (App.view a') = Some (SetRunningState false false) ∧
    startTask sample_platform oversized_config sample_schedule sample_urls sample_app
      = Some a'' ∧
    App.isRunning (App.state a'') = false ∧
    App.message (App.state a'') = failure_text (ErrorObject "Invalid array length").
Proof.
  destruct (startTask sample_platform sample_config sample_schedule sample_urls
              sample_app) as [a'|] eqn:Hrun; [|vm_compute in Hrun; discriminate].
  destruct (startTask sample_platform oversized_config sample_schedule sample_urls
              sample_app) as [a''|] eqn:Hrun'; [|vm_compute in Hrun'; discriminate].
  exists a', a''. split; [done|].
  destruct (proj1 (proj2 (startTask_outcome sample_platform sample_config sample_schedule
                     sample_urls sample_app ltac:(done))) a' Hrun)
    as (Hrunning & _).
  destruct (proj1 (proj2 (startTask_outcome sample_platform oversized_config
                     sample_schedule sample_urls sample_app ltac:(done))) a'' Hrun')
    as (Hrunning' & _).
  split; [exact Hrunning|].
  vm_compute in Hrun. injection Hrun as <-.
  split; [by vm_compute|]. split; [by vm_compute|]. split; [by vm_compute|].
  split; [done|]. split; [exact Hrunning'|].
  vm_compute in Hrun'. injection Hrun' as <-. by vm_compute.
Defined.

(** X17: the retry button starts a batch of exactly the URLs that failed
    last time, and only if there are any; when that batch has returned, the
    failed URLs are among those it was started with, in the same order: a
    retry never adds a URL to the failed ones. *)
Theorem retry_never_adds P cfg sched a a' :
  onRetryFailed P cfg sched a = Some a' →
  sublist (App.failedUrls (App.state a')) (App.failedUrls (App.state a)) ∧
  (App.failedUrls (App.state a) = [] → a' = a).
Proof.
  unfold onRetryFailed. intros Hretry.
  destruct (App.failedUrls (App.state a)) as [|u us] eqn:Hf.
  - injection Hretry as <-. by rewrite Hf.
  - split; [|done]. by apply (startTask_ends P cfg sched u us a a').
Qed.

Lemma retry_never_adds_witness :
  ∃ a1 a2,
    startTask sample_platform sample_config sample_failing_schedule sample_urls
      sample_app = Some a1 ∧
    App.failedUrls (App.state a1) = ["https://a/b/"%string] ∧
    onRetryFailed sample_platform sample_config sample_schedule a1 = Some a2 ∧
    App.failedUrls (App.state a2) = [] ∧
    sublist (App.failedUrls (App.state a2)) (App.failedUrls (App.state a1)) ∧
    (App.failedUrls (App.state a1) = [] → a2 = a1).
Proof.
  destruct (startTask sample_platform sample_config sample_failing_schedule sample_urls
              sample_app) as [a1|] eqn:H1; [|vm_compute in H1; discriminate].
  exists a1.
  vm_compute in H1. injection H1 as <-.
  match goal with |- context [onRetryFailed ?P ?c ?s ?a] =>
    destruct (onRetryFailed P c s a) as [a2|] eqn:H2; [|vm_compute in H2; discriminate]
  end.
  exists a2. split; [done|]. split; [done|]. split; [done|]. split.
  - vm_compute in H2. by injection H2 as <-.
  - exact (retry_never_adds _ _ _ _ _ H2).
Defined.

(** X18: a click on the start button while the text area holds nothing but
    blank lines starts no batch: the application shows the message asking
    for a URL and keeps everything else, the failed URLs of an earlier batch
    included. *)
Theorem onStart_blank white P cfg sched value a :
  Forall (fun line => trim white line = EmptyString) (split newline value) →
  ∃ a', onStart white P cfg sched value a = Some a' ∧
    App.view a' = App.view a ++ [RenderMessage need_url_text] ∧
    App.message (App.state a') = need_url_text ∧
    App.failedUrls (App.state a') = App.failedUrls (App.state a) ∧
    App.progress (App.state a') = App.progress (App.state a) ∧
    App.isRunning (App.state a') = App.isRunning (App.state a) ∧
    App.directoryHandle (App.state a') = App.directoryHandle (App.state a).
Proof.
  intros Hblank. unfold onStart, parseUrls, readUrls.
  assert (List.filter truthy (map (trim white) (split newline value)) = []) as ->.
  { induction Hblank as [|line lines Hline _ IH]; [done|].
    simpl. by rewrite Hline. }
  eexists. split; [reflexivity|]. done.
Qed.

Lemma onStart_blank_witness :
  ∃ a', onStart ascii_white sample_platform sample_config sample_schedule
          (String " " (String newline (String newline (String " " EmptyString))))
          sample_app = Some a' ∧
    App.view a' = App.view sample_app ++ [RenderMessage need_url_text] ∧
    App.message (App.state a') = need_url_text ∧
    App.failedUrls (App.state a') = App.failedUrls (App.state sample_app) ∧
    App.progress (App.state a') = App.progress (App.state sample_app) ∧
    App.isRunning (App.state a') = App.isRunning (App.state sample_app) ∧
    App.directoryHandle (App.state a') = App.directoryHandle (App.state sample_app).
Proof.
  apply (onStart_blank ascii_white sample_platform sample_config sample_schedule).
  by repeat constructor.
Defined.
